(** * qing-crop: character segmentation and classification engine

    A shallow embedding of the post-OCR engine of the repository
    (charSegmentation.ts, mlAlgorithms.ts, enhancedOcrEngine.ts) and the
    properties its specification states about it.

    Conventions of the embedding.
    - An [ImageData] is its [width], [height] and flat RGBA sample array
      [data]; a read past the end of a JS array yields [undefined], which is
      [None] of stdpp's list lookup.  Every comparison of [undefined] with a
      number is false.
    - Counts, indices and samples are integers ([nat], [Z]).  The luma of a
      pixel and the between-class variance of Otsu's method are computed in
      IEEE binary64, as the source computes them ([Float64]); their results
      are compared through their exact values.  Other JS numbers are exact
      rationals ([Q]): there rounding of IEEE doubles is not modelled.
      Where the source can produce [NaN] or [Infinity] from finite inputs
      (k-means, k-NN) the type [num] adds them.
    - Host functions ([Math.sqrt], [Math.atan2], [Math.random],
      [Array.prototype.sort], [JSON.parse], canvas acquisition) are
      parameters of the definitions that call them.
    - A JS [Map] is an association list in insertion order.
    - Objects mutated through several references (the result records shared
      by [results], the clusters and the sorted copy; the label sets shared by
      several keys of [labelMap]) live in a store and are referred to by
      index. *)

From Stdlib Require Import ZArith QArith Qminmax Qround Qabs Lia Lqa List String Bool Permutation.
From Stdlib Require PrimFloat FloatOps SpecFloat.
From stdpp Require Import base list strings.

Open Scope Z_scope.

(** ** Generic loop reasoning *)

(** An invariant of a counting loop [for (i = 0; i < n; i++)]. *)
Lemma foldl_seq_invariant {S : Type} (P : nat → S → Prop) (f : S → nat → S)
    (n : nat) (s0 : S) :
  P 0%nat s0 →
  (∀ i s, (i < n)%nat → P i s → P (Datatypes.S i) (f s i)) →
  P n (foldl f s0 (seq 0 n)).
Proof.
  intros H0 Hstep. induction n as [|n IH].
  - exact H0.
  - rewrite seq_S, foldl_app. simpl. apply Hstep; [lia|].
    apply IH. intros i s Hi. apply Hstep. lia.
Qed.

(** Sum of an array of integer counts. *)
Definition sumZ (l : list Z) : Z := foldr Z.add 0 l.

Lemma sumZ_app (l1 l2 : list Z) : sumZ (l1 ++ l2) = sumZ l1 + sumZ l2.
Proof. induction l1 as [|a l1 IH]; simpl; [reflexivity|]. unfold sumZ in *. simpl. lia. Qed.

Lemma sumZ_replicate_0 (n : nat) : sumZ (replicate n 0) = 0.
Proof. induction n as [|n IH]; [reflexivity|]. unfold sumZ in *. simpl. lia. Qed.

Lemma sumZ_alter_succ (l : list Z) (i : nat) :
  (i < length l)%nat → sumZ (alter Z.succ i l) = sumZ l + 1.
Proof.
  revert i. induction l as [|a l IH]; intros i Hi; simpl in *; [lia|].
  destruct i as [|i]; unfold sumZ in *; simpl.
  - lia.
  - change (list_alter Z.succ i l) with (alter Z.succ i l).
    rewrite IH by lia. lia.
Qed.

(** ** JS Maps

    A [Map] is the list of its entries in insertion order, with distinct
    keys. *)

(** [m.get(key)]. *)
Fixpoint mapGet {K V : Type} `{EqDecision K} (key : K) (m : list (K * V))
    : option V :=
  match m with
  | [] => None
  | (k, v) :: rest => if decide (k = key) then Some v else mapGet key rest
  end.

(** [m.set(key, f(m.get(key) || zero))]: the entry is updated where it
    stands, or added at the end. *)
Fixpoint upsert {K V : Type} `{EqDecision K} (f : V → V) (zero : V) (key : K)
    (m : list (K * V)) : list (K * V) :=
  match m with
  | [] => [(key, f zero)]
  | (k, v) :: rest =>
      if decide (k = key) then (k, f v) :: rest
      else (k, v) :: upsert f zero key rest
  end.

Section MapLemmas.
Context {K V : Type} `{EqDecision K}.

Lemma mapGet_upsert_eq (f : V → V) (zero : V) (key : K) (m : list (K * V)) :
  mapGet key (upsert f zero key m) = Some (f (default zero (mapGet key m))).
Proof.
  induction m as [|[k v] m IH]; simpl.
  - rewrite decide_True by reflexivity. reflexivity.
  - destruct (decide (k = key)) as [->|Hne]; simpl.
    + rewrite decide_True by reflexivity. reflexivity.
    + rewrite decide_False by exact Hne. exact IH.
Qed.

Lemma mapGet_upsert_ne (f : V → V) (zero : V) (key key' : K) (m : list (K * V)) :
  key' ≠ key → mapGet key' (upsert f zero key m) = mapGet key' m.
Proof.
  intros Hne. induction m as [|[k v] m IH]; simpl.
  - rewrite decide_False by congruence. reflexivity.
  - destruct (decide (k = key)) as [->|Hk]; simpl.
    + rewrite !decide_False by congruence. reflexivity.
    + destruct (decide (k = key')); [reflexivity | exact IH].
Qed.

Lemma upsert_keys (f : V → V) (zero : V) (key : K) (m : list (K * V)) :
  (upsert f zero key m).*1 =
  if decide (key ∈ m.*1) then m.*1 else m.*1 ++ [key].
Proof.
  induction m as [|[k v] m IH].
  - destruct (decide (key ∈ ([] : list (K * V)).*1)) as [Hin|_]; [|reflexivity].
    apply elem_of_nil in Hin. contradiction.
  - cbn [upsert]. destruct (decide (k = key)) as [->|Hk].
    + destruct (decide (key ∈ ((key, v) :: m).*1)) as [_|Hn]; [reflexivity|].
      exfalso. apply Hn. left.
    + rewrite fmap_cons, IH. cbn [fst].
      destruct (decide (key ∈ m.*1)) as [Hin|Hin];
        destruct (decide (key ∈ ((k, v) :: m).*1)) as [Hin'|Hin'];
        try reflexivity; exfalso.
      * apply Hin'. right. exact Hin.
      * rewrite fmap_cons in Hin'. apply elem_of_cons in Hin' as [Heq|Hin'];
          [simpl in Heq; congruence | contradiction].
Qed.

Lemma upsert_NoDup (f : V → V) (zero : V) (key : K) (m : list (K * V)) :
  NoDup m.*1 → NoDup (upsert f zero key m).*1.
Proof.
  intros Hnd. rewrite upsert_keys. destruct (decide (key ∈ m.*1)); [exact Hnd|].
  apply NoDup_app. split_and!; [exact Hnd | | apply NoDup_singleton].
  intros x Hx Hx'%list_elem_of_singleton. congruence.
Qed.

Lemma mapGet_elem_of (key : K) (v : V) (m : list (K * V)) :
  NoDup m.*1 → (key, v) ∈ m ↔ mapGet key m = Some v.
Proof.
  induction m as [|[k w] m IH]; simpl; intros Hnd.
  - split; [intros Hin; apply elem_of_nil in Hin; contradiction | discriminate].
  - apply NoDup_cons in Hnd as [Hk Hnd].
    destruct (decide (k = key)) as [->|Hne].
    + split.
      * intros [Heq|Hin]%elem_of_cons; [congruence|].
        exfalso. apply Hk. apply list_elem_of_fmap. exists (key, v). auto.
      * intros [= ->]. left.
    + rewrite <- (IH Hnd). split.
      * intros [Heq|Hin]%elem_of_cons; [congruence | exact Hin].
      * intros Hin. right. exact Hin.
Qed.

Lemma mapGet_keys (key : K) (m : list (K * V)) :
  key ∈ m.*1 ↔ is_Some (mapGet key m).
Proof.
  induction m as [|[k w] m IH]; simpl.
  - split; [intros Hin; apply elem_of_nil in Hin; contradiction | intros [? ?]; discriminate].
  - destruct (decide (k = key)) as [->|Hne].
    + split; [intros _; eexists; reflexivity | intros _; left].
    + rewrite <- IH. split.
      * intros [Heq|Hin]%elem_of_cons; [congruence | exact Hin].
      * intros Hin. right. exact Hin.
Qed.

End MapLemmas.

(** An array updated at distinct positions. *)
Lemma foldl_alter_lookup {A : Type} (g : A → A) (idxs : list nat) (s : list A)
    (j : nat) :
  NoDup idxs →
  foldl (λ s' i, alter g i s') s idxs !! j =
  if decide (j ∈ idxs) then g <$> s !! j else s !! j.
Proof.
  revert s. induction idxs as [|i idxs IH]; intros s Hnd.
  - cbn [foldl]. destruct (decide (j ∈ ([] : list nat))) as [Hin|_];
      [apply elem_of_nil in Hin; contradiction | reflexivity].
  - apply NoDup_cons in Hnd as [Hi Hnd]. cbn [foldl]. rewrite (IH _ Hnd).
    destruct (decide (j = i)) as [->|Hne].
    + rewrite decide_False by exact Hi. rewrite decide_True by left.
      apply list_lookup_alter_eq.
    + rewrite list_lookup_alter_ne by congruence.
      destruct (decide (j ∈ idxs)) as [Hin|Hin].
      * rewrite decide_True by (right; exact Hin). reflexivity.
      * rewrite decide_False; [reflexivity|].
        intros [Heq|Hin']%elem_of_cons; contradiction.
Qed.

Lemma foldl_alter_length {A : Type} (g : A → A) (idxs : list nat) (s : list A) :
  length (foldl (λ s' i, alter g i s') s idxs) = length s.
Proof.
  revert s. induction idxs as [|i idxs IH]; intros s; [reflexivity|].
  simpl. rewrite IH. apply length_alter.
Qed.

(** ** Pixel buffers *)

Record ImageData := mkImageData {
  data : list Z;
  width : nat;
  height : nat
}.

(** [data[idx] < 128]: the sample is ink.  [undefined < 128] is false. *)
Definition isDark (d : list Z) (idx : nat) : bool :=
  match d !! idx with
  | Some v => bool_decide (v < 128)
  | None => false
  end.

(** [data[idx] >= 128]: the sample is paper.  [undefined >= 128] is false. *)
Definition isLight (d : list Z) (idx : nat) : bool :=
  match d !! idx with
  | Some v => bool_decide (128 ≤ v)
  | None => false
  end.

(** ** JS numbers

    A number is a finite value, an infinity or [NaN].  Finite values are
    exact rationals: rounding, overflow and the sign of zero are not
    modelled (a zero divisor counts as [+0]). *)

Inductive num := Fin (q : Q) | PInf | NInf | NaN.

Definition ofZ (z : Z) : num := Fin (inject_Z z).

(** A read [a[i]] of a number array: [undefined] becomes [NaN] in
    arithmetic. *)
Definition numAt (a : list num) (i : nat) : num := default NaN (a !! i).

Definition nneg (a : num) : num :=
  match a with
  | Fin q => Fin (- q)
  | PInf => NInf
  | NInf => PInf
  | NaN => NaN
  end.

Definition nadd (a b : num) : num :=
  match a, b with
  | NaN, _ | _, NaN => NaN
  | Fin x, Fin y => Fin (x + y)
  | PInf, NInf | NInf, PInf => NaN
  | PInf, _ | _, PInf => PInf
  | NInf, _ | _, NInf => NInf
  end.

Definition nsub (a b : num) : num := nadd a (nneg b).

(** The sign of a rational: 1, 0 or -1. *)
Definition Qsign (q : Q) : Z := Z.sgn (Qnum q).

(** An infinity of the given sign, [NaN] for sign 0. *)
Definition infOf (s : Z) : num :=
  match s with
  | Zpos _ => PInf
  | Zneg _ => NInf
  | Z0 => NaN
  end.

Definition nmul (a b : num) : num :=
  match a, b with
  | NaN, _ | _, NaN => NaN
  | Fin x, Fin y => Fin (x * y)
  | Fin x, PInf | PInf, Fin x => infOf (Qsign x)
  | Fin x, NInf | NInf, Fin x => infOf (- Qsign x)
  | PInf, PInf | NInf, NInf => PInf
  | PInf, NInf | NInf, PInf => NInf
  end.

Definition ndiv (a b : num) : num :=
  match a, b with
  | NaN, _ | _, NaN => NaN
  | Fin x, Fin y =>
      if Qeq_bool y 0 then infOf (Qsign x) else Fin (x / y)
  | Fin _, (PInf | NInf) => Fin 0
  | PInf, Fin y => if Qeq_bool y 0 then PInf else infOf (Qsign y)
  | NInf, Fin y => if Qeq_bool y 0 then NInf else infOf (- Qsign y)
  | (PInf | NInf), (PInf | NInf) => NaN
  end.

(** [a < b]; false when either is [NaN]. *)
Definition nlt (a b : num) : bool :=
  match a, b with
  | NaN, _ | _, NaN => false
  | Fin x, Fin y => if Qlt_le_dec x y then true else false
  | NInf, (Fin _ | PInf) => true
  | Fin _, PInf => true
  | _, _ => false
  end.

(** [a <= b]; false when either is [NaN]. *)
Definition nle (a b : num) : bool :=
  match a, b with
  | NaN, _ | _, NaN => false
  | Fin x, Fin y => Qle_bool x y
  | NInf, _ => true
  | _, PInf => true
  | _, _ => false
  end.

Definition ngt (a b : num) : bool := nlt b a.

(** [a || 0]: [NaN] (like 0) is falsy. *)
Definition orZero (a : num) : num :=
  match a with
  | NaN => Fin 0
  | other => other
  end.

(** [Math.min(a, b)] and [Math.max(a, b)]: [NaN] when either is. *)
Definition nmin (a b : num) : num :=
  match a, b with
  | NaN, _ | _, NaN => NaN
  | _, _ => if nle a b then a else b
  end.

Definition nmax (a b : num) : num :=
  match a, b with
  | NaN, _ | _, NaN => NaN
  | _, _ => if nle a b then b else a
  end.

(** [Math.floor]. *)
Definition nfloor (a : num) : num :=
  match a with
  | Fin q => ofZ (Qfloor q)
  | other => other
  end.

(** [a % m] for an integer-valued [a] and a positive integer [m]: the
    remainder has the sign of [a].  [NaN] for an infinity or [NaN]. *)
Definition nrem (a : num) (m : Z) : option Z :=
  match a with
  | Fin q => Some (Z.rem (Qfloor q) m)
  | _ => None
  end.

Section HostMath.

(** [Math.sqrt] on the finite non-negative numbers; the host's. *)
Variable Math_sqrt : Q → Q.

Definition nsqrt (a : num) : num :=
  match a with
  | Fin q => if Qlt_le_dec q 0 then NaN else Fin (Math_sqrt q)
  | PInf => PInf
  | NInf => NaN
  | NaN => NaN
  end.

End HostMath.

(** [Math.PI]. *)
Definition Math_PI : Q := 3.141592653589793%Q.

(** ** The order of numbers *)

Lemma num_lt_irrefl (a : num) : nlt a a = false.
Proof.
  destruct a as [q| | |]; try reflexivity. cbn.
  destruct (Qlt_le_dec q q) as [H|_]; [|reflexivity].
  exfalso. exact (Qlt_irrefl _ H).
Qed.

Lemma num_lt_trans (a b c : num) :
  nlt a b = true → nlt b c = true → nlt a c = true.
Proof.
  destruct a as [x| | |], b as [y| | |], c as [z| | |]; cbn;
    try discriminate; try reflexivity.
  destruct (Qlt_le_dec x y) as [Hxy|]; [|discriminate].
  destruct (Qlt_le_dec y z) as [Hyz|]; [|discriminate].
  destruct (Qlt_le_dec x z) as [|Hzx]; [reflexivity|].
  exfalso. lra.
Qed.

(** A number not above [a] is not at or above a number above [a]. *)
Lemma num_lt_le_false (a x y : num) :
  nlt a x = true → nlt a y = false → nle x y = false.
Proof.
  destruct a as [p| | |], x as [q| | |], y as [r| | |]; cbn;
    try discriminate; try reflexivity.
  destruct (Qlt_le_dec p q) as [Hpq|]; [|discriminate].
  destruct (Qlt_le_dec p r) as [|Hrp]; [discriminate|]. intros _ _.
  destruct (Qle_bool q r) eqn:E; [|reflexivity].
  apply Qle_bool_iff in E. exfalso. lra.
Qed.

Lemma num_le_lt_false (x y : num) : nle x y = false → nlt x y = false.
Proof.
  destruct x as [q| | |], y as [r| | |]; cbn; try discriminate; try reflexivity.
  intros E. destruct (Qlt_le_dec q r) as [Hlt|]; [|reflexivity].
  exfalso. apply Qlt_le_weak, Qle_bool_iff in Hlt. congruence.
Qed.

(** ** IEEE binary64 arithmetic

    The doubles of the host, as the kernel's primitive floats, whose
    operations round to nearest, ties to even.  [ofInt] is the double
    nearest to an integer, the value of the integer as a JS number (exact
    below [2^53]); [value] is the number a double denotes. *)

Module Float64.

Definition ofInt (z : Z) : PrimFloat.float :=
  FloatOps.SF2Prim
    (SpecFloat.binary_normalize FloatOps.prec FloatOps.emax z 0 false).

Definition value (x : PrimFloat.float) : num :=
  match FloatOps.Prim2SF x with
  | SpecFloat.S754_zero _ => Fin 0
  | SpecFloat.S754_infinity false => PInf
  | SpecFloat.S754_infinity true => NInf
  | SpecFloat.S754_nan => NaN
  | SpecFloat.S754_finite s m e =>
      let mantissa := if s then Zneg m else Zpos m in
      Fin (if e <? 0 then Qmake mantissa (2 ^ Z.to_pos (- e))
           else inject_Z (mantissa * 2 ^ e))
  end.

End Float64.


(** ** CharSegmentation.calculateProjection *)

Module CharSegmentation.

Record ProjectionProfile := mkProjectionProfile {
  horizontal : list Z;
  vertical : list Z
}.

(** Body of the inner loop: [if (data[idx] < 128) { horizontal[y]++; vertical[x]++; }]. *)
Definition projectionStep (img : ImageData) (y : nat)
    (st : list Z * list Z) (x : nat) : list Z * list Z :=
  let idx := ((y * width img + x) * 4)%nat in
  if isDark (data img) idx
  then (alter Z.succ y st.1, alter Z.succ x st.2)
  else st.

Definition projectionRow (img : ImageData) (st : list Z * list Z) (y : nat)
    : list Z * list Z :=
  foldl (projectionStep img y) st (seq 0 (width img)).

Definition calculateProjection (img : ImageData) : ProjectionProfile :=
  let st := foldl (projectionRow img)
                  (replicate (height img) 0, replicate (width img) 0)
                  (seq 0 (height img)) in
  {| horizontal := st.1; vertical := st.2 |}.

(** The foreground pixels of the buffer: pixel [p] of the [width * height]
    pixels is foreground when the first sample of its RGBA quadruple is
    below 128. *)
Definition foregroundCount (img : ImageData) : Z :=
  Z.of_nat (length (filter (λ p, isDark (data img) (p * 4) = true)
                           (seq 0 (height img * width img)))).

(** Foreground pixels among the first [x] pixels of row [y]. *)
Definition rowPrefixCount (img : ImageData) (y x : nat) : Z :=
  Z.of_nat (length (filter (λ p, isDark (data img) (p * 4) = true)
                           (seq (y * width img) x))).

Lemma rowPrefixCount_S img y x :
  rowPrefixCount img y (S x) =
  rowPrefixCount img y x +
  (if isDark (data img) ((y * width img + x) * 4) then 1 else 0).
Proof.
  unfold rowPrefixCount. rewrite seq_S, filter_app, length_app.
  simpl. rewrite filter_cons, filter_nil.
  destruct (isDark _ _) eqn:E.
  - rewrite decide_True by reflexivity. simpl. lia.
  - rewrite decide_False by discriminate. simpl. lia.
Qed.

(** Foreground pixels of the first [y] rows. *)
Definition rowsCount (img : ImageData) (y : nat) : Z :=
  Z.of_nat (length (filter (λ p, isDark (data img) (p * 4) = true)
                           (seq 0 (y * width img)))).

Lemma rowsCount_S img y :
  rowsCount img (S y) = rowsCount img y + rowPrefixCount img y (width img).
Proof.
  unfold rowsCount, rowPrefixCount.
  replace (S y * width img)%nat with (y * width img + width img)%nat by lia.
  rewrite seq_app, filter_app, length_app. simpl. lia.
Qed.

(** Loop invariant of [calculateProjection]: both arrays keep their length
    and both sums equal the number of foreground pixels visited so far. *)
Definition projInv (img : ImageData) (c : Z) (st : list Z * list Z) : Prop :=
  length st.1 = height img ∧ length st.2 = width img ∧
  sumZ st.1 = c ∧ sumZ st.2 = c.

Lemma projectionRow_inv img y st :
  (y < height img)%nat →
  projInv img (rowsCount img y) st →
  projInv img (rowsCount img (S y)) (projectionRow img st y).
Proof.
  intros Hy Hst. unfold projectionRow. rewrite rowsCount_S.
  apply (foldl_seq_invariant
           (λ x s, projInv img (rowsCount img y + rowPrefixCount img y x) s)).
  - unfold rowPrefixCount. simpl. rewrite Z.add_0_r. exact Hst.
  - intros x [hz vt] Hx (Hl1 & Hl2 & Hs1 & Hs2). simpl in *.
    rewrite rowPrefixCount_S. unfold projectionStep. simpl.
    destruct (isDark _ _); unfold projInv; simpl.
    + rewrite !length_alter, !sumZ_alter_succ by lia. repeat split; lia.
    + repeat split; lia.
Qed.

(** C7.  For every buffer, the sum of the horizontal projection equals the
    sum of the vertical projection, and both equal the number of foreground
    pixels of the buffer. *)
Theorem calculateProjection_sums (img : ImageData) :
  sumZ (horizontal (calculateProjection img)) = foregroundCount img ∧
  sumZ (vertical (calculateProjection img)) = foregroundCount img ∧
  sumZ (horizontal (calculateProjection img)) =
  sumZ (vertical (calculateProjection img)) ∧
  length (horizontal (calculateProjection img)) = height img ∧
  length (vertical (calculateProjection img)) = width img.
Proof.
  assert (H : projInv img (rowsCount img (height img))
                (foldl (projectionRow img)
                   (replicate (height img) 0, replicate (width img) 0)
                   (seq 0 (height img)))).
  { apply (foldl_seq_invariant (λ y s, projInv img (rowsCount img y) s)).
    - unfold projInv, rowsCount. simpl.
      rewrite !length_replicate, !sumZ_replicate_0. auto.
    - intros y s Hy. apply projectionRow_inv. exact Hy. }
  destruct H as (Hl1 & Hl2 & Hs1 & Hs2).
  unfold calculateProjection, foregroundCount. simpl.
  unfold rowsCount in *. repeat split; congruence.
Qed.

(** ** CharSegmentation.findRanges *)

Record Range := mkRange { start : nat; end_ : nat }.

(** The inner loop
    [for (j = i; j < projection.length && projection[j] === 0; j++) gapSize++]
    counts the zeros from the front of the rest of the array. *)
Fixpoint zeroRun (rest : list Z) : nat :=
  match rest with
  | v :: rest' => if bool_decide (v = 0) then S (zeroRun rest') else O
  | [] => O
  end.

Definition gapSize (projection : list Z) (i : nat) : nat :=
  zeroRun (drop i projection).

(** The loop state: [ranges], [inRange], [start]. *)
Record RangeScan := mkRangeScan {
  ranges : list Range;
  inRange : bool;
  scanStart : nat
}.

Definition findRangesStep (projection : list Z) (minGap : Z)
    (st : RangeScan) (i : nat) : RangeScan :=
  match projection !! i with
  | None => st
  | Some v =>
    if bool_decide (v > 0) then
      if inRange st then st
      else {| ranges := ranges st; inRange := true; scanStart := i |}
    else
      if inRange st then
        if bool_decide (minGap ≤ Z.of_nat (gapSize projection i))
           || bool_decide (Z.of_nat i = Z.of_nat (length projection) - 1)
        then {| ranges := ranges st ++ [mkRange (scanStart st) i];
                inRange := false; scanStart := scanStart st |}
        else st
      else st
  end.

Definition findRangesLoop (projection : list Z) (minGap : Z) (n : nat)
    : RangeScan :=
  foldl (findRangesStep projection minGap)
        {| ranges := []; inRange := false; scanStart := 0 |} (seq 0 n).

Definition findRanges (projection : list Z) (minGap : Z) : list Range :=
  let st := findRangesLoop projection minGap (length projection) in
  if inRange st
  then ranges st ++ [mkRange (scanStart st) (length projection)]
  else ranges st.

Example findRanges_spec_histogram :
  findRanges [0; 0; 3; 4; 0; 0; 0; 5; 2; 0] 1 = [mkRange 2 4; mkRange 7 9].
Proof. reflexivity. Qed.

(** A trailing run of zeros shorter than [minGap] is closed at the last
    index, one before the array end. *)
Example findRanges_short_trailing_gap :
  findRanges [1; 0; 0] 5 = [mkRange 0 2].
Proof. reflexivity. Qed.

(** Index [j] lies in one of the ranges. *)
Definition covered (rs : list Range) (j : nat) : Prop :=
  ∃ r, r ∈ rs ∧ (start r ≤ j < end_ r)%nat.

(** Invariant of the scan after [i] entries: every positive entry before [i]
    lies in a closed range or in the open one; closed ranges end at or
    before [i]. *)
Definition scanInv (projection : list Z) (i : nat) (st : RangeScan) : Prop :=
  (scanStart st ≤ i)%nat ∧
  (∀ r, r ∈ ranges st → (start r < end_ r ≤ i)%nat) ∧
  (∀ j v, (j < i)%nat → projection !! j = Some v → v > 0 →
     covered (ranges st) j ∨ (inRange st = true ∧ (scanStart st ≤ j)%nat)) ∧
  (inRange st = true → (scanStart st < i)%nat).

Lemma covered_snoc rs r j :
  covered rs j ∨ (start r ≤ j < end_ r)%nat → covered (rs ++ [r]) j.
Proof.
  intros [(r' & Hin & Hr') | Hr].
  - exists r'. split; [apply elem_of_app; left; exact Hin | exact Hr'].
  - exists r. split; [apply elem_of_app; right; apply list_elem_of_singleton; reflexivity | exact Hr].
Qed.

Lemma findRangesStep_inv projection minGap i st :
  (i < length projection)%nat →
  scanInv projection i st →
  scanInv projection (S i) (findRangesStep projection minGap st i).
Proof.
  intros Hi (Hs & Hr & Hc & Ho). unfold findRangesStep.
  destruct (projection !! i) as [v|] eqn:Hv.
  2:{ apply lookup_ge_None in Hv. lia. }
  assert (Hkeep : ∀ j w, (j < S i)%nat → projection !! j = Some w → w > 0 →
            (j < i)%nat ∨ (j = i ∧ v > 0)).
  { intros j w Hj Hw Hpos. destruct (decide (j = i)) as [->|]; [|left; lia].
    right. split; [reflexivity|]. congruence. }
  assert (Hr' : ∀ r, r ∈ ranges st → (start r < end_ r ≤ S i)%nat).
  { intros r Hrin. specialize (Hr r Hrin). lia. }
  case_bool_decide as Hpos.
  - destruct (inRange st) eqn:Hin.
    + specialize (Ho eq_refl). unfold scanInv. rewrite Hin. split_and!; [lia | exact Hr' | | lia].
      intros j w Hj Hw Hwpos.
      destruct (Hkeep j w Hj Hw Hwpos) as [Hlt | [-> _]].
      * apply (Hc j w Hlt Hw Hwpos).
      * right. split; [reflexivity | lia].
    + unfold scanInv. simpl. split_and!; [lia | exact Hr' | | lia].
      intros j w Hj Hw Hwpos.
      destruct (Hkeep j w Hj Hw Hwpos) as [Hlt | [-> _]].
      * destruct (Hc j w Hlt Hw Hwpos) as [?|[? ?]]; [left; assumption | congruence].
      * right. split; [reflexivity | lia].
  - assert (Hold : ∀ j w, (j < S i)%nat → projection !! j = Some w → w > 0 → (j < i)%nat).
    { intros j w Hj Hw Hwpos.
      destruct (Hkeep j w Hj Hw Hwpos) as [?|[_ ?]]; [assumption | contradiction]. }
    destruct (inRange st) eqn:Hin.
    + specialize (Ho eq_refl). destruct (_ || _).
      * unfold scanInv. simpl. split_and!; [lia | | | discriminate].
        -- intros r [Hrin | Hrin]%elem_of_app; [apply Hr'; exact Hrin|].
           apply list_elem_of_singleton in Hrin. subst r. simpl. lia.
        -- intros j w Hj Hw Hwpos. specialize (Hold j w Hj Hw Hwpos).
           left. apply covered_snoc. simpl.
           destruct (Hc j w Hold Hw Hwpos) as [?|[_ ?]]; [left; assumption | right; lia].
      * unfold scanInv. rewrite Hin. split_and!; [lia | exact Hr' | | lia].
        intros j w Hj Hw Hwpos. apply (Hc j w (Hold j w Hj Hw Hwpos) Hw Hwpos).
    + unfold scanInv. rewrite Hin. split_and!; [lia | exact Hr' | | discriminate].
      intros j w Hj Hw Hwpos. apply (Hc j w (Hold j w Hj Hw Hwpos) Hw Hwpos).
Qed.

Lemma findRangesLoop_inv projection minGap n :
  (n ≤ length projection)%nat →
  scanInv projection n (findRangesLoop projection minGap n).
Proof.
  intros Hn. unfold findRangesLoop.
  apply (foldl_seq_invariant (scanInv projection)).
  - unfold scanInv. simpl. split_and!; [lia | | | discriminate].
    + intros r Hr. apply elem_of_nil in Hr. contradiction.
    + intros j v Hj. lia.
  - intros i s Hi. apply findRangesStep_inv. lia.
Qed.

(** C8.  On the histogram of the specification with [minGap = 1] the scan
    returns exactly the ranges [2,4) and [7,9).  For every histogram and
    every [minGap]: when the array ends inside a range (its last entry is
    positive) the last range returned ends at the array end; and every
    positive entry lies in a returned range, so no opened range is left
    unclosed. *)
Theorem findRanges_closes_ranges :
  findRanges [0; 0; 3; 4; 0; 0; 0; 5; 2; 0] 1 = [mkRange 2 4; mkRange 7 9] ∧
  (∀ (projection : list Z) (last : Z) (minGap : Z),
     last > 0 →
     ∃ rs s, findRanges (projection ++ [last]) minGap =
             rs ++ [mkRange s (length (projection ++ [last]))] ∧
             (s ≤ length projection)%nat) ∧
  (∀ (projection : list Z) (minGap : Z) (j : nat) (v : Z),
     projection !! j = Some v → v > 0 →
     covered (findRanges projection minGap) j).
Proof.
  split; [reflexivity|]. split.
  - intros projection last minGap Hlast.
    set (p := projection ++ [last]).
    assert (Hlen : length p = S (length projection)).
    { unfold p. rewrite length_app. simpl. lia. }
    unfold findRanges. rewrite !Hlen.
    unfold findRangesLoop. rewrite seq_S, foldl_app. simpl.
    fold (findRangesLoop p minGap (length projection)).
    pose proof (findRangesLoop_inv p minGap (length projection) ltac:(lia))
      as (Hs & _ & _ & Ho).
    set (st := findRangesLoop p minGap (length projection)) in *.
    unfold findRangesStep.
    replace (p !! length projection) with (Some last).
    2:{ unfold p. rewrite lookup_app_r by lia. rewrite Nat.sub_diag. reflexivity. }
    rewrite bool_decide_eq_true_2 by exact Hlast.
    destruct (inRange st) eqn:Hin.
    + rewrite Hin. exists (ranges st), (scanStart st). split; [reflexivity | exact Hs].
    + simpl. exists (ranges st), (length projection). split; [reflexivity | lia].
  - intros projection minGap j v Hj Hv.
    pose proof (findRangesLoop_inv projection minGap (length projection) ltac:(lia))
      as (Hs & Hr & Hc & Ho).
    assert (Hlt : (j < length projection)%nat) by (eapply lookup_lt_Some; exact Hj).
    unfold findRanges.
    destruct (Hc j v Hlt Hj Hv) as [Hcov | [Hin Hle]].
    + destruct (inRange _); [apply covered_snoc; left|]; exact Hcov.
    + rewrite Hin. apply covered_snoc. right. simpl. lia.
Qed.

(** The first, concrete part stands alone; the two general parts at an
    input: the histogram [[0; 2; 0; 0; 7]] ends inside a range. *)
Lemma findRanges_closes_ranges_witness :
  (∃ rs s, findRanges ([0; 2; 0; 0] ++ [7]) 1 =
           rs ++ [mkRange s (length ([0; 2; 0; 0] ++ [7]))] ∧ (s ≤ 4)%nat) ∧
  covered (findRanges [0; 2; 0; 0; 7] 1) 1.
Proof.
  destruct findRanges_closes_ranges as (_ & Htrail & Hcov). split.
  - apply (Htrail [0; 2; 0; 0] 7 1). lia.
  - apply (Hcov [0; 2; 0; 0; 7] 1 1%nat 2); [reflexivity | lia].
Defined.

(** ** CharSegmentation.binarize and CharSegmentation.otsuBinarize *)

(** The weights [0.299], [0.587] and [0.114]: the doubles nearest to the
    decimals. *)
Module Weight.
Import PrimFloat.
#[warnings="-inexact-float"] Definition red : float := 0.299%float.
#[warnings="-inexact-float"] Definition green : float := 0.587%float.
#[warnings="-inexact-float"] Definition blue : float := 0.114%float.
End Weight.

(** [0.299 * R + 0.587 * G + 0.114 * B] in doubles. *)
Definition lumaDouble (r g b : Z) : PrimFloat.float :=
  PrimFloat.add
    (PrimFloat.add (PrimFloat.mul Weight.red (Float64.ofInt r))
                   (PrimFloat.mul Weight.green (Float64.ofInt g)))
    (PrimFloat.mul Weight.blue (Float64.ofInt b)).

Definition luma (r g b : Z) : num := Float64.value (lumaDouble r g b).

(** [Math.round]: the nearest integer, halves upwards. *)
Definition Math_round (x : Q) : Z := Qfloor (x + 0.5)%Q.

(** The sample written for the pixel whose quadruple starts at [i]:
    [gray < threshold ? 0 : 255].  With a missing sample [gray] is [NaN] and
    the comparison is false. *)
Definition binarizeValue (d : list Z) (threshold : Q) (i : nat) : Z :=
  match d !! i, d !! (i + 1)%nat, d !! (i + 2)%nat with
  | Some r, Some g, Some b =>
      if nlt (luma r g b) (Fin threshold) then 0 else 255
  | _, _, _ => 255
  end.

(** One turn of [for (let i = 0; i < data.length; i += 4)], the [k]-th.
    A write past the end of a typed array is ignored, as is stdpp's
    insert. *)
Definition binarizeStep (d : list Z) (threshold : Q)
    (out : list Z) (k : nat) : list Z :=
  let i := (4 * k)%nat in
  let value := binarizeValue d threshold i in
  <[(i + 3)%nat := 255]>
    (<[(i + 2)%nat := value]> (<[(i + 1)%nat := value]> (<[i := value]> out))).

Definition binarize (img : ImageData) (threshold : Q) : ImageData :=
  let d := data img in
  {| data := foldl (binarizeStep d threshold) (replicate (length d) 0)
                   (seq 0 ((length d + 3) / 4));
     width := width img;
     height := height img |}.

(** [grayData[j]]: the rounded luma of pixel [j], stored in a [Uint8Array]
    (so reduced modulo 256; [NaN] and the infinities are stored as 0). *)
Definition grayAt (d : list Z) (j : nat) : nat :=
  match d !! (4 * j)%nat, d !! (4 * j + 1)%nat, d !! (4 * j + 2)%nat with
  | Some r, Some g, Some b =>
      match luma r g b with
      | Fin q => Z.to_nat (Math_round q mod 256)
      | _ => 0%nat
      end
  | _, _, _ => 0%nat
  end.

(** [grayData], of length [data.length / 4] (an [ImageData] holds whole
    quadruples). *)
Definition grayData (d : list Z) : list nat :=
  map (grayAt d) (seq 0 (length d / 4)).

(** [histogram[grayData[i]]++] over a fresh [new Array(256).fill(0)]. *)
Definition buildHistogram (gray : list nat) : list Z :=
  foldl (λ h g, alter Z.succ g h) (replicate 256 0) gray.

(** [histogram[i]] for an index of the histogram. *)
Definition histAt (h : list Z) (i : nat) : Z := default 0 (h !! i).

(** [w += histogram[i]; sum += i * histogram[i]] for [i] from [from],
    [n] times. *)
Definition classStats (h : list Z) (from n : nat) : Z * Z :=
  foldl (λ ws i, (ws.1 + histAt h i, ws.2 + Z.of_nat i * histAt h i))
        (0, 0) (seq from n).

(** [w0 * w1 * (mean0 - mean1) * (mean0 - mean1) / (total * total)] with
    [mean0 = sum0 / w0] and [mean1 = sum1 / w1], in doubles and in the
    source's order of evaluation. *)
Definition varianceDouble (w0 w1 sum0 sum1 total : Z) : PrimFloat.float :=
  let mean0 := PrimFloat.div (Float64.ofInt sum0) (Float64.ofInt w0) in
  let mean1 := PrimFloat.div (Float64.ofInt sum1) (Float64.ofInt w1) in
  PrimFloat.div
    (PrimFloat.mul
       (PrimFloat.mul (PrimFloat.mul (Float64.ofInt w0) (Float64.ofInt w1))
                      (PrimFloat.sub mean0 mean1))
       (PrimFloat.sub mean0 mean1))
    (PrimFloat.mul (Float64.ofInt total) (Float64.ofInt total)).

(** The variance as the source computes it. *)
Definition otsuVariance (w0 w1 sum0 sum1 total : Z) : num :=
  Float64.value (varianceDouble w0 w1 sum0 sum1 total).

(** Body of [for (let t = 0; t < 256; t++)]; the state is
    [(maxVariance, optimalThreshold)]. *)
Definition otsuStep (h : list Z) (total : Z) (st : num * nat) (t : nat) :
    num * nat :=
  let ws0 := classStats h 0 (S t) in
  let ws1 := classStats h (S t) (255 - t) in
  if bool_decide (ws0.1 = 0) || bool_decide (ws1.1 = 0) then st
  else
    let variance := otsuVariance ws0.1 ws1.1 ws0.2 ws1.2 total in
    if nlt st.1 variance then (variance, t) else st.

Definition otsuLoop (gray : list nat) (n : nat) : num * nat :=
  foldl (otsuStep (buildHistogram gray) (Z.of_nat (length gray)))
        (Fin 0, 128%nat) (seq 0 n).

Definition otsuThreshold (img : ImageData) : nat :=
  (otsuLoop (grayData (data img)) 256).2.

Definition otsuBinarize (img : ImageData) : ImageData :=
  binarize img (inject_Z (Z.of_nat (otsuThreshold img))).

(** *** The two classes of a threshold over the pixel population *)

(** Number and luma sum of the pixels whose luma is at most [t] (class 0)
    and above [t] (class 1). *)
Definition lowCount (gray : list nat) (t : nat) : Z :=
  Z.of_nat (length (filter (λ g, (g ≤ t)%nat) gray)).
Definition highCount (gray : list nat) (t : nat) : Z :=
  Z.of_nat (length (filter (λ g, (t < g)%nat) gray)).
Definition lowSum (gray : list nat) (t : nat) : Z :=
  sumZ (Z.of_nat <$> filter (λ g, (g ≤ t)%nat) gray).
Definition highSum (gray : list nat) (t : nat) : Z :=
  sumZ (Z.of_nat <$> filter (λ g, (t < g)%nat) gray).

(** The exact between-class variance [w0 * w1 * (mean0 - mean1)^2] of
    threshold [t], a rational. *)
Definition betweenClassVariance (gray : list nat) (t : nat) : Q :=
  let w0 := inject_Z (lowCount gray t) in
  let w1 := inject_Z (highCount gray t) in
  let mean0 := (inject_Z (lowSum gray t) / w0)%Q in
  let mean1 := (inject_Z (highSum gray t) / w1)%Q in
  (w0 * w1 * (mean0 - mean1) ^ 2)%Q.

(** A threshold is a candidate when neither class is empty. *)
Definition candidate (gray : list nat) (t : nat) : Prop :=
  (t < 256)%nat ∧ lowCount gray t ≠ 0 ∧ highCount gray t ≠ 0.

Example otsu_two_peaks :
  otsuThreshold (mkImageData [10; 10; 10; 255; 12; 12; 12; 255;
                              200; 200; 200; 255; 204; 204; 204; 255] 2 2) = 12%nat.
Proof. vm_compute. reflexivity. Qed.

Example otsu_flat_image :
  otsuThreshold (mkImageData [7; 7; 7; 255; 7; 7; 7; 255] 2 1) = 128%nat.
Proof. vm_compute. reflexivity. Qed.

(** *** The histogram sums are the class statistics *)

(** Number and sum of the lumas in [[from, from + n)]. *)
Definition rangeStats (gray : list nat) (from n : nat) : Z * Z :=
  let sel := filter (λ g, (from ≤ g < from + n)%nat) gray in
  (Z.of_nat (length sel), sumZ (Z.of_nat <$> sel)).

Lemma filter_ext_Forall {A} (P Q : A → Prop) `{∀ x, Decision (P x)}
    `{∀ x, Decision (Q x)} (R : A → Prop) (l : list A) :
  Forall R l → (∀ x, R x → (P x ↔ Q x)) → filter P l = filter Q l.
Proof.
  intros Hl HPQ. induction Hl as [|x l Hx Hl IH]; [reflexivity|].
  rewrite !filter_cons, IH.
  destruct (decide (P x)) as [HP|HP], (decide (Q x)) as [HQ|HQ];
    try reflexivity; exfalso; apply (HPQ x Hx) in HP || apply (HPQ x Hx) in HQ;
    contradiction.
Qed.

Lemma histAt_alter h g i :
  (g < length h)%nat →
  histAt (alter Z.succ g h) i = histAt h i + (if decide (g = i) then 1 else 0).
Proof.
  intros Hg. unfold histAt. rewrite list_lookup_alter.
  destruct (decide (g = i)) as [->|]; [|lia].
  destruct (lookup_lt_is_Some_2 h i Hg) as [v ->]. simpl. lia.
Qed.

Lemma classStats_alter h g from n :
  (g < length h)%nat →
  classStats (alter Z.succ g h) from n =
  if decide (from ≤ g < from + n)%nat
  then ((classStats h from n).1 + 1, (classStats h from n).2 + Z.of_nat g)
  else classStats h from n.
Proof.
  intros Hg. induction n as [|n IH].
  - unfold classStats. simpl. rewrite decide_False by lia. reflexivity.
  - unfold classStats in *. rewrite seq_S, !foldl_app. simpl.
    rewrite IH, histAt_alter by exact Hg.
    destruct (foldl _ _ _) as [w s].
    destruct (decide (g = (from + n)%nat)) as [->|Hne].
    + rewrite decide_False by lia. rewrite decide_True by lia. simpl.
      f_equal; lia.
    + destruct (decide (from ≤ g < from + n)%nat).
      * rewrite decide_True by lia. simpl. f_equal; lia.
      * rewrite decide_False by lia. simpl. f_equal; lia.
Qed.

Lemma buildHistogram_snoc gray g :
  buildHistogram (gray ++ [g]) = alter Z.succ g (buildHistogram gray).
Proof. unfold buildHistogram. rewrite foldl_app. reflexivity. Qed.

Lemma buildHistogram_length gray : length (buildHistogram gray) = 256%nat.
Proof.
  induction gray as [|g gray IH] using rev_ind; [reflexivity|].
  rewrite buildHistogram_snoc, length_alter. exact IH.
Qed.

Lemma histAt_replicate m i : histAt (replicate m 0) i = 0.
Proof.
  unfold histAt. destruct (replicate m 0 !! i) as [v|] eqn:E; [|reflexivity].
  apply lookup_replicate in E as [-> _]. reflexivity.
Qed.

Lemma classStats_zero m from n : classStats (replicate m 0) from n = (0, 0).
Proof.
  induction n as [|n IH]; [reflexivity|].
  unfold classStats in *. rewrite seq_S, foldl_app, IH.
  cbn [foldl fst snd]. rewrite histAt_replicate. f_equal; lia.
Qed.

Lemma classStats_buildHistogram gray from n :
  Forall (λ g, (g < 256)%nat) gray →
  classStats (buildHistogram gray) from n = rangeStats gray from n.
Proof.
  induction gray as [|g gray IH] using rev_ind; intros Hall.
  - apply classStats_zero.
  - apply Forall_app in Hall as [Hall Hg]. rewrite Forall_singleton in Hg.
    rewrite buildHistogram_snoc, classStats_alter
      by (rewrite buildHistogram_length; exact Hg).
    rewrite (IH Hall). unfold rangeStats.
    rewrite filter_app, filter_cons, filter_nil.
    destruct (decide (from ≤ g < from + n)%nat); simpl.
    + rewrite length_app, fmap_app, sumZ_app. simpl. f_equal; lia.
    + rewrite app_nil_r. reflexivity.
Qed.

Lemma grayData_bound d : Forall (λ g, (g < 256)%nat) (grayData d).
Proof.
  unfold grayData. apply Forall_forall. intros g Hg.
  apply list_elem_of_In, in_map_iff in Hg as (j & <- & _).
  unfold grayAt.
  destruct (d !! _); [|lia]. destruct (d !! _); [|lia]. destruct (d !! _); [|lia].
  destruct (luma _ _ _) as [q| | |]; [|lia..].
  pose proof (Z.mod_pos_bound (Math_round q) 256 ltac:(lia)). lia.
Qed.

Section OtsuClasses.
Variable gray : list nat.
Hypothesis gray_bound : Forall (λ g, (g < 256)%nat) gray.

Lemma low_stats t :
  classStats (buildHistogram gray) 0 (S t) = (lowCount gray t, lowSum gray t).
Proof.
  rewrite classStats_buildHistogram by exact gray_bound.
  unfold rangeStats, lowCount, lowSum.
  rewrite (list_filter_iff (λ g, (0 ≤ g < 0 + S t)%nat) (λ g, (g ≤ t)%nat))
    by (intros; lia).
  reflexivity.
Qed.

Lemma high_stats t :
  (t < 256)%nat →
  classStats (buildHistogram gray) (S t) (255 - t) =
  (highCount gray t, highSum gray t).
Proof.
  intros Ht. rewrite classStats_buildHistogram by exact gray_bound.
  unfold rangeStats, highCount, highSum.
  rewrite (filter_ext_Forall (λ g, (S t ≤ g < S t + (255 - t))%nat)
             (λ g, (t < g)%nat) _ gray gray_bound) by (intros; simpl in *; lia).
  reflexivity.
Qed.

Lemma counts_total t :
  lowCount gray t + highCount gray t = Z.of_nat (length gray).
Proof.
  unfold lowCount, highCount. clear gray_bound.
  induction gray as [|g l IH]; [reflexivity|].
  rewrite !filter_cons.
  destruct (decide (g ≤ t)%nat), (decide (t < g)%nat); simpl length; lia.
Qed.

Lemma lowSum_bound t : lowSum gray t ≤ Z.of_nat t * lowCount gray t.
Proof.
  unfold lowSum, lowCount. clear gray_bound.
  induction gray as [|g l IH]; [simpl; lia|].
  rewrite !filter_cons. destruct (decide (g ≤ t)%nat); [|exact IH].
  rewrite fmap_cons. unfold sumZ in *. simpl foldr. simpl length. lia.
Qed.

Lemma highSum_bound t : (Z.of_nat t + 1) * highCount gray t ≤ highSum gray t.
Proof.
  unfold highSum, highCount. clear gray_bound.
  induction gray as [|g l IH]; [simpl; lia|].
  rewrite !filter_cons. destruct (decide (t < g)%nat); [|exact IH].
  rewrite fmap_cons. unfold sumZ in *. simpl foldr. simpl length. lia.
Qed.

Lemma counts_nonneg t : 0 ≤ lowCount gray t ∧ 0 ≤ highCount gray t.
Proof. unfold lowCount, highCount. lia. Qed.
End OtsuClasses.

(** *** The selected threshold is the first maximum of the computed variance *)

Lemma inject_Z_pos (z : Z) : 0 < z → (0 < inject_Z z)%Q.
Proof. intros Hz. unfold Qlt. simpl. lia. Qed.

Section OtsuSelection.
Variable gray : list nat.
Hypothesis gray_bound : Forall (λ g, (g < 256)%nat) gray.

(** The variance the source computes at threshold [t], a double. *)
Definition codeVariance (t : nat) : num :=
  otsuVariance (lowCount gray t) (highCount gray t) (lowSum gray t)
    (highSum gray t) (Z.of_nat (length gray)).

Lemma otsuStep_candidate st t :
  candidate gray t →
  otsuStep (buildHistogram gray) (Z.of_nat (length gray)) st t =
  if nlt st.1 (codeVariance t) then (codeVariance t, t) else st.
Proof.
  intros (Ht & Hl & Hh). unfold otsuStep.
  rewrite (low_stats gray gray_bound), (high_stats gray gray_bound) by exact Ht.
  cbn [fst snd].
  rewrite !bool_decide_eq_false_2 by assumption. reflexivity.
Qed.

Lemma otsuStep_skip st t :
  (t < 256)%nat → ¬ candidate gray t →
  otsuStep (buildHistogram gray) (Z.of_nat (length gray)) st t = st.
Proof.
  intros Ht Hn. unfold otsuStep.
  rewrite (low_stats gray gray_bound), (high_stats gray gray_bound) by exact Ht.
  cbn [fst snd].
  destruct (decide (lowCount gray t = 0)) as [E|E].
  - rewrite (bool_decide_eq_true_2 _ E). reflexivity.
  - destruct (decide (highCount gray t = 0)) as [E'|E'].
    + rewrite (bool_decide_eq_true_2 _ E'), orb_true_r. reflexivity.
    + exfalso. apply Hn. repeat split; assumption.
Qed.

(** Invariant of the threshold loop after the thresholds below [n]: either
    no candidate had a variance computed above 0, or the state is the first
    candidate whose computed variance none of the others exceeds. *)
Definition otsuInv (n : nat) (st : num * nat) : Prop :=
  ((∀ t, (t < n)%nat → candidate gray t → nlt (Fin 0) (codeVariance t) = false)
   ∧ st = (Fin 0, 128%nat)) ∨
  ((st.2 < n)%nat ∧ candidate gray st.2 ∧ st.1 = codeVariance st.2 ∧
   nlt (Fin 0) st.1 = true ∧
   ∀ t, (t < n)%nat → candidate gray t →
     nlt st.1 (codeVariance t) = false ∧
     ((t < st.2)%nat → nle st.1 (codeVariance t) = false)).

Lemma candidate_dec t : {candidate gray t} + {¬ candidate gray t}.
Proof.
  unfold candidate.
  destruct (decide (t < 256)%nat); [|right; tauto].
  destruct (decide (lowCount gray t = 0)); [right; tauto|].
  destruct (decide (highCount gray t = 0)); [right; tauto|].
  left. tauto.
Qed.

Lemma otsuStep_inv n st :
  (n < 256)%nat → otsuInv n st →
  otsuInv (S n)
    (otsuStep (buildHistogram gray) (Z.of_nat (length gray)) st n).
Proof.
  intros Hn Hinv.
  destruct (candidate_dec n) as [Hc|Hc].
  - rewrite (otsuStep_candidate st n Hc).
    destruct (nlt st.1 (codeVariance n)) eqn:Hcmp.
    + right. cbn [fst snd].
      assert (Hpos : nlt (Fin 0) (codeVariance n) = true).
      { destruct Hinv as [[_ ->] | (_ & _ & _ & Hpos & _)]; [exact Hcmp|].
        exact (num_lt_trans _ _ _ Hpos Hcmp). }
      split_and!; [lia | exact Hc | reflexivity | exact Hpos |].
      intros t Ht Hct. destruct (decide (t = n)) as [->|Hne].
      * split; [apply num_lt_irrefl | lia].
      * assert (Hbelow : nlt st.1 (codeVariance t) = false).
        { destruct Hinv as [[Hnone ->] | (_ & _ & _ & _ & Hmax)].
          - apply Hnone; [lia | exact Hct].
          - apply (Hmax t); [lia | exact Hct]. }
        pose proof (num_lt_le_false _ _ _ Hcmp Hbelow) as Hle.
        split; [apply num_le_lt_false; exact Hle | intros _; exact Hle].
    + destruct Hinv as [[Hnone ->] | (Hlt & Hcs & Heq & Hpos & Hmax)].
      * left. split; [|reflexivity].
        intros t Ht Hct. destruct (decide (t = n)) as [->|Hne]; [exact Hcmp|].
        apply Hnone; [lia | exact Hct].
      * right. split_and!; [lia | exact Hcs | exact Heq | exact Hpos |].
        intros t Ht Hct. destruct (decide (t = n)) as [->|Hne].
        -- split; [exact Hcmp | lia].
        -- apply Hmax; [lia | exact Hct].
  - rewrite (otsuStep_skip st n Hn Hc).
    destruct Hinv as [[Hnone ->] | (Hlt & Hcs & Heq & Hpos & Hmax)].
    + left. split; [|reflexivity].
      intros t Ht Hct. destruct (decide (t = n)) as [->|Hne]; [contradiction|].
      apply Hnone; [lia | exact Hct].
    + right. split_and!; [lia | exact Hcs | exact Heq | exact Hpos |].
      intros t Ht Hct. destruct (decide (t = n)) as [->|Hne]; [contradiction|].
      apply Hmax; [lia | exact Hct].
Qed.

Lemma otsuLoop_inv n : (n ≤ 256)%nat → otsuInv n (otsuLoop gray n).
Proof.
  intros Hn. unfold otsuLoop. apply (foldl_seq_invariant otsuInv).
  - left. split; [intros t Ht; lia | reflexivity].
  - intros i s Hi. apply otsuStep_inv. lia.
Qed.
End OtsuSelection.

(** *** Rounding breaks ties of the exact variance *)

(** Five grey pixels of levels 8, 5, 0, 3 and 9. *)
Definition fiveGreys : ImageData :=
  mkImageData [8; 8; 8; 255; 5; 5; 5; 255; 0; 0; 0; 255;
               3; 3; 3; 255; 9; 9; 9; 255] 5 1.

Lemma fiveGreys_gray : grayData (data fiveGreys) = [8; 5; 0; 3; 9]%nat.
Proof. vm_compute. reflexivity. Qed.

(** Thresholds 3 and 5 have the same between-class variance, the largest of
    all thresholds, so 3 is the lowest threshold of maximal variance; the
    doubles computed for them differ in the last place, and [otsuBinarize]
    selects 5: a lower threshold that leaves neither class empty has a
    variance that is not smaller than that of the selected one. *)
Lemma otsuBinarize_not_lowest_maximum :
  otsuThreshold fiveGreys = 5%nat ∧
  candidate (grayData (data fiveGreys)) 3 ∧
  (∀ t, (t < 256)%nat →
     (betweenClassVariance (grayData (data fiveGreys)) t
      <= betweenClassVariance (grayData (data fiveGreys)) 3)%Q) ∧
  ¬ (betweenClassVariance (grayData (data fiveGreys)) 3
     < betweenClassVariance (grayData (data fiveGreys))
         (otsuThreshold fiveGreys))%Q ∧
  nlt (codeVariance (grayData (data fiveGreys)) 3)
      (codeVariance (grayData (data fiveGreys)) 5) = true.
Proof.
  assert (Ht : otsuThreshold fiveGreys = 5%nat) by (vm_compute; reflexivity).
  rewrite Ht, fiveGreys_gray. split_and!.
  - reflexivity.
  - unfold candidate. vm_compute. repeat split; (lia || discriminate).
  - intros t Hlt.
    assert (Hall : forallb (λ u, Qle_bool (betweenClassVariance [8; 5; 0; 3; 9]%nat u)
                         (betweenClassVariance [8; 5; 0; 3; 9]%nat 3))
                     (seq 0 256) = true) by (vm_compute; reflexivity).
    rewrite forallb_forall in Hall. apply Qle_bool_iff, Hall.
    apply in_seq. lia.
  - vm_compute. discriminate.
  - vm_compute. reflexivity.
Qed.

(** C5.  For every image, [otsuBinarize] binarizes at the threshold [t]
    selected as follows over the rounded lumas of all pixels, where the
    variance of a threshold is [w0 * w1 * (mean0 - mean1)^2 / total^2] as
    computed in doubles.  If no threshold that leaves neither class empty
    has a variance computed above 0 (so when every threshold leaves one
    class empty) the threshold is 128.  Otherwise [t] leaves neither class
    empty, its computed variance is above 0, no such threshold has a larger
    computed variance, and no lower one has a computed variance that is as
    large (the first maximum of the computed values is kept). *)
Theorem otsuBinarize_threshold (img : ImageData) :
  let gray := grayData (data img) in
  let t := otsuThreshold img in
  otsuBinarize img = binarize img (inject_Z (Z.of_nat t)) ∧
  ((∀ t', candidate gray t' → nlt (Fin 0) (codeVariance gray t') = false) →
   t = 128%nat) ∧
  (∀ t', candidate gray t' → nlt (Fin 0) (codeVariance gray t') = true →
     candidate gray t ∧
     nlt (Fin 0) (codeVariance gray t) = true ∧
     (∀ t'', candidate gray t'' →
        nlt (codeVariance gray t) (codeVariance gray t'') = false) ∧
     (∀ t'', candidate gray t'' → (t'' < t)%nat →
        nle (codeVariance gray t) (codeVariance gray t'') = false)).
Proof.
  intros gray t. split; [reflexivity|].
  pose proof (grayData_bound (data img)) as Hb. fold gray in Hb.
  pose proof (otsuLoop_inv gray Hb 256 ltac:(lia)) as Hinv.
  unfold t, otsuThreshold. fold gray.
  destruct Hinv as [[Hnone Hst] | (Hlt & Hcs & Heq & Hpos & Hmax)].
  - rewrite Hst. cbn [snd]. split; [reflexivity|].
    intros t' Hc Hpos. exfalso.
    rewrite (Hnone t' ltac:(apply Hc) Hc) in Hpos. discriminate.
  - rewrite Heq in Hpos, Hmax. split.
    + intros Hdeg. exfalso. rewrite (Hdeg _ Hcs) in Hpos. discriminate.
    + intros t' Hc _. split_and!; [exact Hcs | exact Hpos | |].
      * intros t'' Hc''. apply (Hmax t'' ltac:(apply Hc'') Hc'').
      * intros t'' Hc'' Hlow. apply (Hmax t'' ltac:(apply Hc'') Hc''), Hlow.
Qed.

(** The theorem at the five grey pixels: threshold 3 has a variance computed
    above 0, so the selected threshold, 5, leaves neither class empty and
    the variance computed for the lower threshold 3 is smaller. *)
Lemma otsuBinarize_threshold_witness :
  otsuThreshold fiveGreys = 5%nat ∧
  candidate (grayData (data fiveGreys)) (otsuThreshold fiveGreys) ∧
  nle (codeVariance (grayData (data fiveGreys)) (otsuThreshold fiveGreys))
      (codeVariance (grayData (data fiveGreys)) 3) = false.
Proof.
  destruct (otsuBinarize_threshold fiveGreys) as (_ & _ & Hmax).
  assert (Hc : candidate (grayData (data fiveGreys)) 3).
  { unfold candidate. vm_compute. repeat split; (lia || discriminate). }
  destruct (Hmax 3%nat Hc) as (Hcs & _ & _ & Hfirst); [vm_compute; reflexivity|].
  split_and!; [vm_compute; reflexivity | exact Hcs |].
  apply Hfirst; [exact Hc | vm_compute; lia].
Defined.

(** ** CharSegmentation.connectedComponentAnalysis *)

Record SegmentedChar := mkSegmentedChar {
  charX : nat;
  charY : nat;
  charWidth : nat;
  charHeight : nat;
  charImage : ImageData
}.

Record Box := mkBox { minX : nat; minY : nat; maxX : nat; maxY : nat }.

(** State of the first pass.  [labels] is the [Int32Array] of provisional
    labels, -1 where a pixel has none.  [labelMap] maps the labels
    [0 .. currentLabel - 1] (the position in the list) to a [Set] object;
    several labels can hold the same object, so the objects live in
    [labelSets] and [labelMap] holds their positions there.  A set lists its
    elements in insertion order. *)
Record Labelling := mkLabelling {
  labels : list Z;
  currentLabel : Z;
  labelMap : list nat;
  labelSets : list (list Z)
}.

(** [labels[i] !== -1 ? [labels[i]] : []]. *)
Definition labelAt (lbl : list Z) (i : nat) : list Z :=
  match lbl !! i with
  | Some l => if bool_decide (l ≠ -1) then [l] else []
  | None => []
  end.

(** The labels of the left, top, top-left and top-right neighbours that
    have one, in that order. *)
Definition neighbors (w : nat) (lbl : list Z) (x y : nat) : list Z :=
  let idx := (y * w + x)%nat in
  (if bool_decide (0 < x)%nat then labelAt lbl (idx - 1) else []) ++
  (if bool_decide (0 < y)%nat then labelAt lbl (idx - w) else []) ++
  (if bool_decide (0 < x)%nat && bool_decide (0 < y)%nat
   then labelAt lbl (idx - w - 1) else []) ++
  (if bool_decide (Z.of_nat x < Z.of_nat w - 1) && bool_decide (0 < y)%nat
   then labelAt lbl (idx - w + 1) else []).

(** [Math.min(...l)] of a list that is not empty. *)
Definition listMin (l : list Z) : Z :=
  match l with
  | [] => 0
  | a :: l' => foldl Z.min a l'
  end.

(** [set.add(l)]. *)
Definition setAdd (l : Z) (s : list Z) : list Z :=
  if bool_decide (l ∈ s) then s else s ++ [l].

(** [set2.forEach(l => { set1.add(l); labelMap.set(l, set1); })] for the
    neighbour [label], when it differs from [minLabel]. *)
Definition mergeLabel (minLabel : Z) (ms : list nat * list (list Z))
    (label : Z) : list nat * list (list Z) :=
  if bool_decide (label ≠ minLabel) then
    match ms.1 !! Z.to_nat minLabel, ms.1 !! Z.to_nat label with
    | Some set1, Some set2 =>
        foldl (λ ms' l, (<[Z.to_nat l := set1]> ms'.1,
                         alter (setAdd l) set1 ms'.2))
              ms (default [] (ms.2 !! set2))
    | _, _ => ms
    end
  else ms.

(** Body of the first pass for the pixel [(x, y)] of the binary image. *)
Definition labelPixel (bin : ImageData) (y : nat) (st : Labelling) (x : nat)
    : Labelling :=
  let w := width bin in
  let idx := (y * w + x)%nat in
  if isLight (data bin) (idx * 4) then st
  else
    let nb := neighbors w (labels st) x y in
    match nb with
    | [] =>
        {| labels := <[idx := currentLabel st]> (labels st);
           currentLabel := currentLabel st + 1;
           labelMap := labelMap st ++ [length (labelSets st)];
           labelSets := labelSets st ++ [[currentLabel st]] |}
    | _ :: _ =>
        let minLabel := listMin nb in
        let ms := foldl (mergeLabel minLabel) (labelMap st, labelSets st) nb in
        {| labels := <[idx := minLabel]> (labels st);
           currentLabel := currentLabel st;
           labelMap := ms.1;
           labelSets := ms.2 |}
    end.

Definition firstPass (bin : ImageData) : Labelling :=
  foldl (λ st y, foldl (labelPixel bin y) st (seq 0 (width bin)))
        {| labels := replicate (width bin * height bin) (-1);
           currentLabel := 0; labelMap := []; labelSets := [] |}
        (seq 0 (height bin)).

(** Second pass: [finalLabels[i]] is the least label of the set of
    [labels[i]], and -1 where the pixel has no label. *)
Definition rootLabel (st : Labelling) (l : Z) : Z :=
  if bool_decide (l ≠ -1) then
    match labelMap st !! Z.to_nat l with
    | Some s => listMin (default [] (labelSets st !! s))
    | None => -1
    end
  else -1.

Definition secondPass (st : Labelling) : list Z :=
  rootLabel st <$> labels st.

(** [boundingBoxes.get(label)] and the update of the box in place. *)
Fixpoint boxOf (label : Z) (boxes : list (Z * Box)) : option Box :=
  match boxes with
  | [] => None
  | (l, b) :: rest => if bool_decide (l = label) then Some b else boxOf label rest
  end.

Fixpoint growBox (label : Z) (x y : nat) (boxes : list (Z * Box))
    : list (Z * Box) :=
  match boxes with
  | [] => []
  | (l, b) :: rest =>
      if bool_decide (l = label)
      then (l, {| minX := Nat.min (minX b) x; minY := Nat.min (minY b) y;
                  maxX := Nat.max (maxX b) x; maxY := Nat.max (maxY b) y |})
           :: rest
      else (l, b) :: growBox label x y rest
  end.

(** Body of the third pass for the pixel [(x, y)]. *)
Definition boxPixel (w : nat) (finalLabels : list Z) (y : nat)
    (boxes : list (Z * Box)) (x : nat) : list (Z * Box) :=
  match finalLabels !! (y * w + x)%nat with
  | Some label =>
      if bool_decide (label ≠ -1) then
        match boxOf label boxes with
        | None => boxes ++ [(label, mkBox x y x y)]
        | Some _ => growBox label x y boxes
        end
      else boxes
  | None => boxes
  end.

Definition boundingBoxes (w h : nat) (finalLabels : list Z) : list (Z * Box) :=
  foldl (λ boxes y, foldl (boxPixel w finalLabels y) boxes (seq 0 w))
        [] (seq 0 h).

(** The bitmap of a component: black where the pixel carries [label], white
    elsewhere, written row by row over the box. *)
Definition charData (w : nat) (finalLabels : list Z) (label : Z) (box : Box)
    (cw ch : nat) : list Z :=
  flat_map (λ y,
    flat_map (λ x,
      if bool_decide (finalLabels !! (y * w + x)%nat = Some label)
      then [0; 0; 0; 255] else [255; 255; 255; 255])
      (seq (minX box) cw))
    (seq (minY box) ch).

(** Body of [boundingBoxes.forEach].  [ctx] tells whether
    [charCanvas.getContext('2d')] returned a context. *)
Definition extractChar (ctx : bool) (w : nat) (finalLabels : list Z)
    (entry : Z * Box) : list SegmentedChar :=
  let box := entry.2 in
  let cw := (maxX box - minX box + 1)%nat in
  let ch := (maxY box - minY box + 1)%nat in
  if bool_decide (cw < 5)%nat || bool_decide (ch < 5)%nat then []
  else if ctx then
    [ {| charX := minX box; charY := minY box;
         charWidth := cw; charHeight := ch;
         charImage := {| data := charData w finalLabels entry.1 box cw ch;
                         width := cw; height := ch |} |} ]
  else [].

Definition connectedComponentAnalysis (ctx : bool) (img : ImageData)
    : list SegmentedChar :=
  let bin := binarize img 128 in
  let finalLabels := secondPass (firstPass bin) in
  flat_map (extractChar ctx (width bin) finalLabels)
           (boundingBoxes (width bin) (height bin) finalLabels).

(** A 7x7 white image with a 5x5 black block at (1, 1). *)
Definition blockImage : ImageData :=
  {| data := flat_map (λ p : nat,
       if bool_decide (1 ≤ p `mod` 7 < 6 ∧ 1 ≤ p / 7 < 6)%nat
       then [0; 0; 0; 255] else [255; 255; 255; 255]) (seq 0 49);
     width := 7; height := 7 |}.

Example block_one_component :
  (λ c, (charX c, charY c, charWidth c, charHeight c))
    <$> connectedComponentAnalysis true blockImage = [(1, 1, 5, 5)%nat].
Proof. vm_compute. reflexivity. Qed.

(** A U shape: the two arms get different provisional labels that the
    bottom row merges. *)
Definition uImage : ImageData :=
  {| data := flat_map (λ p : nat,
       if bool_decide (p `mod` 5 = 0 ∨ p `mod` 5 = 4 ∨ p / 5 = 4)%nat
       then [0; 0; 0; 255] else [255; 255; 255; 255]) (seq 0 25);
     width := 5; height := 5 |}.

Example u_one_component :
  (λ c, (charX c, charY c, charWidth c, charHeight c))
    <$> connectedComponentAnalysis true uImage = [(0, 0, 5, 5)%nat].
Proof. vm_compute. reflexivity. Qed.

(** *** A solid rectangular block of foreground *)

Lemma pixel_index_inj (w x y x' y' : nat) :
  (x < w)%nat → (x' < w)%nat → (y' * w + x' = y * w + x)%nat → x' = x ∧ y' = y.
Proof.
  intros Hx Hx' E.
  assert (y' = y).
  { destruct (Nat.lt_trichotomy y' y) as [Hlt | [-> | Hlt]]; [|reflexivity|]; exfalso; nia. }
  subst y'. split; [lia | reflexivity].
Qed.

Lemma row_above (w x y : nat) :
  (0 < y)%nat → (y * w + x - w = (y - 1) * w + x)%nat.
Proof. intros Hy. destruct y as [|y]; [lia|]. simpl. rewrite Nat.sub_0_r. lia. Qed.

Lemma listMin_zeros (nb : list Z) :
  Forall (λ l, l = 0) nb → nb ≠ [] → listMin nb = 0.
Proof.
  intros Hall Hne. destruct nb as [|a nb]; [contradiction|].
  apply Forall_cons in Hall as [-> Hall]. simpl.
  induction Hall as [|b nb -> _ IH]; [reflexivity|]. simpl. apply IH. discriminate.
Qed.

Lemma mergeLabel_zeros (ms : list nat * list (list Z)) (nb : list Z) :
  Forall (λ l, l = 0) nb → foldl (mergeLabel 0) ms nb = ms.
Proof.
  intros Hall. induction Hall as [|b nb -> _ IH]; [reflexivity|].
  simpl. unfold mergeLabel at 2. rewrite bool_decide_eq_false_2 by tauto. exact IH.
Qed.

Lemma flat_map_const {A B} (f : A → list B) (c : list B) (l : list A) :
  (∀ a, a ∈ l → f a = c) → flat_map f l = concat (replicate (length l) c).
Proof.
  induction l as [|a l IH]; intros Hf; [reflexivity|].
  simpl. rewrite (Hf a) by (left; reflexivity). f_equal.
  apply IH. intros a' Ha'. apply Hf. right. exact Ha'.
Qed.

Lemma flat_map_const_seq {B} (f : nat → list B) (c : list B) (s n : nat) :
  (∀ a, (s ≤ a < s + n)%nat → f a = c) →
  flat_map f (seq s n) = concat (replicate n c).
Proof.
  intros Hf. rewrite (flat_map_const f c); [rewrite length_seq; reflexivity|].
  intros a Ha%elem_of_seq. apply Hf. exact Ha.
Qed.

(** Case analysis on a [bool_decide] of the goal only. *)
Ltac goal_bool_decide :=
  match goal with
  | |- context [bool_decide ?P] => destruct (bool_decide_reflect P)
  end.

Section SolidBlock.
Variable bin : ImageData.
Variables x0 y0 bw bh : nat.
Hypothesis block_size : (0 < bw ∧ 0 < bh)%nat.
Hypothesis block_fits : (x0 + bw ≤ width bin ∧ y0 + bh ≤ height bin)%nat.

Definition inBlock (x y : nat) : Prop :=
  (x0 ≤ x < x0 + bw ∧ y0 ≤ y < y0 + bh)%nat.

(** The foreground of [bin] is the block. *)
Hypothesis block_foreground : ∀ x y,
  (x < width bin)%nat → (y < height bin)%nat →
  isLight (data bin) ((y * width bin + x) * 4) = false ↔ inBlock x y.

(** Pixel [(x', y')] comes before [(x, y)] in the row-by-row scan. *)
Definition before (x' y' x y : nat) : Prop :=
  (y' < y ∨ (y' = y ∧ x' < x))%nat.

(** Invariant of the first pass when the scan is about to visit
    [(x, y)]: the block pixels already visited carry label 0 and nothing
    else is labelled; one label exists once the corner has been visited. *)
Definition firstInv (x y : nat) (st : Labelling) : Prop :=
  (∀ x' y', (x' < width bin)%nat → (y' < height bin)%nat →
     (inBlock x' y' ∧ before x' y' x y →
      labels st !! (y' * width bin + x')%nat = Some 0) ∧
     (¬ (inBlock x' y' ∧ before x' y' x y) →
      labels st !! (y' * width bin + x')%nat = Some (-1))) ∧
  (before x0 y0 x y →
   currentLabel st = 1 ∧ labelMap st = [0%nat] ∧ labelSets st = [[0]]) ∧
  (¬ before x0 y0 x y →
   currentLabel st = 0 ∧ labelMap st = [] ∧ labelSets st = []).

Lemma before_dec x' y' x y : {before x' y' x y} + {¬ before x' y' x y}.
Proof.
  unfold before. destruct (decide (y' < y)%nat); [left; lia|].
  destruct (decide (y' = y ∧ x' < x)%nat); [left; lia | right; lia].
Qed.

Lemma inBlock_dec x y : {inBlock x y} + {¬ inBlock x y}.
Proof.
  unfold inBlock.
  destruct (decide (x0 ≤ x)%nat), (decide (x < x0 + bw)%nat),
    (decide (y0 ≤ y)%nat), (decide (y < y0 + bh)%nat);
    (left; lia) || (right; lia).
Qed.

Lemma labelAt_firstInv x y st x' y' :
  firstInv x y st → (x' < width bin)%nat → (y' < height bin)%nat →
  (inBlock x' y' ∧ before x' y' x y →
   labelAt (labels st) (y' * width bin + x') = [0]) ∧
  (¬ (inBlock x' y' ∧ before x' y' x y) →
   labelAt (labels st) (y' * width bin + x') = []).
Proof.
  intros (Hl & _) Hx' Hy'. destruct (Hl x' y' Hx' Hy') as [H1 H2].
  unfold labelAt. split; intros H.
  - rewrite (H1 H). reflexivity.
  - rewrite (H2 H). reflexivity.
Qed.

Lemma labels_zero_or_none x y st i v :
  firstInv x y st → (i < width bin * height bin)%nat →
  labels st !! i = Some v → v = 0 ∨ v = -1.
Proof.
  intros (Hl & _) Hi Hv.
  assert (Hw : (0 < width bin)%nat) by lia.
  pose proof (Nat.div_mod_eq i (width bin)) as Hdm.
  pose proof (Nat.mod_upper_bound i (width bin) ltac:(lia)) as Hm.
  assert (Hq : (i / width bin < height bin)%nat).
  { apply Nat.Div0.div_lt_upper_bound. lia. }
  destruct (Hl (i mod width bin)%nat (i / width bin)%nat Hm Hq) as [H1 H2].
  replace (i / width bin * width bin + i mod width bin)%nat with i in * by lia.
  destruct (inBlock_dec (i mod width bin) (i / width bin)) as [Hb|Hb];
    [destruct (before_dec (i mod width bin) (i / width bin) x y) as [Hf|Hf]|].
  - rewrite H1 in Hv by tauto. left. congruence.
  - rewrite H2 in Hv by tauto. right. congruence.
  - rewrite H2 in Hv by tauto. right. congruence.
Qed.

Lemma labelAt_zeros x y st i :
  firstInv x y st → (i < width bin * height bin)%nat →
  Forall (λ l, l = 0) (labelAt (labels st) i).
Proof.
  intros Hinv Hi. unfold labelAt.
  destruct (labels st !! i) as [v|] eqn:Hv; [|constructor].
  destruct (labels_zero_or_none x y st i v Hinv Hi Hv) as [-> | ->].
  - repeat constructor.
  - rewrite bool_decide_eq_false_2 by tauto. constructor.
Qed.
Lemma before_S x' y' x y :
  before x' y' (S x) y ↔ before x' y' x y ∨ (x' = x ∧ y' = y).
Proof. unfold before. lia. Qed.

Lemma before_next_row x' y' y :
  (x' < width bin)%nat → before x' y' (width bin) y ↔ before x' y' 0 (S y).
Proof. unfold before. lia. Qed.

Lemma pixel_index_bound x y :
  (x < width bin)%nat → (y < height bin)%nat →
  (y * width bin + x < width bin * height bin)%nat.
Proof. intros Hx Hy. nia. Qed.

Lemma neighbors_zeros x y st :
  firstInv x y st → (x < width bin)%nat → (y < height bin)%nat →
  Forall (λ l, l = 0) (neighbors (width bin) (labels st) x y).
Proof.
  intros Hinv Hx Hy. pose proof (pixel_index_bound x y Hx Hy) as Hi.
  assert (Hif : ∀ (b : bool) i,
            (b = true → (i < width bin * height bin)%nat) →
            Forall (λ l, l = 0) (if b then labelAt (labels st) i else [])).
  { intros [|] i Hb; [|constructor].
    apply (labelAt_zeros x y st _ Hinv). apply Hb. reflexivity. }
  unfold neighbors. apply Forall_app_2; [|apply Forall_app_2; [|apply Forall_app_2]];
    apply Hif; intros Hb.
  - apply bool_decide_eq_true in Hb. lia.
  - apply bool_decide_eq_true in Hb. lia.
  - apply andb_true_iff in Hb as [_ Hb]. apply bool_decide_eq_true in Hb. lia.
  - apply andb_true_iff in Hb as [_ Hb]. apply bool_decide_eq_true in Hb.
    rewrite row_above by lia. nia.
Qed.

(** What the first pass does at a background pixel, at the first pixel
    of the block, and at a pixel with labelled neighbours all 0. *)
Lemma labelPixel_new x y st :
  isLight (data bin) ((y * width bin + x) * 4) = false →
  neighbors (width bin) (labels st) x y = [] →
  labelPixel bin y st x =
  {| labels := <[(y * width bin + x)%nat := currentLabel st]> (labels st);
     currentLabel := currentLabel st + 1;
     labelMap := labelMap st ++ [length (labelSets st)];
     labelSets := labelSets st ++ [[currentLabel st]] |}.
Proof. intros E Hn. unfold labelPixel. rewrite E, Hn. reflexivity. Qed.

Lemma labelPixel_zeros x y st :
  isLight (data bin) ((y * width bin + x) * 4) = false →
  neighbors (width bin) (labels st) x y ≠ [] →
  Forall (λ l, l = 0) (neighbors (width bin) (labels st) x y) →
  labelPixel bin y st x =
  {| labels := <[(y * width bin + x)%nat := 0]> (labels st);
     currentLabel := currentLabel st;
     labelMap := labelMap st;
     labelSets := labelSets st |}.
Proof.
  intros E Hne Hz. unfold labelPixel. rewrite E.
  destruct (neighbors _ _ _ _) as [|a nb] eqn:Hn; [contradiction|].
  rewrite (listMin_zeros _ Hz) by discriminate.
  rewrite (mergeLabel_zeros _ _ Hz). reflexivity.
Qed.

Lemma neighbors_corner st :
  firstInv x0 y0 st →
  neighbors (width bin) (labels st) x0 y0 = [].
Proof.
  intros Hinv. destruct block_size, block_fits.
  assert (Hnot : ∀ x' y', (x' < width bin)%nat → (y' < height bin)%nat →
            before x' y' x0 y0 →
            labelAt (labels st) (y' * width bin + x') = []).
  { intros x' y' Hx' Hy' Hb.
    apply (labelAt_firstInv x0 y0 st x' y' Hinv Hx' Hy').
    unfold inBlock, before in *. lia. }
  unfold neighbors.
  assert (L : (if bool_decide (0 < x0)%nat
               then labelAt (labels st) (y0 * width bin + x0 - 1) else []) = []).
  { goal_bool_decide; [|reflexivity].
    replace (y0 * width bin + x0 - 1)%nat
      with (y0 * width bin + (x0 - 1))%nat by lia.
    apply Hnot; unfold before; lia. }
  assert (T : (if bool_decide (0 < y0)%nat
               then labelAt (labels st) (y0 * width bin + x0 - width bin)
               else []) = []).
  { goal_bool_decide; [|reflexivity].
    rewrite (row_above (width bin) x0 y0) by lia. apply Hnot; unfold before; lia. }
  assert (TL : (if bool_decide (0 < x0)%nat && bool_decide (0 < y0)%nat
                then labelAt (labels st) (y0 * width bin + x0 - width bin - 1)
                else []) = []).
  { do 2 (goal_bool_decide; [|reflexivity]). cbn [andb].
    replace (y0 * width bin + x0 - width bin - 1)%nat
      with ((y0 - 1) * width bin + (x0 - 1))%nat
      by (rewrite (row_above (width bin) x0 y0) by lia; nia).
    apply Hnot; unfold before; lia. }
  assert (TR : (if bool_decide (Z.of_nat x0 < Z.of_nat (width bin) - 1)
                   && bool_decide (0 < y0)%nat
                then labelAt (labels st) (y0 * width bin + x0 - width bin + 1)
                else []) = []).
  { do 2 (goal_bool_decide; [|reflexivity]). cbn [andb].
    replace (y0 * width bin + x0 - width bin + 1)%nat
      with ((y0 - 1) * width bin + (x0 + 1))%nat
      by (rewrite (row_above (width bin) x0 y0) by lia; nia).
    apply Hnot; unfold before; lia. }
  rewrite L, T, TL, TR. reflexivity.
Qed.

Lemma neighbors_inside x y st :
  firstInv x y st → inBlock x y → ¬ (x = x0 ∧ y = y0) →
  neighbors (width bin) (labels st) x y ≠ [].
Proof.
  intros Hinv Hin Hnc. destruct block_size, block_fits.
  unfold inBlock in Hin. unfold neighbors.
  destruct (decide (x0 < x)%nat) as [Hx|Hx].
  - rewrite bool_decide_eq_true_2 by lia.
    replace (y * width bin + x - 1)%nat with (y * width bin + (x - 1))%nat by lia.
    destruct (labelAt_firstInv x y st (x - 1)%nat y Hinv ltac:(lia) ltac:(lia))
      as [Hlab _].
    rewrite Hlab by (unfold inBlock, before; lia). discriminate.
  - assert (Hy : (y0 < y)%nat) by lia.
    rewrite (bool_decide_eq_true_2 (0 < y)%nat) by lia.
    rewrite (row_above (width bin) x y) by lia.
    destruct (labelAt_firstInv x y st x (y - 1)%nat Hinv ltac:(lia) ltac:(lia))
      as [Hlab _].
    rewrite Hlab by (unfold inBlock, before; lia).
    destruct (if bool_decide (0 < x)%nat then _ else _); discriminate.
Qed.

Lemma labels_step_outside (lbl : list Z) x y :
  ¬ inBlock x y →
  (∀ x' y', (x' < width bin)%nat → (y' < height bin)%nat →
     (inBlock x' y' ∧ before x' y' x y →
      lbl !! (y' * width bin + x')%nat = Some 0) ∧
     (¬ (inBlock x' y' ∧ before x' y' x y) →
      lbl !! (y' * width bin + x')%nat = Some (-1))) →
  ∀ x' y', (x' < width bin)%nat → (y' < height bin)%nat →
     (inBlock x' y' ∧ before x' y' (S x) y →
      lbl !! (y' * width bin + x')%nat = Some 0) ∧
     (¬ (inBlock x' y' ∧ before x' y' (S x) y) →
      lbl !! (y' * width bin + x')%nat = Some (-1)).
Proof.
  intros Hout Hl x' y' Hx' Hy'. destruct (Hl x' y' Hx' Hy') as [H1 H2].
  split; intros H.
  - apply H1. destruct H as [Hb Hbf]. split; [exact Hb|].
    apply before_S in Hbf as [Hbf | [-> ->]]; [exact Hbf | contradiction].
  - apply H2. intros [Hb Hbf]. apply H. split; [exact Hb|].
    apply before_S. left. exact Hbf.
Qed.

Lemma labels_step_inside (lbl : list Z) x y :
  (x < width bin)%nat → (y < height bin)%nat → inBlock x y →
  (∀ x' y', (x' < width bin)%nat → (y' < height bin)%nat →
     (inBlock x' y' ∧ before x' y' x y →
      lbl !! (y' * width bin + x')%nat = Some 0) ∧
     (¬ (inBlock x' y' ∧ before x' y' x y) →
      lbl !! (y' * width bin + x')%nat = Some (-1))) →
  ∀ x' y', (x' < width bin)%nat → (y' < height bin)%nat →
     (inBlock x' y' ∧ before x' y' (S x) y →
      <[(y * width bin + x)%nat := 0]> lbl !! (y' * width bin + x')%nat
      = Some 0) ∧
     (¬ (inBlock x' y' ∧ before x' y' (S x) y) →
      <[(y * width bin + x)%nat := 0]> lbl !! (y' * width bin + x')%nat
      = Some (-1)).
Proof.
  intros Hx Hy Hin Hl x' y' Hx' Hy'.
  assert (Hlen : (y * width bin + x < length lbl)%nat).
  { destruct (Hl x y Hx Hy) as [_ H2]. eapply lookup_lt_Some. apply H2.
    unfold before. lia. }
  destruct (decide (x' = x ∧ y' = y)) as [[-> ->]|Hne].
  - split; intros H.
    + apply list_lookup_insert_eq. exact Hlen.
    + exfalso. apply H. split; [exact Hin | unfold before; lia].
  - rewrite list_lookup_insert_ne.
    2:{ intros Heq. apply Hne. symmetry in Heq.
        apply (pixel_index_inj (width bin) x y x' y' Hx Hx' Heq). }
    destruct (Hl x' y' Hx' Hy') as [H1 H2]. split; intros H.
    + apply H1. destruct H as [Hb Hbf]. split; [exact Hb|].
      apply before_S in Hbf as [Hbf | Heq]; [exact Hbf | contradiction].
    + apply H2. intros [Hb Hbf]. apply H. split; [exact Hb|].
      apply before_S. left. exact Hbf.
Qed.

Lemma labelPixel_firstInv x y st :
  (x < width bin)%nat → (y < height bin)%nat →
  firstInv x y st → firstInv (S x) y (labelPixel bin y st x).
Proof.
  intros Hx Hy Hinv. destruct block_size, block_fits.
  destruct (isLight (data bin) ((y * width bin + x) * 4)) eqn:E.
  - assert (Hout : ¬ inBlock x y).
    { intros Hin. apply block_foreground in Hin; [congruence | exact Hx | exact Hy]. }
    unfold labelPixel. rewrite E. destruct Hinv as (Hl & Hc1 & Hc0).
    split_and!.
    + apply labels_step_outside; assumption.
    + intros Hb. apply Hc1. apply before_S in Hb as [Hb | [<- <-]]; [exact Hb|].
      exfalso. apply Hout. unfold inBlock. lia.
    + intros Hb. apply Hc0. intros Hb'. apply Hb. apply before_S. left. exact Hb'.
  - assert (Hin : inBlock x y) by (apply block_foreground; assumption).
    destruct (decide (x = x0 ∧ y = y0)) as [[-> ->]|Hnc].
    + rewrite (labelPixel_new x0 y0 st E (neighbors_corner st Hinv)).
      destruct Hinv as (Hl & Hc1 & Hc0).
      destruct Hc0 as (Hcur & Hlm & Hls); [unfold before; lia|].
      rewrite Hcur, Hlm, Hls. split_and!; cbn [labels currentLabel labelMap labelSets].
      * apply labels_step_inside; assumption.
      * intros _. split_and!; reflexivity.
      * intros Hb. exfalso. apply Hb. unfold before. lia.
    + rewrite (labelPixel_zeros x y st E (neighbors_inside x y st Hinv Hin Hnc)
                 (neighbors_zeros x y st Hinv Hx Hy)).
      destruct Hinv as (Hl & Hc1 & Hc0).
      assert (Hb : before x0 y0 x y) by (unfold inBlock, before in *; lia).
      split_and!; cbn [labels currentLabel labelMap labelSets].
      * apply labels_step_inside; assumption.
      * intros _. apply Hc1. exact Hb.
      * intros Hb'. exfalso. apply Hb'. apply before_S. left. exact Hb.
Qed.

Lemma firstPass_block :
  (∀ x y, (x < width bin)%nat → (y < height bin)%nat →
     labels (firstPass bin) !! (y * width bin + x)%nat =
     Some (if inBlock_dec x y then 0 else -1)) ∧
  length (labels (firstPass bin)) = (width bin * height bin)%nat ∧
  labelMap (firstPass bin) = [0%nat] ∧ labelSets (firstPass bin) = [[0]].
Proof.
  destruct block_size, block_fits.
  assert (Hinv : firstInv 0 (height bin) (firstPass bin) ∧
                 length (labels (firstPass bin)) = (width bin * height bin)%nat).
  { unfold firstPass.
    apply (foldl_seq_invariant
             (λ y st, firstInv 0 y st ∧
                      length (labels st) = (width bin * height bin)%nat)).
    - split; [|apply length_replicate].
      split_and!; cbn [labels currentLabel labelMap labelSets].
      + intros x' y' Hx' Hy'. split; intros Hb.
        * exfalso. unfold before in Hb. lia.
        * apply lookup_replicate_2. apply pixel_index_bound; assumption.
      + unfold before. lia.
      + intros _. split_and!; reflexivity.
    - intros y st Hy [Hst Hlen].
      assert (Hrow : firstInv (width bin) y
                       (foldl (labelPixel bin y) st (seq 0 (width bin))) ∧
                     length (labels (foldl (labelPixel bin y) st (seq 0 (width bin))))
                     = (width bin * height bin)%nat).
      { apply (foldl_seq_invariant
                 (λ x s, firstInv x y s ∧
                         length (labels s) = (width bin * height bin)%nat)).
        - split; assumption.
        - intros x s Hx [Hs Hl]. split; [apply labelPixel_firstInv; assumption|].
          unfold labelPixel. destruct (isLight _ _); [exact Hl|].
          destruct (neighbors _ _ _ _); cbn [labels]; rewrite length_insert; exact Hl. }
      destruct Hrow as [(Hl & Hc1 & Hc0) Hlen']. split; [|exact Hlen'].
      split_and!.
      + intros x' y' Hx' Hy'. destruct (Hl x' y' Hx' Hy') as [H1' H2'].
        split; intros Hb.
        * apply H1'. destruct Hb as [Hb Hbf]. split; [exact Hb|].
          apply before_next_row; assumption.
        * apply H2'. intros [Hb' Hbf]. apply Hb. split; [exact Hb'|].
          apply before_next_row; assumption.
      + intros Hb. apply Hc1. apply before_next_row; [lia | exact Hb].
      + intros Hb. apply Hc0. intros Hb'. apply Hb.
        apply before_next_row; [lia | exact Hb']. }
  destruct Hinv as [(Hl & Hc1 & _) Hlen].
  destruct Hc1 as (_ & Hlm & Hls); [unfold before; lia|].
  split_and!; try assumption.
  intros x y Hx Hy. destruct (Hl x y Hx Hy) as [H1' H2'].
  destruct (inBlock_dec x y) as [Hin|Hout].
  - apply H1'. split; [exact Hin | unfold before; lia].
  - apply H2'. tauto.
Qed.

Lemma secondPass_block x y :
  (x < width bin)%nat → (y < height bin)%nat →
  secondPass (firstPass bin) !! (y * width bin + x)%nat =
  Some (if inBlock_dec x y then 0 else -1).
Proof.
  intros Hx Hy. destruct firstPass_block as (Hl & _ & Hlm & Hls).
  unfold secondPass. rewrite list_lookup_fmap, (Hl x y Hx Hy).
  unfold rootLabel. rewrite Hlm, Hls.
  destruct (inBlock_dec x y); reflexivity.
Qed.

(** Invariant of the third pass when the scan is about to visit
    [(x, y)]: no box before the corner of the block; afterwards one box,
    for label 0, inside the block and around every block pixel visited. *)
Definition boxInv (x y : nat) (boxes : list (Z * Box)) : Prop :=
  (¬ before x0 y0 x y ∧ boxes = []) ∨
  (before x0 y0 x y ∧ ∃ b, boxes = [(0, b)] ∧
     (x0 ≤ minX b ∧ maxX b < x0 + bw ∧ y0 ≤ minY b ∧ maxY b < y0 + bh)%nat ∧
     ∀ x' y', inBlock x' y' → before x' y' x y →
       (minX b ≤ x' ≤ maxX b ∧ minY b ≤ y' ≤ maxY b)%nat).

Lemma boxPixel_boxInv x y boxes :
  (x < width bin)%nat → (y < height bin)%nat →
  boxInv x y boxes →
  boxInv (S x) y
    (boxPixel (width bin) (secondPass (firstPass bin)) y boxes x).
Proof.
  intros Hx Hy Hinv. destruct block_size, block_fits.
  unfold boxPixel. rewrite (secondPass_block x y Hx Hy).
  destruct (inBlock_dec x y) as [Hin|Hout].
  - rewrite bool_decide_eq_true_2 by discriminate.
    destruct Hinv as [[Hnb ->] | (Hb & b & -> & Hbounds & Hcover)].
    + right. cbn [boxOf app]. unfold inBlock, before in *.
      split; [lia|]. eexists. split; [reflexivity|]. cbn [minX minY maxX maxY].
      split; [lia|]. intros x' y' Hin' Hbf. lia.
    + right. cbn [boxOf growBox]. rewrite bool_decide_eq_true_2 by reflexivity.
      split; [apply before_S; left; exact Hb|].
      eexists. split; [reflexivity|]. cbn [minX minY maxX maxY].
      unfold inBlock in Hin. split; [lia|].
      intros x' y' Hin' Hbf. apply before_S in Hbf as [Hbf | [-> ->]].
      * specialize (Hcover x' y' Hin' Hbf). lia.
      * lia.
  - rewrite bool_decide_eq_false_2 by tauto.
    destruct Hinv as [[Hnb ->] | (Hb & b & -> & Hbounds & Hcover)].
    + left. split; [|reflexivity]. intros Hb. apply Hnb.
      apply before_S in Hb as [Hb | [<- <-]]; [exact Hb|].
      exfalso. apply Hout. unfold inBlock. lia.
    + right. split; [apply before_S; left; exact Hb|].
      exists b. split; [reflexivity|]. split; [exact Hbounds|].
      intros x' y' Hin' Hbf. apply before_S in Hbf as [Hbf | [-> ->]].
      * apply Hcover; assumption.
      * contradiction.
Qed.

Lemma boundingBoxes_block :
  boundingBoxes (width bin) (height bin) (secondPass (firstPass bin)) =
  [(0, mkBox x0 y0 (x0 + bw - 1) (y0 + bh - 1))].
Proof.
  destruct block_size, block_fits.
  assert (Hinv : boxInv 0 (height bin)
            (boundingBoxes (width bin) (height bin) (secondPass (firstPass bin)))).
  { unfold boundingBoxes. apply (foldl_seq_invariant (λ y s, boxInv 0 y s)).
    - left. split; [unfold before; lia | reflexivity].
    - intros y boxes Hy Hb.
      assert (Hrow : boxInv (width bin) y
                (foldl (boxPixel (width bin) (secondPass (firstPass bin)) y)
                       boxes (seq 0 (width bin)))).
      { apply (foldl_seq_invariant (λ x s, boxInv x y s)); [exact Hb|].
        intros x s Hx. apply boxPixel_boxInv; assumption. }
      destruct Hrow as [[Hnb ->] | (Hbf & b & -> & Hbounds & Hcover)].
      + left. split; [|reflexivity]. intros Hbf. apply Hnb.
        apply before_next_row; [lia | exact Hbf].
      + right. split; [apply before_next_row; [lia | exact Hbf]|].
        exists b. split; [reflexivity|]. split; [exact Hbounds|].
        intros x' y' Hin' Hbf'. apply Hcover; [exact Hin'|].
        apply before_next_row; [unfold inBlock in Hin'; lia | exact Hbf']. }
  destruct Hinv as [[Hnb _] | (_ & b & -> & Hbounds & Hcover)].
  - exfalso. apply Hnb. unfold before. lia.
  - assert (Hlo := Hcover x0 y0 ltac:(unfold inBlock; lia) ltac:(unfold before; lia)).
    assert (Hhi := Hcover (x0 + bw - 1)%nat (y0 + bh - 1)%nat
                     ltac:(unfold inBlock; lia) ltac:(unfold before; lia)).
    destruct b as [a1 a2 a3 a4]. cbn [minX minY maxX maxY] in *.
    replace a1 with x0 by lia. replace a2 with y0 by lia.
    replace a3 with (x0 + bw - 1)%nat by lia.
    replace a4 with (y0 + bh - 1)%nat by lia. reflexivity.
Qed.

Lemma charData_block :
  charData (width bin) (secondPass (firstPass bin)) 0
    (mkBox x0 y0 (x0 + bw - 1) (y0 + bh - 1)) bw bh =
  concat (replicate bh (concat (replicate bw [0; 0; 0; 255]))).
Proof.
  destruct block_size, block_fits.
  unfold charData. cbn [minX minY].
  apply flat_map_const_seq. intros y Hy.
  apply flat_map_const_seq. intros x Hx.
  rewrite secondPass_block by lia.
  destruct (inBlock_dec x y) as [Hin|Hout].
  - rewrite bool_decide_eq_true_2 by reflexivity. reflexivity.
  - exfalso. apply Hout. unfold inBlock. lia.
Qed.

Lemma components_block :
  (5 ≤ bw)%nat → (5 ≤ bh)%nat →
  flat_map (extractChar true (width bin) (secondPass (firstPass bin)))
    (boundingBoxes (width bin) (height bin) (secondPass (firstPass bin))) =
  [ mkSegmentedChar x0 y0 bw bh
      (mkImageData (concat (replicate bh (concat (replicate bw [0; 0; 0; 255]))))
                   bw bh) ].
Proof.
  intros Hw Hh. rewrite boundingBoxes_block. cbn [flat_map]. rewrite app_nil_r.
  unfold extractChar. cbn [fst snd minX minY maxX maxY].
  replace (x0 + bw - 1 - x0 + 1)%nat with bw by lia.
  replace (y0 + bh - 1 - y0 + 1)%nat with bh by lia.
  rewrite !bool_decide_eq_false_2 by lia. cbn [orb].
  rewrite charData_block. reflexivity.
Qed.
End SolidBlock.

Lemma extractChar_small (ctx : bool) (w : nat) (finalLabels : list Z)
    (entry : Z * Box) :
  (maxX entry.2 - minX entry.2 + 1 < 5 ∨ maxY entry.2 - minY entry.2 + 1 < 5)%nat →
  extractChar ctx w finalLabels entry = [].
Proof.
  intros Hsmall. unfold extractChar.
  destruct (bool_decide_reflect (maxX entry.2 - minX entry.2 + 1 < 5)%nat);
    [reflexivity|].
  destruct (bool_decide_reflect (maxY entry.2 - minY entry.2 + 1 < 5)%nat);
    [reflexivity|].
  exfalso. lia.
Qed.

Lemma extractChar_size (ctx : bool) (w : nat) (finalLabels : list Z)
    (entry : Z * Box) (c : SegmentedChar) :
  c ∈ extractChar ctx w finalLabels entry →
  (5 ≤ charWidth c ∧ 5 ≤ charHeight c)%nat.
Proof.
  unfold extractChar.
  destruct (bool_decide_reflect (maxX entry.2 - minX entry.2 + 1 < 5)%nat);
    [intros Hc; apply elem_of_nil in Hc; contradiction|].
  destruct (bool_decide_reflect (maxY entry.2 - minY entry.2 + 1 < 5)%nat);
    [intros Hc; apply elem_of_nil in Hc; contradiction|].
  cbn [orb]. destruct ctx; [|intros Hc; apply elem_of_nil in Hc; contradiction].
  intros Hc. apply list_elem_of_singleton in Hc. subst c. simpl. lia.
Qed.

(** C9.  When the binarization of an image is a single solid 5x5 block of
    foreground (anywhere in an image of any size) and the canvas context is
    available, [connectedComponentAnalysis] returns exactly one component,
    whose bounding box is the block.  For every image: a bounding box
    narrower or shorter than 5 pixels yields no component, and every
    component returned is at least 5 pixels wide and 5 pixels high. *)
Theorem connectedComponentAnalysis_block :
  (∀ (img : ImageData) (x0 y0 : nat),
     (x0 + 5 ≤ width img)%nat → (y0 + 5 ≤ height img)%nat →
     (∀ x y, (x < width img)%nat → (y < height img)%nat →
        isLight (data (binarize img 128)) ((y * width img + x) * 4) = false ↔
        (x0 ≤ x < x0 + 5 ∧ y0 ≤ y < y0 + 5)%nat) →
     connectedComponentAnalysis true img =
     [ mkSegmentedChar x0 y0 5 5
         (mkImageData (concat (replicate 25 [0; 0; 0; 255])) 5 5) ]) ∧
  (∀ (ctx : bool) (w : nat) (finalLabels : list Z) (entry : Z * Box),
     (maxX entry.2 - minX entry.2 + 1 < 5 ∨
      maxY entry.2 - minY entry.2 + 1 < 5)%nat →
     extractChar ctx w finalLabels entry = []) ∧
  (∀ (ctx : bool) (img : ImageData) (c : SegmentedChar),
     c ∈ connectedComponentAnalysis ctx img →
     (5 ≤ charWidth c ∧ 5 ≤ charHeight c)%nat).
Proof.
  split_and!.
  - intros img x0 y0 Hw Hh Hfg. unfold connectedComponentAnalysis.
    change (width (binarize img 128)) with (width img) in *.
    change (height (binarize img 128)) with (height img) in *.
    exact (components_block (binarize img 128) x0 y0 5 5
             ltac:(lia) (conj Hw Hh) Hfg ltac:(lia) ltac:(lia)).
  - apply extractChar_small.
  - intros ctx img c Hc. unfold connectedComponentAnalysis in Hc.
    apply list_elem_of_In, in_flat_map in Hc as (entry & _ & Hc).
    apply list_elem_of_In in Hc. eapply extractChar_size. exact Hc.
Qed.

(** The first part at the 7x7 image with a block at (1, 1). *)
Lemma connectedComponentAnalysis_block_witness :
  connectedComponentAnalysis true blockImage =
  [ mkSegmentedChar 1 1 5 5
      (mkImageData (concat (replicate 25 [0; 0; 0; 255])) 5 5) ].
Proof.
  apply (proj1 connectedComponentAnalysis_block blockImage 1%nat 1%nat).
  - simpl. lia.
  - simpl. lia.
  - intros x y Hx Hy. change (width blockImage) with 7%nat in *.
    change (height blockImage) with 7%nat in *.
    assert (Hall : forallb (λ y', forallb (λ x',
              Bool.eqb (isLight (data (binarize blockImage 128)) ((y' * 7 + x') * 4))
                (negb ((1 <=? x')%nat && (x' <? 6)%nat
                       && (1 <=? y')%nat && (y' <? 6)%nat)))
              (seq 0 7)) (seq 0 7) = true) by (vm_compute; reflexivity).
    rewrite forallb_forall in Hall.
    specialize (Hall y ltac:(apply in_seq; lia)).
    rewrite forallb_forall in Hall.
    specialize (Hall x ltac:(apply in_seq; lia)).
    apply eqb_prop in Hall. rewrite Hall.
    destruct (Nat.leb_spec 1 x), (Nat.ltb_spec x 6), (Nat.leb_spec 1 y),
      (Nat.ltb_spec y 6); simpl; split; intros; try lia; try discriminate;
      reflexivity.
Defined.


(** ** The output of [binarize] *)

(** Sample [c] of quadruple [k]. *)
Lemma quad_div (k c : nat) : (c < 4)%nat → ((4 * k + c) / 4 = k)%nat.
Proof. intros Hc. symmetry. apply Nat.div_unique with (r := c); lia. Qed.

Lemma quad_mod (k c : nat) : (c < 4)%nat → ((4 * k + c) mod 4 = c)%nat.
Proof. intros Hc. symmetry. apply Nat.mod_unique with (q := k); lia. Qed.

Lemma quad_div_0 (k : nat) : ((4 * k) / 4 = k)%nat.
Proof. pose proof (quad_div k 0 ltac:(lia)) as H. rewrite Nat.add_0_r in H. exact H. Qed.

Lemma quad_mod_0 (k : nat) : ((4 * k) mod 4 = 0)%nat.
Proof. pose proof (quad_mod k 0 ltac:(lia)) as H. rewrite Nat.add_0_r in H. exact H. Qed.

(** One turn of the loop leaves the length alone. *)
Lemma binarizeStep_length d threshold out k :
  length (binarizeStep d threshold out k) = length out.
Proof. unfold binarizeStep. rewrite !length_insert. reflexivity. Qed.

(** After [n] turns every sample of the first [n] quadruples is written:
    the colour samples with the pixel's value, the alpha sample with 255;
    the others still hold the initial 0. *)
Lemma binarizeLoop_lookup d threshold (n j : nat) :
  (j < length d)%nat →
  foldl (binarizeStep d threshold) (replicate (length d) 0) (seq 0 n) !! j =
  Some (if decide (j < 4 * n)%nat
        then if decide (j mod 4 = 3)%nat then 255
             else binarizeValue d threshold (4 * (j / 4))
        else 0).
Proof.
  intros Hj.
  refine (proj2 (foldl_seq_invariant
    (λ n out, length out = length d ∧
       out !! j = Some (if decide (j < 4 * n)%nat
                        then if decide (j mod 4 = 3)%nat then 255
                             else binarizeValue d threshold (4 * (j / 4))
                        else 0)) _ n _ _ _)).
  - split; [apply length_replicate|].
    rewrite lookup_replicate_2 by exact Hj. reflexivity.
  - intros i out _ [Hlen Hout]. split.
    { rewrite binarizeStep_length. exact Hlen. }
    unfold binarizeStep. cbv zeta.
    destruct (decide (j < 4 * i)%nat) as [Hlt|Hge].
    + rewrite !list_lookup_insert_ne by lia. rewrite Hout.
      destruct (decide (j < 4 * S i)%nat); [reflexivity | lia].
    + destruct (decide (j < 4 * S i)%nat) as [Hlt'|Hge'].
      * assert (Hc : ∃ c, (j = 4 * i + c ∧ c < 4)%nat)
          by (exists (j - 4 * i)%nat; lia).
        destruct Hc as (c & -> & Hc).
        rewrite quad_div, quad_mod by exact Hc.
        destruct (decide (c = 3)%nat) as [->|H3].
        { rewrite list_lookup_insert_eq by (rewrite !length_insert; lia).
          reflexivity. }
        rewrite list_lookup_insert_ne by lia.
        destruct (decide (c = 2)%nat) as [->|H2].
        { rewrite list_lookup_insert_eq by (rewrite !length_insert; lia).
          reflexivity. }
        rewrite list_lookup_insert_ne by lia.
        destruct (decide (c = 1)%nat) as [->|H1].
        { rewrite list_lookup_insert_eq by (rewrite !length_insert; lia).
          reflexivity. }
        rewrite list_lookup_insert_ne by lia.
        assert (c = 0)%nat as -> by lia. rewrite Nat.add_0_r in *.
        rewrite list_lookup_insert_eq by lia. reflexivity.
      * rewrite !list_lookup_insert_ne by lia. exact Hout.
Qed.

Lemma binarize_length img threshold :
  length (data (binarize img threshold)) = length (data img).
Proof.
  unfold binarize. cbn [data].
  apply (foldl_seq_invariant (λ _ out, length out = length (data img))).
  - apply length_replicate.
  - intros i s _ Hs. rewrite binarizeStep_length. exact Hs.
Qed.

(** Every sample of the output: alpha is 255, a colour sample is the value
    of its pixel. *)
Lemma binarize_lookup img threshold (j : nat) :
  (j < length (data img))%nat →
  data (binarize img threshold) !! j =
  Some (if decide (j mod 4 = 3)%nat then 255
        else binarizeValue (data img) threshold (4 * (j / 4))).
Proof.
  intros Hj. unfold binarize. cbn [data].
  rewrite binarizeLoop_lookup by exact Hj.
  destruct (decide (j < _)%nat) as [_|Hn]; [reflexivity|].
  exfalso. apply Hn.
  pose proof (Z.div_mod (Z.of_nat (length (data img)) + 3) 4 ltac:(lia)) as Hdm.
  pose proof (Z.mod_pos_bound (Z.of_nat (length (data img)) + 3) 4 ltac:(lia)).
  apply Nat2Z.inj_lt. rewrite Nat2Z.inj_mul, Nat2Z.inj_div, Nat2Z.inj_add.
  simpl Z.of_nat. lia.
Qed.

Lemma binarizeValue_cases d threshold i :
  binarizeValue d threshold i = 0 ∨ binarizeValue d threshold i = 255.
Proof.
  unfold binarizeValue.
  destruct (d !! i); [|right; reflexivity].
  destruct (d !! (i + 1)%nat); [|right; reflexivity].
  destruct (d !! (i + 2)%nat); [|right; reflexivity].
  destruct (nlt _ _); [left | right]; reflexivity.
Qed.

(** The lumas of black and of white, as computed: 0 and 255. *)
Lemma luma_black : luma 0 0 0 = Fin 0.
Proof. vm_compute. reflexivity. Qed.

Lemma luma_white : ∃ q, luma 255 255 255 = Fin q ∧ (q == 255)%Q.
Proof. eexists. split; [vm_compute; reflexivity | reflexivity]. Qed.

(** The value of a pixel of a binarized image, binarized again. *)
Lemma binarizeValue_binarize img threshold threshold' (k : nat) :
  (0 < threshold')%Q → (threshold' <= 255)%Q →
  binarizeValue (data (binarize img threshold)) threshold' (4 * k) =
  binarizeValue (data img) threshold (4 * k).
Proof.
  intros Hlo Hhi.
  set (d := data img). set (out := data (binarize img threshold)).
  assert (Hlen : length out = length d) by apply binarize_length.
  assert (Hout : ∀ c, (c < 3)%nat → (4 * k + c < length d)%nat →
            out !! (4 * k + c)%nat = Some (binarizeValue d threshold (4 * k))).
  { intros c Hc Hlt. unfold out. rewrite binarize_lookup by exact Hlt.
    rewrite quad_div, quad_mod by lia. rewrite decide_False by lia. reflexivity. }
  destruct (decide (4 * k + 2 < length d)%nat) as [Hin|Hout'].
  - unfold binarizeValue at 1.
    replace (4 * k)%nat with (4 * k + 0)%nat at 1 by lia.
    rewrite (Hout 0%nat), (Hout 1%nat), (Hout 2%nat) by lia.
    destruct (binarizeValue_cases d threshold (4 * k)) as [-> | ->].
    + rewrite luma_black. cbn [nlt].
      destruct (Qlt_le_dec _ _) as [_|Hle]; [reflexivity | exfalso; lra].
    + destruct luma_white as (q & -> & Hq). cbn [nlt].
      destruct (Qlt_le_dec _ _) as [Hlt|_]; [exfalso; lra | reflexivity].
  - assert (Hnone : d !! (4 * k + 2)%nat = None) by (apply lookup_ge_None; lia).
    assert (Hnone' : out !! (4 * k + 2)%nat = None)
      by (apply lookup_ge_None; lia).
    unfold binarizeValue. rewrite Hnone, Hnone'.
    destruct (out !! (4 * k)%nat), (out !! (4 * k + 1)%nat),
      (d !! (4 * k)%nat), (d !! (4 * k + 1)%nat); reflexivity.
Qed.

(** X2.  [binarize] returns an image of the same dimensions and the same
    number of samples, in which every colour sample is 0 or 255, the three
    colour samples of a pixel are equal, and every alpha sample is 255. *)
Theorem binarize_two_levels (img : ImageData) (threshold : Q) :
  width (binarize img threshold) = width img ∧
  height (binarize img threshold) = height img ∧
  length (data (binarize img threshold)) = length (data img) ∧
  ∀ (k c : nat), (c < 4)%nat → (4 * k + c < length (data img))%nat →
    ∃ v, data (binarize img threshold) !! (4 * k + c)%nat = Some v ∧
         (c = 3%nat → v = 255) ∧
         (c ≠ 3%nat → (v = 0 ∨ v = 255) ∧
            data (binarize img threshold) !! (4 * k)%nat = Some v).
Proof.
  split_and!; [reflexivity | reflexivity | apply binarize_length |].
  intros k c Hc Hlt.
  rewrite binarize_lookup by exact Hlt. rewrite quad_div, quad_mod by exact Hc.
  eexists. split; [reflexivity|]. split.
  - intros ->. reflexivity.
  - intros Hc3. rewrite decide_False by exact Hc3.
    split; [apply binarizeValue_cases|].
    rewrite binarize_lookup by lia.
    rewrite quad_div_0, quad_mod_0. rewrite decide_False by lia.
    reflexivity.
Qed.

(** X3.  Binarizing a binarized image again, at any threshold above 0 and
    at most 255, changes nothing: in particular the binarization at 128 with
    which [connectedComponentAnalysis] and [segmentByProjection] start leaves
    the output of [otsuBinarize] as it is. *)
Theorem binarize_idempotent (img : ImageData) (threshold threshold' : Q) :
  (0 < threshold')%Q → (threshold' <= 255)%Q →
  binarize (binarize img threshold) threshold' = binarize img threshold.
Proof.
  intros Hlo Hhi.
  assert (Hd : data (binarize (binarize img threshold) threshold') =
               data (binarize img threshold)).
  { apply list_eq. intros j.
    destruct (decide (j < length (data img))%nat) as [Hj|Hj].
    - rewrite binarize_lookup by (rewrite binarize_length; exact Hj).
      rewrite binarize_lookup by exact Hj.
      rewrite binarizeValue_binarize by assumption. reflexivity.
    - rewrite !(proj2 (lookup_ge_None _ _)); [reflexivity | |];
        rewrite ?binarize_length; lia. }
  unfold binarize at 1. unfold binarize at 1 in Hd. cbn [data] in Hd.
  rewrite Hd. destruct (binarize img threshold); reflexivity.
Qed.

Lemma binarize_idempotent_witness :
  binarize (binarize blockImage 100) 128 = binarize blockImage 100.
Proof. apply binarize_idempotent; [reflexivity | discriminate]. Defined.

(** ** The entries of the projection profile *)

(** Foreground pixels of row [y]. *)
Definition rowCount (img : ImageData) (y : nat) : Z :=
  rowPrefixCount img y (width img).

(** Foreground pixels of column [x] within the first [rows] rows. *)
Definition colPrefixCount (img : ImageData) (x rows : nat) : Z :=
  Z.of_nat (length (filter (λ y, isDark (data img) ((y * width img + x) * 4) = true)
                           (seq 0 rows))).

Definition colCount (img : ImageData) (x : nat) : Z :=
  colPrefixCount img x (height img).

Lemma colPrefixCount_S img x y :
  colPrefixCount img x (S y) =
  colPrefixCount img x y +
  (if isDark (data img) ((y * width img + x) * 4) then 1 else 0).
Proof.
  unfold colPrefixCount. rewrite seq_S, filter_app, length_app.
  simpl. rewrite filter_cons, filter_nil.
  destruct (isDark _ _) eqn:E.
  - rewrite decide_True by reflexivity. simpl. lia.
  - rewrite decide_False by discriminate. simpl. lia.
Qed.

(** Invariant of the inner loop in row [y], after [x] columns. *)
Definition entryInv (img : ImageData) (y x : nat) (st : list Z * list Z) : Prop :=
  (∀ y', (y' < height img)%nat →
     st.1 !! y' = Some (if decide (y' < y)%nat then rowCount img y'
                        else if decide (y' = y) then rowPrefixCount img y x
                        else 0)) ∧
  (∀ x', (x' < width img)%nat →
     st.2 !! x' = Some (if decide (x' < x)%nat then colPrefixCount img x' (S y)
                        else colPrefixCount img x' y)).

Ltac split_decides :=
  repeat match goal with
         | |- context [decide ?P] => destruct (decide P); try lia
         end.

Lemma projectionStep_entries img y x st :
  (y < height img)%nat → (x < width img)%nat →
  entryInv img y x st → entryInv img y (S x) (projectionStep img y st x).
Proof.
  intros Hy Hx [Hh Hv]. unfold projectionStep.
  split.
  - intros y' Hy'. rewrite rowPrefixCount_S.
    destruct (isDark _ _) eqn:Hd; cbn [fst].
    + destruct (decide (y' = y)) as [->|Hne].
      * rewrite list_lookup_alter_eq, (Hh y Hy). cbn.
        split_decides. f_equal; lia.
      * rewrite list_lookup_alter_ne by congruence. rewrite (Hh y' Hy').
        split_decides; reflexivity.
    + rewrite (Hh y' Hy'). split_decides; try reflexivity. f_equal; lia.
  - intros x' Hx'.
    destruct (isDark _ _) eqn:Hd; cbn [snd].
    + destruct (decide (x' = x)) as [->|Hne].
      * rewrite list_lookup_alter_eq, (Hv x Hx). cbn.
        split_decides. rewrite colPrefixCount_S, Hd. f_equal; lia.
      * rewrite list_lookup_alter_ne by congruence. rewrite (Hv x' Hx').
        split_decides; reflexivity.
    + rewrite (Hv x' Hx'). split_decides; try reflexivity.
      assert (x' = x) as -> by lia.
      rewrite colPrefixCount_S, Hd. f_equal; lia.
Qed.

Lemma projectionRow_entries img y st :
  (y < height img)%nat →
  entryInv img y 0 st → entryInv img (S y) 0 (projectionRow img st y).
Proof.
  intros Hy Hst.
  assert (H : entryInv img y (width img) (projectionRow img st y)).
  { unfold projectionRow.
    apply (foldl_seq_invariant (λ x s, entryInv img y x s)); [exact Hst|].
    intros x s Hx. apply projectionStep_entries; assumption. }
  destruct H as [Hh Hv]. split.
  - intros y' Hy'. rewrite (Hh y' Hy').
    split_decides; try reflexivity; subst; try lia; reflexivity.
  - intros x' Hx'. rewrite (Hv x' Hx'). split_decides; reflexivity.
Qed.

Lemma projectionLoop_entries (img : ImageData) :
  entryInv img (height img) 0
    (foldl (projectionRow img)
       (replicate (height img) 0, replicate (width img) 0)
       (seq 0 (height img))).
Proof.
  apply (foldl_seq_invariant (λ y s, entryInv img y 0 s)).
  - split; cbn [fst snd].
    + intros y' Hy'. rewrite lookup_replicate_2 by exact Hy'.
      split_decides; reflexivity.
    + intros x' Hx'. rewrite lookup_replicate_2 by exact Hx'.
      split_decides; reflexivity.
  - intros y s Hy. apply projectionRow_entries. exact Hy.
Qed.

(** X4.  Entry [y] of the horizontal projection is the number of
    foreground pixels of row [y], and entry [x] of the vertical projection
    is the number of foreground pixels of column [x]. *)
Theorem calculateProjection_entries (img : ImageData) :
  (∀ y, (y < height img)%nat →
     horizontal (calculateProjection img) !! y = Some (rowCount img y)) ∧
  (∀ x, (x < width img)%nat →
     vertical (calculateProjection img) !! x = Some (colCount img x)).
Proof.
  destruct (projectionLoop_entries img) as [Hh Hv].
  unfold calculateProjection. cbn [horizontal vertical].
  split.
  - intros y Hy. rewrite (Hh y Hy). split_decides; reflexivity.
  - intros x Hx. rewrite (Hv x Hx). split_decides; reflexivity.
Qed.

(** ** The ranges of [findRanges] *)

(** The ranges follow one another: each ends before the next starts. *)
Definition ordered (rs : list Range) : Prop :=
  ∀ a b r1 r2, (a < b)%nat → rs !! a = Some r1 → rs !! b = Some r2 →
    (end_ r1 < start r2)%nat.

Lemma ordered_snoc rs r :
  ordered rs → (∀ r', r' ∈ rs → (end_ r' < start r)%nat) → ordered (rs ++ [r]).
Proof.
  intros Hord Hlast a b r1 r2 Hab Ha Hb.
  assert (Hb' : (b < length (rs ++ [r]))%nat) by (eapply lookup_lt_Some; exact Hb).
  rewrite length_app in Hb'. simpl in Hb'.
  assert (Ha' : rs !! a = Some r1) by (rewrite lookup_app_l in Ha by lia; exact Ha).
  destruct (decide (b < length rs)%nat) as [Hlt|Hge].
  - rewrite lookup_app_l in Hb by exact Hlt. exact (Hord a b r1 r2 Hab Ha' Hb).
  - rewrite lookup_app_r in Hb by lia.
    replace (b - length rs)%nat with 0%nat in Hb by lia. injection Hb as <-.
    apply Hlast. eapply list_elem_of_lookup_2. exact Ha'.
Qed.

(** A closed range starts at a positive entry and ends at one that is not
    positive. *)
Definition closedRange (projection : list Z) (r : Range) : Prop :=
  (start r < end_ r)%nat ∧
  (∃ v, projection !! start r = Some v ∧ v > 0) ∧
  (∃ v, projection !! end_ r = Some v ∧ v ≤ 0).

Definition rangesInv (projection : list Z) (i : nat) (st : RangeScan) : Prop :=
  (∀ r, r ∈ ranges st → closedRange projection r ∧ (end_ r < i)%nat) ∧
  ordered (ranges st) ∧
  (inRange st = true →
     (scanStart st < i)%nat ∧
     (∃ v, projection !! scanStart st = Some v ∧ v > 0) ∧
     ∀ r, r ∈ ranges st → (end_ r < scanStart st)%nat).

Lemma findRangesStep_ranges projection minGap i st :
  (i < length projection)%nat →
  rangesInv projection i st →
  rangesInv projection (S i) (findRangesStep projection minGap st i).
Proof.
  intros Hi (Hr & Hord & Ho). unfold findRangesStep.
  destruct (projection !! i) as [v|] eqn:Hv.
  2:{ apply lookup_ge_None in Hv. lia. }
  assert (Hr' : ∀ r, r ∈ ranges st → closedRange projection r ∧ (end_ r < S i)%nat).
  { intros r Hrin. destruct (Hr r Hrin). split; [assumption | lia]. }
  case_bool_decide as Hpos.
  - destruct (inRange st) eqn:Hin.
    + destruct (Ho eq_refl) as (Hs & Hsv & Hse).
      split_and!; [exact Hr' | exact Hord |].
      intros _. split_and!; [lia | exact Hsv | exact Hse].
    + split_and!; [exact Hr' | exact Hord |]. cbn.
      intros _. split_and!; [lia | exists v; split; [exact Hv | exact Hpos] |].
      intros r Hrin. destruct (Hr r Hrin). lia.
  - destruct (inRange st) eqn:Hin.
    + destruct (Ho eq_refl) as (Hs & Hsv & Hse). destruct (_ || _).
      * split_and!; cbn.
        -- intros r [Hrin | Hrin]%elem_of_app; [apply Hr'; exact Hrin|].
           apply list_elem_of_singleton in Hrin. subst r. cbn.
           split; [|lia]. split_and!; cbn; [exact Hs | exact Hsv |].
           exists v. split; [exact Hv | lia].
        -- apply ordered_snoc; [exact Hord | exact Hse].
        -- discriminate.
      * split_and!; [exact Hr' | exact Hord |]. rewrite Hin.
        intros _. split_and!; [lia | exact Hsv | exact Hse].
    + split_and!; [exact Hr' | exact Hord |]. rewrite Hin. discriminate.
Qed.

Lemma findRangesLoop_ranges projection minGap n :
  (n ≤ length projection)%nat →
  rangesInv projection n (findRangesLoop projection minGap n).
Proof.
  intros Hn. unfold findRangesLoop.
  apply (foldl_seq_invariant (rangesInv projection)).
  - split_and!; cbn; [| |discriminate].
    + intros r Hr. apply elem_of_nil in Hr. contradiction.
    + intros a b r1 r2 _ Ha. rewrite lookup_nil in Ha. discriminate.
  - intros i s Hi. apply findRangesStep_ranges. lia.
Qed.

(** X5.  The ranges [findRanges] returns are well formed: each is
    non-empty, lies within the array and starts at a positive entry; each
    ends at an entry that is not positive or at the array end; and they
    follow one another without overlap, each ending before the next
    starts. *)
Theorem findRanges_well_formed (projection : list Z) (minGap : Z) :
  (∀ r, r ∈ findRanges projection minGap →
     (start r < end_ r ≤ length projection)%nat ∧
     (∃ v, projection !! start r = Some v ∧ v > 0) ∧
     (end_ r = length projection ∨
      ∃ v, projection !! end_ r = Some v ∧ v ≤ 0)) ∧
  ordered (findRanges projection minGap).
Proof.
  pose proof (findRangesLoop_ranges projection minGap (length projection)
                ltac:(lia)) as (Hr & Hord & Ho).
  assert (Hclosed : ∀ r, r ∈ ranges (findRangesLoop projection minGap (length projection)) →
            (start r < end_ r ≤ length projection)%nat ∧
            (∃ v, projection !! start r = Some v ∧ v > 0) ∧
            (end_ r = length projection ∨
             ∃ v, projection !! end_ r = Some v ∧ v ≤ 0)).
  { intros r Hrin. destruct (Hr r Hrin) as [(Hlt & Hs & He) Hend].
    split_and!; [lia | lia | exact Hs | right; exact He]. }
  unfold findRanges.
  destruct (inRange _) eqn:Hin; [|split; assumption].
  destruct (Ho eq_refl) as (Hs & Hsv & Hse). split.
  - intros r [Hrin | Hrin]%elem_of_app; [apply Hclosed; exact Hrin|].
    apply list_elem_of_singleton in Hrin. subst r. cbn.
    split_and!; [exact Hs | lia | exact Hsv | left; reflexivity].
  - apply ordered_snoc; [exact Hord | exact Hse].
Qed.

(** ** The components of [connectedComponentAnalysis] *)

(** A bounding box lies within the [w] x [h] image. *)
Definition boxWithin (w h : nat) (b : Box) : Prop :=
  (minX b ≤ maxX b < w ∧ minY b ≤ maxY b < h)%nat.

Lemma growBox_within w h label x y boxes :
  (x < w)%nat → (y < h)%nat →
  Forall (λ e : Z * Box, boxWithin w h e.2) boxes →
  Forall (λ e : Z * Box, boxWithin w h e.2) (growBox label x y boxes).
Proof.
  intros Hx Hy. induction 1 as [|[l b] boxes Hb Hrest IH]; [constructor|].
  cbn [growBox]. destruct (bool_decide (l = label)).
  - constructor; [|assumption]. unfold boxWithin in *. cbn in *. lia.
  - constructor; assumption.
Qed.

Lemma boxPixel_within w h finalLabels y boxes x :
  (x < w)%nat → (y < h)%nat →
  Forall (λ e : Z * Box, boxWithin w h e.2) boxes →
  Forall (λ e : Z * Box, boxWithin w h e.2) (boxPixel w finalLabels y boxes x).
Proof.
  intros Hx Hy Hb. unfold boxPixel.
  destruct (finalLabels !! _) as [label|]; [|exact Hb].
  destruct (bool_decide (label ≠ -1)); [|exact Hb].
  destruct (boxOf label boxes).
  - apply growBox_within; assumption.
  - apply Forall_app. split; [exact Hb|].
    constructor; [|constructor]. unfold boxWithin. cbn. lia.
Qed.

Lemma boundingBoxes_within w h finalLabels :
  Forall (λ e : Z * Box, boxWithin w h e.2) (boundingBoxes w h finalLabels).
Proof.
  unfold boundingBoxes.
  apply (foldl_seq_invariant
           (λ _ boxes, Forall (λ e : Z * Box, boxWithin w h e.2) boxes)).
  - constructor.
  - intros y boxes Hy Hb.
    apply (foldl_seq_invariant
             (λ _ boxes, Forall (λ e : Z * Box, boxWithin w h e.2) boxes));
      [exact Hb|].
    intros x boxes' Hx Hb'. apply boxPixel_within; assumption.
Qed.

Lemma flat_map_length_uniform {A B} (f : A → list B) (n : nat) (l : list A) :
  (∀ a, length (f a) = n) → length (flat_map f l) = (length l * n)%nat.
Proof.
  intros Hf. induction l as [|a l IH]; [reflexivity|].
  cbn [flat_map]. rewrite length_app, Hf, IH. simpl. lia.
Qed.

Lemma charData_length w finalLabels label box cw ch :
  length (charData w finalLabels label box cw ch) = (4 * cw * ch)%nat.
Proof.
  unfold charData.
  rewrite (flat_map_length_uniform _ (cw * 4)), length_seq; [lia|].
  intros y. rewrite (flat_map_length_uniform _ 4), length_seq; [lia|].
  intros x. destruct (bool_decide _); reflexivity.
Qed.

Lemma Forall_flat_map_intro {A B} (P : B → Prop) (f : A → list B) (l : list A) :
  (∀ a, Forall P (f a)) → Forall P (flat_map f l).
Proof.
  intros Hf. induction l as [|a l IH]; [constructor|].
  cbn [flat_map]. apply Forall_app. split; [apply Hf | exact IH].
Qed.

Lemma charData_two_levels w finalLabels label box cw ch :
  Forall (λ v, v = 0 ∨ v = 255) (charData w finalLabels label box cw ch).
Proof.
  unfold charData. apply Forall_flat_map_intro. intros y.
  apply Forall_flat_map_intro. intros x.
  destruct (bool_decide _); rewrite !Forall_cons, Forall_nil; split_and!; auto.
Qed.

(** A returned component is well formed and lies within the image. *)
Definition componentWithin (w h : nat) (c : SegmentedChar) : Prop :=
  (charX c + charWidth c ≤ w)%nat ∧ (charY c + charHeight c ≤ h)%nat ∧
  width (charImage c) = charWidth c ∧ height (charImage c) = charHeight c ∧
  length (data (charImage c)) = (4 * charWidth c * charHeight c)%nat ∧
  Forall (λ v, v = 0 ∨ v = 255) (data (charImage c)).

(** X6.  Every component [connectedComponentAnalysis] returns, for any
    image, lies within the image; its bitmap has the dimensions of its
    bounding box, four samples for each of its pixels, and only the samples
    0 and 255. *)
Theorem connectedComponentAnalysis_within (ctx : bool) (img : ImageData) :
  Forall (componentWithin (width img) (height img))
         (connectedComponentAnalysis ctx img).
Proof.
  unfold connectedComponentAnalysis.
  change (width (binarize img 128)) with (width img).
  change (height (binarize img 128)) with (height img).
  set (finalLabels := secondPass _).
  pose proof (boundingBoxes_within (width img) (height img) finalLabels) as Hb.
  induction Hb as [|[label box] boxes Hbox _ IH]; [constructor|].
  cbn [flat_map]. apply Forall_app. split; [|exact IH].
  unfold extractChar. cbn [fst snd].
  destruct (_ || _); [constructor|]. destruct ctx; [|constructor].
  constructor; [|constructor].
  destruct Hbox as [Hx Hy]. cbn [snd] in Hx, Hy.
  unfold componentWithin. cbn.
  split_and!; [lia | lia | reflexivity | reflexivity | | ].
  - apply charData_length.
  - apply charData_two_levels.
Qed.

(** *** A page without ink *)

Lemma foldl_unchanged {A B} (f : A → B → A) (s : A) (l : list B) :
  (∀ b, b ∈ l → f s b = s) → foldl f s l = s.
Proof.
  induction l as [|b l IH]; intros Hf; [reflexivity|].
  cbn [foldl]. rewrite (Hf b) by left. apply IH.
  intros b' Hb'. apply Hf. right. exact Hb'.
Qed.

(** Pixel [p] of the image is paper: its luma, as the source computes it,
    is not below 128. *)
Definition paper (img : ImageData) (p : nat) : Prop :=
  ∃ r g b, data img !! (4 * p)%nat = Some r ∧
           data img !! (4 * p + 1)%nat = Some g ∧
           data img !! (4 * p + 2)%nat = Some b ∧
           nlt (luma r g b) (Fin 128) = false.

(** The luma computed for the grey of level 128 is the double just below
    128, so such a pixel is ink; the grey of level 129 is paper. *)
Lemma luma_grey_128 :
  nlt (luma 128 128 128) (Fin 128) = true ∧
  nlt (luma 129 129 129) (Fin 128) = false.
Proof. split; vm_compute; reflexivity. Qed.

Lemma binarize_paper img p :
  paper img p → isLight (data (binarize img 128)) (p * 4) = true.
Proof.
  intros (r & g & b & Hr & Hg & Hb & Hl).
  assert (Hlt : (4 * p < length (data img))%nat) by (eapply lookup_lt_Some; exact Hr).
  unfold isLight. replace (p * 4)%nat with (4 * p)%nat by lia.
  rewrite binarize_lookup by exact Hlt.
  rewrite quad_div_0, quad_mod_0. rewrite decide_False by lia.
  unfold binarizeValue. rewrite Hr, Hg, Hb, Hl.
  apply bool_decide_eq_true_2. lia.
Qed.

Lemma pixel_in_image (w h x y : nat) :
  (x < w)%nat → (y < h)%nat → (y * w + x < w * h)%nat.
Proof. intros Hx Hy. nia. Qed.

Lemma firstPass_blank bin :
  (∀ p, (p < width bin * height bin)%nat → isLight (data bin) (p * 4) = true) →
  labels (firstPass bin) = replicate (width bin * height bin) (-1).
Proof.
  intros Hlight. unfold firstPass. rewrite foldl_unchanged; [reflexivity|].
  intros y Hy%elem_of_seq. apply foldl_unchanged.
  intros x Hx%elem_of_seq. unfold labelPixel. cbv zeta.
  rewrite Hlight; [reflexivity|]. apply pixel_in_image; lia.
Qed.

Lemma boundingBoxes_blank w h (finalLabels : list Z) :
  Forall (λ l, l = -1) finalLabels → boundingBoxes w h finalLabels = [].
Proof.
  intros Hall. unfold boundingBoxes. apply foldl_unchanged.
  intros y _. apply foldl_unchanged. intros x _. unfold boxPixel.
  destruct (finalLabels !! _) as [label|] eqn:E; [|reflexivity].
  rewrite Forall_lookup in Hall. rewrite (Hall _ _ E). reflexivity.
Qed.

(** X7.  On an image all of whose pixels have a luma that the source
    computes as not below 128 (a page without ink)
    [connectedComponentAnalysis] returns no component. *)
Theorem connectedComponentAnalysis_blank (ctx : bool) (img : ImageData) :
  (∀ p, (p < width img * height img)%nat → paper img p) →
  connectedComponentAnalysis ctx img = [].
Proof.
  intros Hpaper. unfold connectedComponentAnalysis.
  rewrite boundingBoxes_blank; [reflexivity|].
  unfold secondPass. rewrite firstPass_blank.
  - apply Forall_fmap, Forall_replicate. reflexivity.
  - intros p Hp. apply binarize_paper, Hpaper. exact Hp.
Qed.

(** A blank 2x2 page. *)
Definition blankImage : ImageData :=
  {| data := replicate 16 255; width := 2; height := 2 |}.

Lemma blankImage_paper (p : nat) :
  (p < width blankImage * height blankImage)%nat → paper blankImage p.
Proof.
  intros Hp. exists 255, 255, 255. cbn in Hp.
  do 4 (destruct p as [|p]; [split_and!; vm_compute; reflexivity|]).
  lia.
Qed.

Lemma connectedComponentAnalysis_blank_witness :
  connectedComponentAnalysis true blankImage = [].
Proof. apply connectedComponentAnalysis_blank. exact blankImage_paper. Defined.

(** ** CharSegmentation.segmentByProjection *)

(** [calculateBlackPixelRatio]: the loop
    [for (i = 0; i < data.length; i += 4) if (data[i] < 128) blackCount++]
    and [blackCount / (data.length / 4)]. *)
Definition blackCount (d : list Z) : Z :=
  foldl (λ count k, if isDark d (4 * k) then count + 1 else count)
        0 (seq 0 ((length d + 3) / 4)).

Definition calculateBlackPixelRatio (img : ImageData) : num :=
  ndiv (ofZ (blackCount (data img)))
       (Fin (inject_Z (Z.of_nat (length (data img))) / 4)).

(** The inner loop of a row: the foreground pixels of column [x] within the
    rows of [row]. *)
Definition columnInk (binary : ImageData) (w : nat) (row : Range) (x : nat) : Z :=
  foldl (λ count y,
           if isDark (data binary) ((y * w + x) * 4) then count + 1 else count)
        0 (seq (start row) (end_ row - start row)).

(** [rowVertical]: a copy of [vertical] in which entry [x] is overwritten
    for every [x < width].  [vertical] has [width] entries, so no write
    falls past its end. *)
Definition rowVertical (binary : ImageData) (w : nat) (vertical : list Z)
    (row : Range) : list Z :=
  foldl (λ rv x, <[x := columnInk binary w row x]> rv) vertical (seq 0 w).

Section Projection.

(** The canvas.  [canvasRegion binary x y w h] is what
    [ctx.getImageData(0, 0, w, h)] reads back from the [w] x [h] canvas onto
    which the region at [(x, y)] of [binary] was drawn, and [None] when the
    canvas gives no context. *)
Variable canvasRegion : ImageData → nat → nat → nat → nat → option ImageData.

(** Body of [for (const col of colRanges)]. *)
Definition segmentColumn (binary : ImageData) (minCharWidth : Q)
    (row col : Range) : list SegmentedChar :=
  if Qlt_le_dec (inject_Z (Z.of_nat (end_ col) - Z.of_nat (start col)))
                minCharWidth
  then []
  else
    let charWidth := (end_ col - start col)%nat in
    let charHeight := (end_ row - start row)%nat in
    match canvasRegion binary (start col) (start row) charWidth charHeight with
    | Some charImageData =>
        let blackPixelRatio := calculateBlackPixelRatio charImageData in
        if ngt blackPixelRatio (Fin 0.05) && nlt blackPixelRatio (Fin 0.95)
        then [ {| charX := start col; charY := start row;
                  charWidth := charWidth; charHeight := charHeight;
                  charImage := charImageData |} ]
        else []
    | None => []
    end.

(** Body of [for (const row of rowRanges)]. *)
Definition segmentRow (binary : ImageData) (w : nat) (vertical : list Z)
    (minCharWidth minCharHeight : Q) (row : Range) : list SegmentedChar :=
  if Qlt_le_dec (inject_Z (Z.of_nat (end_ row) - Z.of_nat (start row)))
                minCharHeight
  then []
  else
    let colRanges := findRanges (rowVertical binary w vertical row) 1 in
    flat_map (segmentColumn binary minCharWidth row) colRanges.

Definition segmentByProjection (img : ImageData)
    (minCharWidth minCharHeight : Q) : list SegmentedChar :=
  let binary := binarize img 128 in
  let profile := calculateProjection binary in
  let rowRanges := findRanges (horizontal profile) 1 in
  flat_map (segmentRow binary (width img) (vertical profile)
                       minCharWidth minCharHeight)
           rowRanges.

End Projection.

(** A canvas that copies the region, and a page with one 12x12 blot of
    which the upper half is ink. *)
Definition copyRegion (binary : ImageData) (x y w h : nat) : option ImageData :=
  Some {| data := flat_map (λ r, flat_map (λ c,
                    take 4 (drop ((r * width binary + c) * 4) (data binary)))
                    (seq x w)) (seq y h);
          width := w; height := h |}.

Definition blotImage : ImageData :=
  {| data := flat_map (λ p : nat,
       if bool_decide (1 ≤ p `mod` 14 < 13 ∧ 1 ≤ p / 14 < 13 ∧
                       (p / 14 < 7 ∨ p `mod` 14 = 1))%nat
       then [0; 0; 0; 255] else [255; 255; 255; 255]) (seq 0 196);
     width := 14; height := 14 |}.

Example segmentByProjection_blot :
  (λ c, (charX c, charY c, charWidth c, charHeight c))
    <$> segmentByProjection copyRegion blotImage 10 10 = [(1, 1, 12, 12)%nat].
Proof. vm_compute. reflexivity. Qed.

(** *** The black pixel ratio *)

(** X8.  The black pixel ratio of a buffer of [n > 0] whole pixels is a
    number between 0 and 1. *)
Theorem calculateBlackPixelRatio_range (img : ImageData) (n : nat) :
  length (data img) = (4 * n)%nat → (0 < n)%nat →
  ∃ q, calculateBlackPixelRatio img = Fin q ∧ (0 <= q)%Q ∧ (q <= 1)%Q.
Proof.
  intros Hlen Hn. unfold calculateBlackPixelRatio.
  assert (Hc : 0 ≤ blackCount (data img) ≤ Z.of_nat n).
  { unfold blackCount. rewrite Hlen.
    replace ((4 * n + 3) / 4)%nat with n
      by (apply Nat.div_unique with (r := 3%nat); lia).
    apply (foldl_seq_invariant (λ k count, 0 ≤ count ≤ Z.of_nat k)); [lia|].
    intros k count _ Hk. destruct (isDark _ _); lia. }
  rewrite Hlen. set (c := blackCount (data img)) in *.
  assert (Hq : (inject_Z (Z.of_nat (4 * n)) / 4 == inject_Z (Z.of_nat n))%Q).
  { rewrite Nat2Z.inj_mul, inject_Z_mult. change (inject_Z (Z.of_nat 4)) with 4%Q.
    field. }
  assert (Hpos : (0 < inject_Z (Z.of_nat n))%Q).
  { rewrite <- (Zlt_Qlt 0). lia. }
  unfold ofZ, ndiv.
  destruct (Qeq_bool _ 0) eqn:E.
  { apply Qeq_bool_iff in E. rewrite Hq in E. rewrite E in Hpos.
    exfalso. apply (Qlt_irrefl 0). exact Hpos. }
  eexists. split; [reflexivity|]. rewrite Hq. split.
  - apply Qle_shift_div_l; [exact Hpos|]. rewrite Qmult_0_l.
    rewrite <- (Zle_Qle 0). lia.
  - apply Qle_shift_div_r; [exact Hpos|]. rewrite Qmult_1_l.
    rewrite <- Zle_Qle. lia.
Qed.

Lemma calculateBlackPixelRatio_range_witness :
  ∃ q, calculateBlackPixelRatio blankImage = Fin q ∧ (0 <= q)%Q ∧ (q <= 1)%Q.
Proof.
  apply (calculateBlackPixelRatio_range blankImage 4); [reflexivity | lia].
Defined.

(** *** The segments *)

Lemma calculateProjection_lengths (img : ImageData) :
  length (horizontal (calculateProjection img)) = height img ∧
  length (vertical (calculateProjection img)) = width img.
Proof.
  assert (H : projInv img (rowsCount img (height img))
                (foldl (projectionRow img)
                   (replicate (height img) 0, replicate (width img) 0)
                   (seq 0 (height img)))).
  { apply (foldl_seq_invariant (λ y s, projInv img (rowsCount img y) s)).
    - unfold projInv, rowsCount. simpl.
      rewrite !length_replicate, !sumZ_replicate_0. auto.
    - intros y s Hy. apply projectionRow_inv. exact Hy. }
  destruct H as (Hl1 & Hl2 & _). split; assumption.
Qed.

Lemma rowVertical_length binary w vertical row :
  length (rowVertical binary w vertical row) = length vertical.
Proof.
  unfold rowVertical.
  apply (foldl_seq_invariant (λ _ rv, length rv = length vertical));
    [reflexivity|].
  intros x rv _ Hrv. rewrite length_insert. exact Hrv.
Qed.

Lemma findRanges_bounds projection minGap r :
  r ∈ findRanges projection minGap →
  (start r < end_ r ≤ length projection)%nat.
Proof.
  pose proof (findRangesLoop_ranges projection minGap (length projection)
                ltac:(lia)) as (Hr & _ & Ho).
  unfold findRanges. destruct (inRange _) eqn:Hin.
  - intros [Hrin | Hrin]%elem_of_app.
    + destruct (Hr r Hrin) as [(Hlt & _) Hend]. lia.
    + apply list_elem_of_singleton in Hrin. subst r. cbn.
      destruct (Ho eq_refl) as (Hs & _). lia.
  - intros Hrin. destruct (Hr r Hrin) as [(Hlt & _) Hend]. lia.
Qed.

(** Without a positive entry there is no range. *)
Lemma findRanges_no_ink projection minGap :
  Forall (λ v, v ≤ 0) projection → findRanges projection minGap = [].
Proof.
  intros Hall.
  pose proof (findRangesLoop_ranges projection minGap (length projection)
                ltac:(lia)) as (Hr & _ & Ho).
  assert (Hnone : ∀ i v, projection !! i = Some v → v > 0 → False).
  { intros i v Hv Hpos. rewrite Forall_lookup in Hall.
    specialize (Hall i v Hv). cbn in Hall. lia. }
  unfold findRanges. destruct (inRange _) eqn:Hin.
  - destruct (Ho eq_refl) as (_ & (v & Hv & Hpos) & _).
    exfalso. exact (Hnone _ _ Hv Hpos).
  - destruct (ranges _) as [|r rs]; [reflexivity|].
    destruct (Hr r ltac:(left)) as [(_ & (v & Hv & Hpos) & _) _].
    exfalso. exact (Hnone _ _ Hv Hpos).
Qed.

Lemma Forall_flat_map_elem {A B} (P : B → Prop) (f : A → list B) (l : list A) :
  (∀ a, a ∈ l → Forall P (f a)) → Forall P (flat_map f l).
Proof.
  induction l as [|a l IH]; intros Hf; [constructor|].
  cbn [flat_map]. apply Forall_app. split; [apply Hf; left|].
  apply IH. intros a' Ha'. apply Hf. right. exact Ha'.
Qed.

(** A returned segment is large enough, lies within the image and has a
    black pixel ratio strictly between 0.05 and 0.95. *)
Definition segmentOk (img : ImageData) (minCharWidth minCharHeight : Q)
    (c : SegmentedChar) : Prop :=
  (minCharWidth <= inject_Z (Z.of_nat (charWidth c)))%Q ∧
  (minCharHeight <= inject_Z (Z.of_nat (charHeight c)))%Q ∧
  (0 < charWidth c ∧ charX c + charWidth c ≤ width img)%nat ∧
  (0 < charHeight c ∧ charY c + charHeight c ≤ height img)%nat ∧
  ngt (calculateBlackPixelRatio (charImage c)) (Fin 0.05) = true ∧
  nlt (calculateBlackPixelRatio (charImage c)) (Fin 0.95) = true.

(** X9.  Every segment [segmentByProjection] returns, for any image, any
    canvas and any minimum sizes, is at least [minCharWidth] wide and
    [minCharHeight] high, is not empty, lies within the image, and has a
    black pixel ratio strictly between 0.05 and 0.95. *)
Theorem segmentByProjection_segments
    (canvasRegion : ImageData → nat → nat → nat → nat → option ImageData)
    (img : ImageData) (minCharWidth minCharHeight : Q) :
  Forall (segmentOk img minCharWidth minCharHeight)
         (segmentByProjection canvasRegion img minCharWidth minCharHeight).
Proof.
  unfold segmentByProjection. cbv zeta.
  set (binary := binarize img 128).
  destruct (calculateProjection_lengths binary) as [Hlh Hlv].
  change (height binary) with (height img) in Hlh.
  change (width binary) with (width img) in Hlv.
  apply Forall_flat_map_elem. intros row Hrow.
  apply findRanges_bounds in Hrow. rewrite Hlh in Hrow.
  unfold segmentRow. destruct (Qlt_le_dec _ _) as [_|Hh]; [constructor|].
  cbv zeta. apply Forall_flat_map_elem. intros col Hcol.
  apply findRanges_bounds in Hcol. rewrite rowVertical_length, Hlv in Hcol.
  unfold segmentColumn. destruct (Qlt_le_dec _ _) as [_|Hw]; [constructor|].
  cbv zeta. destruct (canvasRegion _ _ _ _ _) as [charImageData|]; [|constructor].
  destruct (ngt _ _) eqn:Hlo; [|constructor].
  destruct (nlt _ _) eqn:Hhi; [|constructor].
  constructor; [|constructor].
  unfold segmentOk. cbn.
  rewrite !Nat2Z.inj_sub by lia.
  split_and!; try assumption; lia.
Qed.

Lemma filter_none {A} (P : A → Prop) `{∀ x, Decision (P x)} (l : list A) :
  Forall (λ x, ¬ P x) l → filter P l = [].
Proof.
  induction 1 as [|x l Hx _ IH]; [reflexivity|].
  rewrite filter_cons, decide_False by exact Hx. exact IH.
Qed.

Lemma isLight_not_dark (d : list Z) (i : nat) :
  isLight d i = true → isDark d i = false.
Proof.
  unfold isLight, isDark. destruct (d !! i); [|discriminate].
  intros H%bool_decide_eq_true. apply bool_decide_eq_false_2. lia.
Qed.

(** X10.  On a page without ink (the luma computed for every pixel is not below 128)
    [segmentByProjection] returns no segment, whatever the canvas does. *)
Theorem segmentByProjection_blank
    (canvasRegion : ImageData → nat → nat → nat → nat → option ImageData)
    (img : ImageData) (minCharWidth minCharHeight : Q) :
  (∀ p, (p < width img * height img)%nat → paper img p) →
  segmentByProjection canvasRegion img minCharWidth minCharHeight = [].
Proof.
  intros Hpaper. unfold segmentByProjection. cbv zeta.
  set (binary := binarize img 128).
  rewrite findRanges_no_ink; [reflexivity|].
  destruct (calculateProjection_lengths binary) as [Hlh _].
  destruct (projectionLoop_entries binary) as [Hh _].
  apply Forall_lookup. intros y v Hv.
  assert (Hy : (y < height binary)%nat).
  { rewrite <- Hlh. eapply lookup_lt_Some. exact Hv. }
  unfold calculateProjection in Hv. cbn [horizontal] in Hv.
  rewrite (Hh y Hy) in Hv. destruct (decide (y < height binary)%nat); [|lia].
  injection Hv as <-. unfold rowCount, rowPrefixCount.
  rewrite filter_none; [cbn; lia|].
  apply Forall_forall. intros p Hp%elem_of_seq.
  rewrite isLight_not_dark; [discriminate|].
  apply binarize_paper, Hpaper.
  change (width binary) with (width img) in *.
  change (height binary) with (height img) in *. nia.
Qed.

Lemma segmentByProjection_blank_witness :
  segmentByProjection copyRegion blankImage 10 10 = [].
Proof. apply segmentByProjection_blank. exact blankImage_paper. Defined.


(** *** No foreground pixel is lost *)

Lemma foldl_min_in (a : Z) (l : list Z) : foldl Z.min a l ∈ a :: l.
Proof.
  revert a. induction l as [|b l IH]; intros a; [left|].
  cbn [foldl]. specialize (IH (Z.min a b)).
  apply elem_of_cons in IH as [-> | Hin].
  - destruct (Z.min_spec a b) as [[_ ->] | [_ ->]]; [left | right; left].
  - right. right. exact Hin.
Qed.

Lemma listMin_in (l : list Z) : l ≠ [] → listMin l ∈ l.
Proof. destruct l as [|a l]; [congruence|]. intros _. apply foldl_min_in. Qed.

(** The label sets and the map onto them, with [cur] labels handed out:
    every label has an entry of [labelMap], every entry refers to a set, and
    every set is non-empty and holds labels handed out. *)
Definition setsInv (cur : nat) (ms : list nat * list (list Z)) : Prop :=
  length ms.1 = cur ∧
  Forall (λ s, (s < length ms.2)%nat) ms.1 ∧
  Forall (λ set, set ≠ [] ∧ Forall (λ l, 0 ≤ l < Z.of_nat cur) set) ms.2.

Lemma setAdd_inv (cur : nat) (l : Z) (set : list Z) :
  0 ≤ l < Z.of_nat cur →
  set ≠ [] ∧ Forall (λ l, 0 ≤ l < Z.of_nat cur) set →
  setAdd l set ≠ [] ∧ Forall (λ l, 0 ≤ l < Z.of_nat cur) (setAdd l set).
Proof.
  intros Hl [Hne Hall]. unfold setAdd. destruct (bool_decide _); [tauto|].
  split; [destruct set; discriminate|].
  apply Forall_app. split; [exact Hall|]. constructor; [exact Hl | constructor].
Qed.

Lemma mergeStep_inv (cur : nat) (set1 : nat) (ms : list nat * list (list Z))
    (l : Z) :
  (set1 < length ms.2)%nat → 0 ≤ l < Z.of_nat cur → setsInv cur ms →
  setsInv cur (<[Z.to_nat l := set1]> ms.1, alter (setAdd l) set1 ms.2) ∧
  length (alter (setAdd l) set1 ms.2) = length ms.2.
Proof.
  intros Hs Hl (Hlen & Hmap & Hsets). split; [|apply length_alter].
  unfold setsInv. cbn [fst snd]. rewrite length_insert, length_alter.
  split_and!; [exact Hlen | apply Forall_insert; assumption |].
  apply Forall_alter; [exact Hsets|].
  intros set _. apply setAdd_inv. exact Hl.
Qed.

Lemma mergeFold_inv (cur : nat) (set1 : nat) (els : list Z)
    (ms : list nat * list (list Z)) :
  Forall (λ l, 0 ≤ l < Z.of_nat cur) els →
  (set1 < length ms.2)%nat → setsInv cur ms →
  setsInv cur (foldl (λ ms' l, (<[Z.to_nat l := set1]> ms'.1,
                                alter (setAdd l) set1 ms'.2)) ms els).
Proof.
  intros Hels. revert ms. induction Hels as [|l els Hl _ IH];
    intros ms Hs1 Hinv; [exact Hinv|].
  cbn [foldl].
  destruct (mergeStep_inv cur set1 ms l Hs1 Hl Hinv) as [Hinv' Hlen'].
  apply IH; [cbn [snd]; rewrite Hlen'; exact Hs1 | exact Hinv'].
Qed.

Lemma mergeLabel_inv (cur : nat) (minLabel label : Z)
    (ms : list nat * list (list Z)) :
  setsInv cur ms → setsInv cur (mergeLabel minLabel ms label).
Proof.
  intros Hinv. unfold mergeLabel.
  destruct (bool_decide _); [|exact Hinv].
  destruct (ms.1 !! Z.to_nat minLabel) as [set1|] eqn:E1; [|exact Hinv].
  destruct (ms.1 !! Z.to_nat label) as [set2|] eqn:E2; [|exact Hinv].
  apply mergeFold_inv; [| |exact Hinv].
  - destruct (ms.2 !! set2) as [set|] eqn:E; [|constructor].
    destruct Hinv as (_ & _ & Hsets). rewrite Forall_lookup in Hsets.
    exact (proj2 (Hsets _ _ E)).
  - destruct Hinv as (_ & Hmap & _). rewrite Forall_lookup in Hmap.
    exact (Hmap _ _ E1).
Qed.

Lemma mergeLabels_inv (cur : nat) (minLabel : Z) (nb : list Z)
    (ms : list nat * list (list Z)) :
  setsInv cur ms → setsInv cur (foldl (mergeLabel minLabel) ms nb).
Proof.
  revert ms. induction nb as [|label nb IH]; intros ms Hinv; [exact Hinv|].
  cbn [foldl]. apply IH, mergeLabel_inv, Hinv.
Qed.

(** Invariant of the first pass over an image of [w * h] pixels, with the
    first [n] pixels visited: the sets are consistent, every label written
    was handed out, and every foreground pixel visited has a label. *)
Definition passInv (bin : ImageData) (n : nat) (st : Labelling) : Prop :=
  length (labels st) = (width bin * height bin)%nat ∧
  0 ≤ currentLabel st ∧
  setsInv (Z.to_nat (currentLabel st)) (labelMap st, labelSets st) ∧
  Forall (λ l, l = -1 ∨ 0 ≤ l < currentLabel st) (labels st) ∧
  (∀ p, (p < n)%nat → isLight (data bin) (p * 4) = false →
     ∃ l, labels st !! p = Some l ∧ 0 ≤ l) ∧
  (∀ p, (p < n)%nat → isLight (data bin) (p * 4) = true →
     labels st !! p = Some (-1)) ∧
  (∀ p, (n ≤ p < width bin * height bin)%nat → labels st !! p = Some (-1)).

Lemma labelAt_range (cur : Z) (lbl : list Z) (i : nat) :
  Forall (λ l, l = -1 ∨ 0 ≤ l < cur) lbl →
  Forall (λ l, 0 ≤ l < cur) (labelAt lbl i).
Proof.
  intros Hall. unfold labelAt. destruct (lbl !! i) as [l|] eqn:E; [|constructor].
  destruct (bool_decide_reflect (l ≠ -1)) as [Hne|_]; [|constructor].
  rewrite Forall_lookup in Hall. destruct (Hall _ _ E) as [?|?]; [contradiction|].
  constructor; [assumption | constructor].
Qed.

Lemma neighbors_range (cur : Z) (w : nat) (lbl : list Z) (x y : nat) :
  Forall (λ l, l = -1 ∨ 0 ≤ l < cur) lbl →
  Forall (λ l, 0 ≤ l < cur) (neighbors w lbl x y).
Proof.
  intros Hall. unfold neighbors. cbv zeta.
  repeat (apply Forall_app; split);
    match goal with
    | |- Forall _ (if ?c then _ else _) =>
        destruct c; [apply labelAt_range; exact Hall | constructor]
    end.
Qed.

Lemma setsInv_grow (cur : nat) (ms : list nat * list (list Z)) :
  setsInv cur ms →
  setsInv (S cur) (ms.1 ++ [length ms.2], ms.2 ++ [[Z.of_nat cur]]).
Proof.
  intros (Hlen & Hmap & Hsets). unfold setsInv. cbn [fst snd].
  rewrite !length_app. cbn [length]. split_and!.
  - lia.
  - apply Forall_app. split.
    + eapply Forall_impl; [exact Hmap|]. cbn. intros s Hs. lia.
    + constructor; [lia | constructor].
  - apply Forall_app. split.
    + eapply Forall_impl; [exact Hsets|]. cbn. intros set [Hne Hall].
      split; [exact Hne|]. eapply Forall_impl; [exact Hall|]. cbn. lia.
    + constructor; [|constructor]. split; [discriminate|].
      constructor; [lia | constructor].
Qed.

Lemma labelPixel_passInv (bin : ImageData) (x y : nat) (st : Labelling) :
  (x < width bin)%nat → (y < height bin)%nat →
  passInv bin (y * width bin + x) st →
  passInv bin (S (y * width bin + x)) (labelPixel bin y st x).
Proof.
  intros Hx Hy (Hlen & Hcur & Hsets & Hlab & Hdark & Hlight & Hrest).
  set (idx := (y * width bin + x)%nat) in *.
  assert (Hidx : (idx < width bin * height bin)%nat)
    by (apply pixel_in_image; assumption).
  unfold labelPixel. cbv zeta. fold idx.
  destruct (isLight (data bin) (idx * 4)) eqn:Hpix.
  { split_and!; try assumption.
    - intros p Hp Hd. destruct (decide (p = idx)) as [->|]; [congruence|].
      apply Hdark; [lia | exact Hd].
    - intros p Hp Hl. destruct (decide (p = idx)) as [->|].
      + apply Hrest. lia.
      + apply Hlight; [lia | exact Hl].
    - intros p Hp. apply Hrest. lia. }
  assert (Hnew : ∀ (l cur' : Z) (st' : Labelling),
            labels st' = <[idx := l]> (labels st) →
            currentLabel st' = cur' → currentLabel st ≤ cur' →
            0 ≤ l < cur' →
            setsInv (Z.to_nat cur') (labelMap st', labelSets st') →
            passInv bin (S idx) st').
  { intros l cur' st' Hl' Hc' Hle Hl Hs'. unfold passInv. rewrite Hl', Hc'.
    rewrite length_insert. split_and!; try assumption; try lia.
    - apply Forall_insert; [|right; exact Hl].
      eapply Forall_impl; [exact Hlab|]. cbn. lia.
    - intros p Hp Hd. destruct (decide (p = idx)) as [->|Hne].
      + exists l. rewrite list_lookup_insert_eq by lia. split; [reflexivity | lia].
      + rewrite list_lookup_insert_ne by congruence. apply Hdark; [lia | exact Hd].
    - intros p Hp Hl''. destruct (decide (p = idx)) as [->|Hne]; [congruence|].
      rewrite list_lookup_insert_ne by congruence. apply Hlight; [lia | exact Hl''].
    - intros p Hp. rewrite list_lookup_insert_ne by lia. apply Hrest. lia. }
  pose proof (neighbors_range _ (width bin) _ x y Hlab) as Hnb.
  destruct (neighbors (width bin) (labels st) x y) as [|n0 nb] eqn:Enb.
  - apply (Hnew (currentLabel st) (currentLabel st + 1)); cbn;
      [reflexivity | reflexivity | lia | lia |].
    replace (Z.to_nat (currentLabel st + 1)) with (S (Z.to_nat (currentLabel st)))
      by lia.
    pose proof (setsInv_grow _ _ Hsets) as Hg. cbn [fst snd] in Hg.
    rewrite Z2Nat.id in Hg by exact Hcur. exact Hg.
  - assert (Hmin : 0 ≤ listMin (n0 :: nb) < currentLabel st).
    { pose proof (listMin_in (n0 :: nb) ltac:(discriminate)) as Hin.
      rewrite Forall_forall in Hnb. apply (Hnb _ Hin). }
    apply (Hnew (listMin (n0 :: nb)) (currentLabel st)); cbn [labels currentLabel labelMap labelSets];
      [reflexivity | reflexivity | lia | exact Hmin |].
    rewrite <- surjective_pairing. apply mergeLabels_inv. exact Hsets.
Qed.

Lemma firstPass_passInv (bin : ImageData) :
  passInv bin (width bin * height bin) (firstPass bin).
Proof.
  unfold firstPass. replace (width bin * height bin)%nat
    with (height bin * width bin)%nat at 1 by lia.
  apply (foldl_seq_invariant (λ y st, passInv bin (y * width bin) st)).
  - unfold passInv. cbn. rewrite length_replicate.
    split_and!; [reflexivity | lia | | | | |].
    + split_and!; [reflexivity | constructor | constructor].
    + apply Forall_replicate. left. reflexivity.
    + intros p Hp. lia.
    + intros p Hp. lia.
    + intros p Hp. apply lookup_replicate_2. lia.
  - intros y st Hy Hst.
    replace (S y * width bin)%nat with (y * width bin + width bin)%nat by lia.
    apply (foldl_seq_invariant (λ x st, passInv bin (y * width bin + x) st)).
    + rewrite Nat.add_0_r. exact Hst.
    + intros x st' Hx Hst'.
      replace (y * width bin + S x)%nat with (S (y * width bin + x)) by lia.
      apply labelPixel_passInv; assumption.
Qed.

(** The second pass gives every foreground pixel a final label and leaves
    -1 on the paper. *)
Lemma secondPass_labels (bin : ImageData) (p : nat) :
  (p < width bin * height bin)%nat →
  ∃ l, secondPass (firstPass bin) !! p = Some l ∧
       (isLight (data bin) (p * 4) = false → 0 ≤ l) ∧
       (isLight (data bin) (p * 4) = true → l = -1).
Proof.
  intros Hp.
  destruct (firstPass_passInv bin)
    as (Hlen & Hcur & (Hml & Hmap & Hsets) & Hlab & Hdark & Hlight & _).
  cbn [fst snd] in *. set (st := firstPass bin) in *.
  unfold secondPass. rewrite list_lookup_fmap.
  destruct (isLight (data bin) (p * 4)) eqn:Hpix.
  - rewrite (Hlight p Hp Hpix). cbn. eexists. split; [reflexivity|].
    split; [discriminate | reflexivity].
  - destruct (Hdark p Hp Hpix) as (l & Hl & Hl0). rewrite Hl. cbn.
    eexists. split; [reflexivity|]. split; [|discriminate]. intros _.
    assert (Hrange : 0 ≤ l < currentLabel st).
    { rewrite Forall_lookup in Hlab. destruct (Hlab _ _ Hl); lia. }
    unfold rootLabel. rewrite bool_decide_eq_true_2 by lia.
    destruct (labelMap st !! Z.to_nat l) as [s|] eqn:Es.
    2:{ apply lookup_ge_None in Es. lia. }
    rewrite Forall_lookup in Hmap. pose proof (Hmap _ _ Es) as Hs. cbn in Hs.
    destruct (labelSets st !! s) as [set|] eqn:Eset.
    2:{ apply lookup_ge_None in Eset. lia. }
    rewrite Forall_lookup in Hsets. destruct (Hsets _ _ Eset) as [Hne Hall].
    cbn. pose proof (listMin_in set Hne) as Hin.
    rewrite Forall_forall in Hall. specialize (Hall _ Hin). lia.
Qed.

(** The pixel [(x, y)] lies in the box. *)
Definition contains (b : Box) (x y : nat) : Prop :=
  (minX b ≤ x ≤ maxX b ∧ minY b ≤ y ≤ maxY b)%nat.

Lemma boxOf_growBox_same label x y boxes b :
  boxOf label boxes = Some b →
  boxOf label (growBox label x y boxes) =
  Some {| minX := Nat.min (minX b) x; minY := Nat.min (minY b) y;
          maxX := Nat.max (maxX b) x; maxY := Nat.max (maxY b) y |}.
Proof.
  induction boxes as [|[l b'] boxes IH]; [discriminate|].
  cbn [boxOf growBox]. destruct (bool_decide_reflect (l = label)) as [->|Hne].
  - intros [= ->]. cbn [boxOf]. rewrite bool_decide_eq_true_2 by reflexivity.
    reflexivity.
  - intros Hb. cbn [boxOf]. rewrite bool_decide_eq_false_2 by exact Hne.
    apply IH, Hb.
Qed.

Lemma boxOf_growBox_other l label x y boxes :
  l ≠ label → boxOf l (growBox label x y boxes) = boxOf l boxes.
Proof.
  intros Hne. induction boxes as [|[l' b'] boxes IH]; [reflexivity|].
  cbn [boxOf growBox]. destruct (bool_decide_reflect (l' = label)) as [->|Hne'].
  - cbn [boxOf]. rewrite !bool_decide_eq_false_2 by congruence. reflexivity.
  - cbn [boxOf]. destruct (bool_decide (l' = l)); [reflexivity | exact IH].
Qed.

Lemma boxOf_snoc l label b boxes :
  boxOf l (boxes ++ [(label, b)]) =
  match boxOf l boxes with
  | Some b' => Some b'
  | None => if bool_decide (label = l) then Some b else None
  end.
Proof.
  induction boxes as [|[l' b'] boxes IH]; [reflexivity|].
  cbn [app boxOf]. destruct (bool_decide (l' = l)); [reflexivity | exact IH].
Qed.

Lemma boxOf_elem l b boxes : boxOf l boxes = Some b → (l, b) ∈ boxes.
Proof.
  induction boxes as [|[l' b'] boxes IH]; [discriminate|].
  cbn [boxOf]. destruct (bool_decide_reflect (l' = l)) as [->|Hne].
  - intros [= ->]. left.
  - intros Hb. right. apply IH, Hb.
Qed.

(** A step of the third pass keeps a pixel that is in the box of its label
    there. *)
Lemma boxPixel_keeps w finalLabels y boxes x l x' y' :
  (∃ b, boxOf l boxes = Some b ∧ contains b x' y') →
  ∃ b, boxOf l (boxPixel w finalLabels y boxes x) = Some b ∧ contains b x' y'.
Proof.
  intros (b & Hb & Hc). unfold boxPixel.
  destruct (finalLabels !! _) as [label|]; [|exists b; auto].
  destruct (bool_decide (label ≠ -1)); [|exists b; auto].
  destruct (boxOf label boxes) as [b0|] eqn:E0.
  - destruct (decide (l = label)) as [->|Hne].
    + rewrite (boxOf_growBox_same _ _ _ _ _ E0).
      assert (b0 = b) as -> by congruence.
      eexists. split; [reflexivity|]. unfold contains in *. cbn. lia.
    + rewrite boxOf_growBox_other by exact Hne. exists b. auto.
  - rewrite boxOf_snoc, Hb. exists b. auto.
Qed.

(** A step of the third pass puts its pixel into the box of its label. *)
Lemma boxPixel_adds w finalLabels y boxes x l :
  finalLabels !! (y * w + x)%nat = Some l → l ≠ -1 →
  ∃ b, boxOf l (boxPixel w finalLabels y boxes x) = Some b ∧ contains b x y.
Proof.
  intros Hl Hne. unfold boxPixel. rewrite Hl.
  rewrite bool_decide_eq_true_2 by exact Hne.
  destruct (boxOf l boxes) as [b0|] eqn:E0.
  - rewrite (boxOf_growBox_same _ _ _ _ _ E0).
    eexists. split; [reflexivity|]. unfold contains. cbn. lia.
  - rewrite boxOf_snoc, E0. rewrite bool_decide_eq_true_2 by reflexivity.
    eexists. split; [reflexivity|]. unfold contains. cbn. lia.
Qed.

(** With the first [n] pixels visited, each of them that has a label lies
    in the box of its label. *)
Definition coverInv (w : nat) (finalLabels : list Z) (n : nat)
    (boxes : list (Z * Box)) : Prop :=
  ∀ x' y' l, (x' < w)%nat → (y' * w + x' < n)%nat →
    finalLabels !! (y' * w + x')%nat = Some l → l ≠ -1 →
    ∃ b, boxOf l boxes = Some b ∧ contains b x' y'.

Lemma boxPixel_coverInv w finalLabels y boxes x :
  (x < w)%nat →
  coverInv w finalLabels (y * w + x) boxes →
  coverInv w finalLabels (S (y * w + x)) (boxPixel w finalLabels y boxes x).
Proof.
  intros Hx Hinv x' y' l Hx' Hlt Hl Hne.
  destruct (decide (y' * w + x' = y * w + x)%nat) as [Heq|Hneq].
  - destruct (pixel_index_inj w x y x' y' Hx Hx' Heq) as [-> ->].
    apply boxPixel_adds; assumption.
  - apply boxPixel_keeps. apply Hinv; [exact Hx' | lia | exact Hl | exact Hne].
Qed.

Lemma boundingBoxes_cover w h finalLabels :
  coverInv w finalLabels (h * w) (boundingBoxes w h finalLabels).
Proof.
  unfold boundingBoxes.
  apply (foldl_seq_invariant (λ y boxes, coverInv w finalLabels (y * w) boxes)).
  - intros x' y' l _ Hlt. lia.
  - intros y boxes Hy Hb.
    replace (S y * w)%nat with (y * w + w)%nat by lia.
    apply (foldl_seq_invariant
             (λ x boxes, coverInv w finalLabels (y * w + x) boxes)).
    + rewrite Nat.add_0_r. exact Hb.
    + intros x boxes' Hx Hb'.
      replace (y * w + S x)%nat with (S (y * w + x)) by lia.
      apply boxPixel_coverInv; assumption.
Qed.

(** X11.  No foreground pixel is lost by the labelling: every pixel of the
    image that is foreground in the binarization has a final label, the
    entry of the second pass at that pixel, which is not -1; that label has
    a bounding box, the one box recorded under it, and the pixel lies in
    it; and unless the box is narrower or shorter than 5 pixels, the
    component that [connectedComponentAnalysis] returns for it (with a
    canvas context) has the position and the size of the box, so the pixel
    lies within it. *)
Theorem connectedComponentAnalysis_covers (img : ImageData) (x y : nat) :
  (x < width img)%nat → (y < height img)%nat →
  isLight (data (binarize img 128)) ((y * width img + x) * 4) = false →
  let finalLabels := secondPass (firstPass (binarize img 128)) in
  let boxes := boundingBoxes (width img) (height img) finalLabels in
  ∃ label box,
    finalLabels !! (y * width img + x)%nat = Some label ∧ 0 ≤ label ∧
    boxOf label boxes = Some box ∧
    (label, box) ∈ boxes ∧
    contains box x y ∧
    ((maxX box - minX box + 1 < 5 ∨ maxY box - minY box + 1 < 5)%nat ∨
     ∃ c, c ∈ connectedComponentAnalysis true img ∧
          charX c = minX box ∧ charY c = minY box ∧
          charWidth c = (maxX box - minX box + 1)%nat ∧
          charHeight c = (maxY box - minY box + 1)%nat ∧
          (charX c ≤ x < charX c + charWidth c)%nat ∧
          (charY c ≤ y < charY c + charHeight c)%nat).
Proof.
  intros Hx Hy Hfg. set (bin := binarize img 128) in *.
  intros finalLabels boxes.
  assert (Hp : (y * width img + x < width bin * height bin)%nat)
    by (apply pixel_in_image; assumption).
  destruct (secondPass_labels bin _ Hp) as (l & Hl & Hdark & _).
  specialize (Hdark Hfg). fold finalLabels in Hl.
  destruct (boundingBoxes_cover (width img) (height img) finalLabels
              x y l Hx ltac:(nia) Hl ltac:(lia)) as (box & Hbox & Hc).
  fold boxes in Hbox. pose proof (boxOf_elem _ _ _ Hbox) as Helem.
  exists l, box.
  split_and!; [exact Hl | exact Hdark | exact Hbox | exact Helem | exact Hc |].
  destruct (decide (maxX box - minX box + 1 < 5)%nat) as [?|Hw]; [left; left; assumption|].
  destruct (decide (maxY box - minY box + 1 < 5)%nat) as [?|Hh]; [left; right; assumption|].
  right. eexists. split.
  - unfold connectedComponentAnalysis. fold bin. cbv zeta. fold finalLabels.
    apply list_elem_of_In, in_flat_map. exists (l, box).
    split; [apply list_elem_of_In; exact Helem|].
    unfold extractChar. cbn [fst snd].
    rewrite !bool_decide_eq_false_2 by assumption. cbn [orb]. left. reflexivity.
  - destruct Hc as [Hcx Hcy]. cbn. split_and!; try reflexivity; lia.
Qed.

(** The theorem at pixel (3, 2) of the block image, a pixel of the black
    block: it has a final label, and the box of that label contains it. *)
Lemma connectedComponentAnalysis_covers_witness :
  ∃ label box,
    secondPass (firstPass (binarize blockImage 128))
      !! (2 * width blockImage + 3)%nat = Some label ∧ 0 ≤ label ∧
    boxOf label (boundingBoxes (width blockImage) (height blockImage)
                   (secondPass (firstPass (binarize blockImage 128)))) = Some box ∧
    contains box 3 2.
Proof.
  destruct (connectedComponentAnalysis_covers blockImage 3 2)
    as (label & box & Hl & H0 & Hbox & _ & Hc & _);
    [cbn; lia | cbn; lia | vm_compute; reflexivity |].
  exists label, box. split_and!; assumption.
Defined.

End CharSegmentation.

(** ** FeatureExtractor (mlAlgorithms.ts) *)

Module FeatureExtractor.

(** [data[i]] in arithmetic. *)
Definition sample (d : list Z) (i : nat) : num :=
  match d !! i with
  | Some v => ofZ v
  | None => NaN
  end.

(** [Math.ceil(a / c)] for a positive cell size. *)
Definition ceilDiv (a c : nat) : nat := ((a + c - 1) / c)%nat.

(** [Math.max(...l)] of integer counts: [None] is the [-Infinity] of the
    empty list. *)
Definition maxOf (l : list Z) : option Z :=
  foldr (λ v acc, Some (match acc with Some m => Z.max v m | None => v end))
        None l.

(** [Math.max(...l) > 0]. *)
Definition maxPositive (l : list Z) : bool :=
  match maxOf l with
  | Some m => bool_decide (0 < m)
  | None => false
  end.

Section Extractor.

(** [Math.sqrt] and [Math.atan2] are the host's. *)
Variable Math_sqrt : Q → Q.
Variable Math_atan2 : num → num → num.

(** Body of the pixel loop of a cell: the gradient of pixel [(x, y)], its
    magnitude and orientation, and [histogram[bin] += magnitude].  The
    remainder [% 9] is below 9, so a non-negative [bin] is an index of the
    histogram; a negative or [NaN] bin names a property and leaves the nine
    entries as they are. *)
Definition hogPixel (img : ImageData) (y : nat) (histogram : list num)
    (x : nat) : list num :=
  let d := data img in
  let w := width img in
  let idx := ((y * w + x) * 4)%nat in
  let rightIdx := ((y * w + x + 1) * 4)%nat in
  let downIdx := (((y + 1) * w + x) * 4)%nat in
  let gx := nsub (sample d rightIdx) (sample d idx) in
  let gy := nsub (sample d downIdx) (sample d idx) in
  let magnitude := nsqrt Math_sqrt (nadd (nmul gx gx) (nmul gy gy)) in
  let orientation := nmul (Math_atan2 gy gx) (Fin (180 / Math_PI)) in
  match nrem (nfloor (ndiv (nadd orientation (Fin 180)) (Fin 40))) 9 with
  | Some bin =>
      if bool_decide (0 ≤ bin)
      then alter (λ h, nadd h magnitude) (Z.to_nat bin) histogram
      else histogram
  | None => histogram
  end.

(** The histogram of the cell [(cx, cy)], normalised when its sum is
    positive. *)
Definition hogCell (img : ImageData) (cellSize cy cx : nat) : list num :=
  let cellX := (cx * cellSize)%nat in
  let cellY := (cy * cellSize)%nat in
  let histogram :=
    foldl (λ h y,
             foldl (hogPixel img y) h
                   (seq cellX (Nat.min (cellX + cellSize) (width img - 1) - cellX)))
          (replicate 9 (Fin 0))
          (seq cellY (Nat.min (cellY + cellSize) (height img - 1) - cellY)) in
  let sum := foldl nadd (Fin 0) histogram in
  if ngt sum (Fin 0) then (λ v, ndiv v sum) <$> histogram else histogram.

Definition extractHOGFeatures (img : ImageData) (cellSize : nat) : list num :=
  let numCellsX := ceilDiv (width img) cellSize in
  let numCellsY := ceilDiv (height img) cellSize in
  flat_map (λ cy, flat_map (hogCell img cellSize cy) (seq 0 numCellsX))
           (seq 0 numCellsY).

End Extractor.

(** The horizontal and the vertical projection, each by its own pair of
    loops. *)
Definition horizontalProjection (img : ImageData) : list Z :=
  foldl (λ hz y,
           foldl (λ hz x,
                    if isDark (data img) ((y * width img + x) * 4)
                    then alter Z.succ y hz else hz)
                 hz (seq 0 (width img)))
        (replicate (height img) 0) (seq 0 (height img)).

Definition verticalProjection (img : ImageData) : list Z :=
  foldl (λ vt x,
           foldl (λ vt y,
                    if isDark (data img) ((y * width img + x) * 4)
                    then alter Z.succ x vt else vt)
                 vt (seq 0 (height img)))
        (replicate (width img) 0) (seq 0 (width img)).

Definition extractProjectionFeatures (img : ImageData) : list num :=
  let horizontal := horizontalProjection img in
  let vertical := verticalProjection img in
  (if maxPositive horizontal
   then (λ v, ndiv (ofZ v) (ofZ (default 0 (maxOf horizontal)))) <$> horizontal
   else []) ++
  (if maxPositive vertical
   then (λ v, ndiv (ofZ v) (ofZ (default 0 (maxOf vertical)))) <$> vertical
   else []).

(** Ink pixels of the interior with a paper pixel above, below, left or
    right. *)
Definition isBoundary (img : ImageData) (x y : nat) : bool :=
  let d := data img in
  let w := width img in
  isLight d (((y - 1) * w + x) * 4) || isLight d (((y + 1) * w + x) * 4)
  || isLight d ((y * w + x - 1) * 4) || isLight d ((y * w + x + 1) * 4).

Definition contourPoints (img : ImageData) : Z :=
  foldl (λ n y,
           foldl (λ n x,
                    if isDark (data img) ((y * width img + x) * 4)
                       && isBoundary img x y
                    then n + 1 else n)
                 n (seq 1 (width img - 2)))
        0 (seq 1 (height img - 2)).

(** [(minX, maxX, minY, maxY)] of the ink, from [(width, 0, height, 0)]. *)
Definition inkBounds (img : ImageData) : Z * Z * Z * Z :=
  foldl (λ b y,
           foldl (λ b x,
                    if isDark (data img) ((y * width img + x) * 4)
                    then (Z.min b.1.1.1 (Z.of_nat x), Z.max b.1.1.2 (Z.of_nat x),
                          Z.min b.1.2 (Z.of_nat y), Z.max b.2 (Z.of_nat y))
                    else b)
                 b (seq 0 (width img)))
        (Z.of_nat (width img), 0, Z.of_nat (height img), 0)
        (seq 0 (height img)).

(** [data.filter((v, i) => i % 4 === 0 && v < 128).length]. *)
Definition blackPixels (d : list Z) : Z :=
  Z.of_nat (length (filter (λ iv, (iv.1 `mod` 4 = 0)%nat ∧ iv.2 < 128)
                           (imap (λ i v, (i, v)) d))).

Definition extractContourFeatures (img : ImageData) : list num :=
  let '(minX, maxX, minY, maxY) := inkBounds img in
  let charWidth := maxX - minX + 1 in
  let charHeight := maxY - minY + 1 in
  let aspectRatio :=
    if bool_decide (0 < charHeight)
    then ndiv (ofZ charWidth) (ofZ charHeight) else Fin 1 in
  let totalPixels := Z.of_nat (width img * height img) in
  [ ndiv (ofZ (contourPoints img)) (ofZ (Z.of_nat (width img * height img)));
    aspectRatio;
    ndiv (ofZ (blackPixels (data img))) (ofZ totalPixels);
    ndiv (ofZ charWidth) (ofZ (Z.of_nat (width img)));
    ndiv (ofZ charHeight) (ofZ (Z.of_nat (height img))) ].

(** [extractAllFeatures], with the default [cellSize = 8]. *)
Definition extractAllFeatures (Math_sqrt : Q → Q) (Math_atan2 : num → num → num)
    (img : ImageData) : list num :=
  extractHOGFeatures Math_sqrt Math_atan2 img 8
  ++ extractProjectionFeatures img ++ extractContourFeatures img.

(** Some pixel of the image is ink. *)
Definition hasInk (img : ImageData) : bool :=
  existsb (λ y, existsb (λ x, isDark (data img) ((y * width img + x) * 4))
                        (seq 0 (width img)))
          (seq 0 (height img)).

Definition whitePixel : ImageData := mkImageData [255; 255; 255; 255] 1 1.
Definition blackPixel : ImageData := mkImageData [0; 0; 0; 255] 1 1.

Example features_white_pixel :
  extractAllFeatures (λ q, q) (λ _ _, NaN) whitePixel =
  [Fin 0; Fin 0; Fin 0; Fin 0; Fin 0; Fin 0; Fin 0; Fin 0; Fin 0;
   Fin 0; Fin 1; Fin 0; Fin 0; Fin 0].
Proof. vm_compute. reflexivity. Qed.

Example features_black_pixel :
  extractAllFeatures (λ q, q) (λ _ _, NaN) blackPixel =
  [Fin 0; Fin 0; Fin 0; Fin 0; Fin 0; Fin 0; Fin 0; Fin 0; Fin 0;
   Fin 1; Fin 1;
   Fin 0; Fin 1; Fin 1; Fin 1; Fin 1].
Proof. vm_compute. reflexivity. Qed.


(** *** Lengths of the feature blocks *)

Lemma length_flat_map_const {A B} (f : A → list B) (n : nat) (l : list A) :
  (∀ a, length (f a) = n) → length (flat_map f l) = (n * length l)%nat.
Proof.
  intros Hf. induction l as [|a l IH]; simpl; [lia|].
  rewrite length_app, Hf, IH. lia.
Qed.

Lemma hogPixel_length sq at2 img y histogram x :
  length (hogPixel sq at2 img y histogram x) = length histogram.
Proof.
  unfold hogPixel. destruct (nrem _ _) as [bin|]; [|reflexivity].
  destruct (bool_decide _); [apply length_alter | reflexivity].
Qed.

Lemma hogRows_length sq at2 img (rows cols : list nat) (h0 : list num) :
  length (foldl (λ h y, foldl (hogPixel sq at2 img y) h cols) h0 rows)
  = length h0.
Proof.
  revert h0. induction rows as [|y rows IH]; intros h0; [reflexivity|].
  simpl. rewrite IH. clear IH. revert h0.
  induction cols as [|x cols IHc]; intros h0; [reflexivity|].
  simpl. rewrite IHc. apply hogPixel_length.
Qed.

Lemma hogCell_length sq at2 img cellSize cy cx :
  length (hogCell sq at2 img cellSize cy cx) = 9%nat.
Proof.
  unfold hogCell.
  destruct (ngt _ _); [rewrite length_fmap|]; rewrite hogRows_length; reflexivity.
Qed.

Lemma extractHOGFeatures_length sq at2 img cellSize :
  length (extractHOGFeatures sq at2 img cellSize) =
  (9 * ceilDiv (width img) cellSize * ceilDiv (height img) cellSize)%nat.
Proof.
  unfold extractHOGFeatures.
  rewrite (length_flat_map_const _ (9 * ceilDiv (width img) cellSize)).
  - rewrite length_seq. lia.
  - intros cy. rewrite (length_flat_map_const _ 9).
    + rewrite length_seq. reflexivity.
    + intros cx. apply hogCell_length.
Qed.

Lemma extractContourFeatures_length img :
  length (extractContourFeatures img) = 5%nat.
Proof.
  unfold extractContourFeatures.
  destruct (inkBounds img) as [[[a b] c] d]. reflexivity.
Qed.

Lemma maxPositive_sum (l : list Z) :
  Forall (λ v, 0 ≤ v) l →
  0 ≤ sumZ l ∧ (maxPositive l = true ↔ 0 < sumZ l).
Proof.
  unfold maxPositive, sumZ.
  induction 1 as [|v l Hv Hl [IH0 IH]]; simpl.
  - split; [lia|]. split; [discriminate | lia].
  - split; [lia|]. destruct (maxOf l) as [m|].
    + rewrite bool_decide_eq_true in *. lia.
    + assert (foldr Z.add 0 l = 0).
      { destruct (Z.eq_dec (foldr Z.add 0 l) 0) as [E|E]; [exact E|].
        assert (0 < foldr Z.add 0 l) as Hp by lia.
        apply IH in Hp. discriminate. }
      rewrite bool_decide_eq_true. lia.
Qed.

(** A pair of nested counting loops that increments one entry of an array
    of counters at every hit. *)
Lemma counting_loops (test : nat → nat → bool) (ix : nat → nat → nat)
    (m na nb : nat) :
  (∀ a b, (a < na)%nat → (b < nb)%nat → (ix a b < m)%nat) →
  let r := foldl (λ s a,
                    foldl (λ s b, if test a b then alter Z.succ (ix a b) s else s)
                          s (seq 0 nb))
                 (replicate m 0) (seq 0 na) in
  length r = m ∧ Forall (λ v, 0 ≤ v) r ∧
  (0 < sumZ r ↔ ∃ a b, (a < na)%nat ∧ (b < nb)%nat ∧ test a b = true).
Proof.
  intros Hix r.
  pose (Inv := λ (A B : nat) (s : list Z),
          length s = m ∧ Forall (λ v, 0 ≤ v) s ∧
          (0 < sumZ s ↔
           ∃ a b, (a < A ∨ (a = A ∧ b < B))%nat ∧ (b < nb)%nat ∧ test a b = true)).
  assert (H : Inv na 0%nat r).
  { unfold r. apply (foldl_seq_invariant (λ A s, Inv A 0%nat s)).
    - split_and!.
      + apply length_replicate.
      + apply Forall_replicate. lia.
      + rewrite sumZ_replicate_0. split; [lia|]. intros (a & b & Hab & _). lia.
    - intros A s HA HInv.
      assert (Hrow : Inv A nb
                (foldl (λ s b, if test A b then alter Z.succ (ix A b) s else s)
                       s (seq 0 nb))).
      { apply (foldl_seq_invariant (λ B s, Inv A B s)); [exact HInv|].
        clear s HInv. intros B s HB (Hlen & Hnn & Hiff).
        destruct (test A B) eqn:Et.
        - split_and!.
          + rewrite length_alter. exact Hlen.
          + apply Forall_alter; [exact Hnn|]. intros v _ Hv. lia.
          + rewrite sumZ_alter_succ by (rewrite Hlen; apply Hix; assumption).
            pose proof (maxPositive_sum s Hnn) as [Hs _].
            split; [|lia]. intros _. exists A, B. split_and!; [lia | lia | exact Et].
        - split_and!; [exact Hlen | exact Hnn |].
          rewrite Hiff. split; intros (a & b & Hab & Hb & Ht); exists a, b.
          + split_and!; [lia | exact Hb | exact Ht].
          + split_and!; [|exact Hb | exact Ht].
            destruct (decide (a = A ∧ b = B)) as [[-> ->]|]; [congruence | lia]. }
      destruct Hrow as (Hlen & Hnn & Hiff). split_and!; [exact Hlen | exact Hnn|].
      rewrite Hiff. split; intros (a & b & Hab & Hb & Ht); exists a, b;
        (split_and!; [lia | exact Hb | exact Ht]). }
  destruct H as (Hlen & Hnn & Hiff). split_and!; [exact Hlen | exact Hnn|].
  rewrite Hiff. split; intros (a & b & Hab & Hb & Ht); exists a, b;
    (split_and!; [lia | exact Hb | exact Ht]).
Qed.

Lemma hasInk_spec img :
  hasInk img = true ↔
  ∃ y x, (y < height img)%nat ∧ (x < width img)%nat ∧
         isDark (data img) ((y * width img + x) * 4) = true.
Proof.
  unfold hasInk. rewrite existsb_exists. split.
  - intros (y & Hy & Hex). apply existsb_exists in Hex as (x & Hx & Hd).
    apply in_seq in Hy, Hx. exists y, x. split_and!; [lia | lia | exact Hd].
  - intros (y & x & Hy & Hx & Hd). exists y. split; [apply in_seq; lia|].
    apply existsb_exists. exists x. split; [apply in_seq; lia | exact Hd].
Qed.

Lemma horizontalProjection_spec img :
  length (horizontalProjection img) = height img ∧
  maxPositive (horizontalProjection img) = hasInk img.
Proof.
  pose proof (counting_loops
                (λ y x, isDark (data img) ((y * width img + x) * 4))
                (λ y _, y) (height img) (height img) (width img)
                ltac:(intros; assumption)) as (Hlen & Hnn & Hiff).
  fold (horizontalProjection img) in Hlen, Hnn, Hiff.
  split; [exact Hlen|].
  pose proof (maxPositive_sum _ Hnn) as [_ Hmax].
  apply eq_true_iff_eq. rewrite Hmax, Hiff, hasInk_spec. reflexivity.
Qed.

Lemma verticalProjection_spec img :
  length (verticalProjection img) = width img ∧
  maxPositive (verticalProjection img) = hasInk img.
Proof.
  pose proof (counting_loops
                (λ x y, isDark (data img) ((y * width img + x) * 4))
                (λ x _, x) (width img) (width img) (height img)
                ltac:(intros; assumption)) as (Hlen & Hnn & Hiff).
  fold (verticalProjection img) in Hlen, Hnn, Hiff.
  split; [exact Hlen|].
  pose proof (maxPositive_sum _ Hnn) as [_ Hmax].
  apply eq_true_iff_eq. rewrite Hmax, Hiff, hasInk_spec.
  split; intros (a & b & Ha & Hb & Hd); exists b, a; auto.
Qed.

Lemma extractProjectionFeatures_length img :
  length (extractProjectionFeatures img) =
  if hasInk img then (height img + width img)%nat else 0%nat.
Proof.
  unfold extractProjectionFeatures.
  destruct (horizontalProjection_spec img) as [Hlh ->].
  destruct (verticalProjection_spec img) as [Hlv ->].
  destruct (hasInk img); [|reflexivity].
  rewrite length_app, !length_fmap. lia.
Qed.

(** The length of the whole vector. *)
Lemma extractAllFeatures_length sq at2 img :
  length (extractAllFeatures sq at2 img) =
  (9 * ceilDiv (width img) 8 * ceilDiv (height img) 8
   + (if hasInk img then height img + width img else 0) + 5)%nat.
Proof.
  unfold extractAllFeatures.
  rewrite !length_app, extractHOGFeatures_length,
    extractProjectionFeatures_length, extractContourFeatures_length. lia.
Qed.

Definition whiteImage (w h : nat) : ImageData :=
  mkImageData (replicate (4 * w * h) 255) w h.

(** The claim that all images get vectors of one length fails, whatever
    the host's [Math.sqrt] and [Math.atan2]: a white and a black pixel get
    14 and 16 features, a white 8x8 and a white 16x8 image 14 and 23. *)
Lemma extractAllFeatures_arity_varies :
  ¬ (∃ sq at2, length (extractAllFeatures sq at2 whitePixel) =
               length (extractAllFeatures sq at2 blackPixel)) ∧
  ¬ (∃ sq at2, length (extractAllFeatures sq at2 (whiteImage 8 8)) =
               length (extractAllFeatures sq at2 (whiteImage 16 8))).
Proof.
  split; intros (sq & at2 & H); rewrite !extractAllFeatures_length in H;
    vm_compute in H; discriminate.
Qed.

(** C4 (amended).  With [cellSize = 8] the vector of an image of width [w]
    and height [h] has [9 * ceil(w/8) * ceil(h/8) + 5] entries, and [h + w]
    more when the image has an ink pixel.  So two images of the same width
    and height that both have, or both lack, an ink pixel get vectors of the
    same length. *)
Theorem extractAllFeatures_arity (Math_sqrt : Q → Q)
    (Math_atan2 : num → num → num) (img1 img2 : ImageData) :
  width img1 = width img2 → height img1 = height img2 →
  hasInk img1 = hasInk img2 →
  length (extractAllFeatures Math_sqrt Math_atan2 img1) =
  length (extractAllFeatures Math_sqrt Math_atan2 img2) ∧
  length (extractAllFeatures Math_sqrt Math_atan2 img1) =
  (9 * ceilDiv (width img1) 8 * ceilDiv (height img1) 8
   + (if hasInk img1 then height img1 + width img1 else 0) + 5)%nat.
Proof.
  intros Hw Hh Hink. rewrite !extractAllFeatures_length, Hw, Hh, Hink.
  split; reflexivity.
Qed.

(** Two 2x1 images with ink at different places. *)
Lemma extractAllFeatures_arity_witness :
  length (extractAllFeatures (λ q, q) (λ _ _, NaN)
            (mkImageData [0; 0; 0; 255; 255; 255; 255; 255] 2 1)) =
  length (extractAllFeatures (λ q, q) (λ _ _, NaN)
            (mkImageData [255; 255; 255; 255; 90; 90; 90; 255] 2 1)).
Proof.
  apply (extractAllFeatures_arity (λ q, q) (λ _ _, NaN)
           (mkImageData [0; 0; 0; 255; 255; 255; 255; 255] 2 1)
           (mkImageData [255; 255; 255; 255; 90; 90; 90; 255] 2 1));
    reflexivity.
Defined.


(** *** The values of the projection and contour features *)

Lemma maxOf_spec (l : list Z) :
  match maxOf l with
  | Some m => m ∈ l ∧ Forall (λ v, v ≤ m) l
  | None => l = []
  end.
Proof.
  induction l as [|v l IH]; [reflexivity|].
  cbn [maxOf foldr]. fold (maxOf l). destruct (maxOf l) as [m|].
  - destruct IH as [Hin Hall]. split.
    + destruct (Z.max_spec v m) as [[_ ->] | [_ ->]]; [right; exact Hin | left].
    + constructor; [lia|]. eapply Forall_impl; [exact Hall|]. cbn. lia.
  - subst l. split; [left|]. constructor; [lia | constructor].
Qed.

(** A number between 0 and 1. *)
Definition unitValue (v : num) : Prop := ∃ q, v = Fin q ∧ (0 <= q)%Q ∧ (q <= 1)%Q.

Lemma ndiv_counts (v m : Z) :
  0 < m →
  ndiv (ofZ v) (ofZ m) = Fin (inject_Z v / inject_Z m).
Proof.
  intros Hm. unfold ndiv, ofZ. destruct (Qeq_bool (inject_Z m) 0) eqn:E;
    [|reflexivity].
  apply Qeq_bool_iff in E. exfalso.
  assert (H : (0 < inject_Z m)%Q) by (rewrite <- (Zlt_Qlt 0); exact Hm).
  rewrite E in H. exact (Qlt_irrefl 0 H).
Qed.

Lemma Qdiv_unit (v m : Z) :
  0 ≤ v ≤ m → 0 < m →
  (0 <= inject_Z v / inject_Z m)%Q ∧ (inject_Z v / inject_Z m <= 1)%Q.
Proof.
  intros Hv Hm.
  assert (H : (0 < inject_Z m)%Q) by (rewrite <- (Zlt_Qlt 0); exact Hm).
  split.
  - apply Qle_shift_div_l; [exact H|]. rewrite Qmult_0_l.
    rewrite <- (Zle_Qle 0). lia.
  - apply Qle_shift_div_r; [exact H|]. rewrite Qmult_1_l.
    rewrite <- Zle_Qle. lia.
Qed.

(** A block of counts divided by their positive maximum: every value lies
    between 0 and 1, and the value 1 occurs. *)
Lemma normalised_block (l : list Z) :
  Forall (λ v, 0 ≤ v) l → maxPositive l = true →
  Forall unitValue
    ((λ v, ndiv (ofZ v) (ofZ (default 0 (maxOf l)))) <$> l) ∧
  ∃ i q, (i < length l)%nat ∧
         ((λ v, ndiv (ofZ v) (ofZ (default 0 (maxOf l)))) <$> l) !! i
         = Some (Fin q) ∧ (q == 1)%Q.
Proof.
  intros Hnn Hmax. unfold maxPositive in Hmax.
  pose proof (maxOf_spec l) as Hspec.
  destruct (maxOf l) as [m|]; [|discriminate].
  apply bool_decide_eq_true in Hmax. destruct Hspec as [Hin Hle].
  change (default 0 (Some m)) with m. split.
  - apply Forall_fmap, Forall_forall. intros v Hv. unfold compose.
    rewrite Forall_forall in Hnn, Hle.
    specialize (Hnn v Hv). specialize (Hle v Hv). cbn in Hnn, Hle.
    rewrite ndiv_counts by exact Hmax. eexists. split; [reflexivity|].
    apply Qdiv_unit; lia.
  - apply list_elem_of_lookup in Hin as [i Hi]. exists i. eexists.
    split_and!.
    + eapply lookup_lt_Some. exact Hi.
    + rewrite list_lookup_fmap, Hi. cbn [fmap option_fmap option_map].
      rewrite ndiv_counts by exact Hmax. reflexivity.
    + apply Qmult_inv_r. intros E.
      assert (H : (0 < inject_Z m)%Q) by (rewrite <- (Zlt_Qlt 0); exact Hmax).
      rewrite E in H. exact (Qlt_irrefl 0 H).
Qed.

Lemma horizontalProjection_nonneg img :
  Forall (λ v, 0 ≤ v) (horizontalProjection img).
Proof.
  pose proof (counting_loops
                (λ y x, isDark (data img) ((y * width img + x) * 4))
                (λ y _, y) (height img) (height img) (width img)
                ltac:(intros; assumption)) as (_ & Hnn & _).
  exact Hnn.
Qed.

Lemma verticalProjection_nonneg img :
  Forall (λ v, 0 ≤ v) (verticalProjection img).
Proof.
  pose proof (counting_loops
                (λ x y, isDark (data img) ((y * width img + x) * 4))
                (λ x _, x) (width img) (width img) (height img)
                ltac:(intros; assumption)) as (_ & Hnn & _).
  exact Hnn.
Qed.

(** X21.  The projection features are normalised: every one is a number
    between 0 and 1; and when the image has ink, the block of the [height]
    row values and the block of the [width] column values each contain the
    value 1. *)
Theorem extractProjectionFeatures_normalised (img : ImageData) :
  Forall unitValue (extractProjectionFeatures img) ∧
  (hasInk img = true →
   ∃ i j q q', (i < height img)%nat ∧ (j < width img)%nat ∧
     extractProjectionFeatures img !! i = Some (Fin q) ∧ (q == 1)%Q ∧
     extractProjectionFeatures img !! (height img + j)%nat = Some (Fin q') ∧
     (q' == 1)%Q).
Proof.
  unfold extractProjectionFeatures. cbv zeta.
  destruct (horizontalProjection_spec img) as [Hlh Hmh].
  destruct (verticalProjection_spec img) as [Hlv Hmv].
  pose proof (horizontalProjection_nonneg img) as Hnh.
  pose proof (verticalProjection_nonneg img) as Hnv.
  destruct (hasInk img).
  - destruct (normalised_block _ Hnh Hmh) as (Hh & i & q & Hi & Hq & Hq1).
    destruct (normalised_block _ Hnv Hmv) as (Hv & j & q' & Hj & Hq' & Hq1').
    rewrite Hmh, Hmv. split.
    + apply Forall_app. split; assumption.
    + intros _. exists i, j, q, q'. rewrite Hlh in Hi. rewrite Hlv in Hj.
      split_and!; try assumption.
      * rewrite lookup_app_l by (rewrite length_fmap; lia). exact Hq.
      * rewrite lookup_app_r by (rewrite length_fmap; lia).
        rewrite length_fmap, Hlh.
        replace (height img + j - height img)%nat with j by lia. exact Hq'.
  - rewrite Hmh, Hmv. split; [constructor | discriminate].
Qed.

(** *** The bounds frame the ink tightly *)

(** The bounds [b] frame the ink among the [visited] pixels: every visited
    ink pixel lies within them, and each of the four is attained by one. *)
Definition frames (img : ImageData) (visited : nat → nat → Prop)
    (b : Z * Z * Z * Z) : Prop :=
  let ink y x := isDark (data img) ((y * width img + x) * 4) = true in
  (∀ y x, visited y x → ink y x →
     b.1.1.1 ≤ Z.of_nat x ≤ b.1.1.2 ∧ b.1.2 ≤ Z.of_nat y ≤ b.2) ∧
  (∃ y x, visited y x ∧ ink y x ∧ Z.of_nat x = b.1.1.1) ∧
  (∃ y x, visited y x ∧ ink y x ∧ Z.of_nat x = b.1.1.2) ∧
  (∃ y x, visited y x ∧ ink y x ∧ Z.of_nat y = b.1.2) ∧
  (∃ y x, visited y x ∧ ink y x ∧ Z.of_nat y = b.2).

(** Either no visited pixel is ink and the bounds are the initial ones, or
    the bounds frame the visited ink. *)
Definition frameInv (img : ImageData) (visited : nat → nat → Prop)
    (b : Z * Z * Z * Z) : Prop :=
  ((∀ y x, visited y x →
      isDark (data img) ((y * width img + x) * 4) = false) ∧
   b = (Z.of_nat (width img), 0, Z.of_nat (height img), 0)) ∨
  frames img visited b.

Lemma frameInv_ext img (v v' : nat → nat → Prop) b :
  (∀ y x, v' y x ↔ v y x) → frameInv img v b → frameInv img v' b.
Proof.
  intros Hv [[Hno Hinit] | (Hall & H1 & H2 & H3 & H4)].
  - left. split; [|exact Hinit]. intros y x Hyx. apply Hno, Hv, Hyx.
  - right. unfold frames. cbv zeta. split_and!.
    + intros y x Hyx. apply Hall, Hv, Hyx.
    + destruct H1 as (y & x & Hyx & H). exists y, x. split; [apply Hv, Hyx | exact H].
    + destruct H2 as (y & x & Hyx & H). exists y, x. split; [apply Hv, Hyx | exact H].
    + destruct H3 as (y & x & Hyx & H). exists y, x. split; [apply Hv, Hyx | exact H].
    + destruct H4 as (y & x & Hyx & H). exists y, x. split; [apply Hv, Hyx | exact H].
Qed.

(** One pixel more, [(A, B)], visited. *)
Lemma frameInv_step img (v v' : nat → nat → Prop) (A B : nat) b :
  (A < height img)%nat → (B < width img)%nat →
  (∀ y x, v' y x ↔ v y x ∨ (y = A ∧ x = B)) →
  frameInv img v b →
  frameInv img v'
    (if isDark (data img) ((A * width img + B) * 4)
     then (Z.min b.1.1.1 (Z.of_nat B), Z.max b.1.1.2 (Z.of_nat B),
           Z.min b.1.2 (Z.of_nat A), Z.max b.2 (Z.of_nat A))
     else b).
Proof.
  intros HA HB Hv Hinv. destruct b as [[[mnx mxx] mny] mxy]. cbn [fst snd].
  assert (Hnew : v' A B) by (apply Hv; right; split; reflexivity).
  destruct (isDark (data img) ((A * width img + B) * 4)) eqn:Ed.
  - right. unfold frames. cbv zeta. cbn [fst snd].
    destruct Hinv as [[Hno Hinit] | (Hall & H1 & H2 & H3 & H4)].
    + injection Hinit as -> -> -> ->.
      rewrite Z.min_r, Z.max_r, Z.min_r, Z.max_r by lia.
      split_and!; try (exists A, B; split_and!; [exact Hnew | exact Ed | reflexivity]).
      intros y x Hyx Hd. apply Hv in Hyx as [Hold | [-> ->]]; [|lia].
      rewrite (Hno y x Hold) in Hd. discriminate.
    + cbn [fst snd] in *. split_and!.
      * intros y x Hyx Hd. apply Hv in Hyx as [Hold | [-> ->]]; [|lia].
        specialize (Hall y x Hold Hd). lia.
      * destruct (Z.min_spec mnx (Z.of_nat B)) as [[_ ->] | [_ ->]].
        -- destruct H1 as (y & x & Hyx & H). exists y, x.
           split; [apply Hv; left; exact Hyx | exact H].
        -- exists A, B. split_and!; [exact Hnew | exact Ed | reflexivity].
      * destruct (Z.max_spec mxx (Z.of_nat B)) as [[_ ->] | [_ ->]].
        -- exists A, B. split_and!; [exact Hnew | exact Ed | reflexivity].
        -- destruct H2 as (y & x & Hyx & H). exists y, x.
           split; [apply Hv; left; exact Hyx | exact H].
      * destruct (Z.min_spec mny (Z.of_nat A)) as [[_ ->] | [_ ->]].
        -- destruct H3 as (y & x & Hyx & H). exists y, x.
           split; [apply Hv; left; exact Hyx | exact H].
        -- exists A, B. split_and!; [exact Hnew | exact Ed | reflexivity].
      * destruct (Z.max_spec mxy (Z.of_nat A)) as [[_ ->] | [_ ->]].
        -- exists A, B. split_and!; [exact Hnew | exact Ed | reflexivity].
        -- destruct H4 as (y & x & Hyx & H). exists y, x.
           split; [apply Hv; left; exact Hyx | exact H].
  - destruct Hinv as [[Hno Hinit] | (Hall & H1 & H2 & H3 & H4)].
    + left. split; [|exact Hinit].
      intros y x Hyx. apply Hv in Hyx as [Hold | [-> ->]]; [apply Hno, Hold | exact Ed].
    + right. unfold frames. cbv zeta. split_and!.
      * intros y x Hyx Hd. apply Hv in Hyx as [Hold | [-> ->]]; [|congruence].
        apply (Hall y x Hold Hd).
      * destruct H1 as (y & x & Hyx & H). exists y, x.
        split; [apply Hv; left; exact Hyx | exact H].
      * destruct H2 as (y & x & Hyx & H). exists y, x.
        split; [apply Hv; left; exact Hyx | exact H].
      * destruct H3 as (y & x & Hyx & H). exists y, x.
        split; [apply Hv; left; exact Hyx | exact H].
      * destruct H4 as (y & x & Hyx & H). exists y, x.
        split; [apply Hv; left; exact Hyx | exact H].
Qed.

(** The pixels of the image before pixel [B] of row [A]. *)
Definition before (img : ImageData) (A B : nat) (y x : nat) : Prop :=
  (x < width img)%nat ∧ (y < A ∨ (y = A ∧ x < B))%nat.

Lemma inkBounds_frame (img : ImageData) :
  frameInv img (λ y x, (y < height img)%nat ∧ (x < width img)%nat)
           (inkBounds img).
Proof.
  apply (frameInv_ext img (before img (height img) 0)).
  { intros y x. unfold before. lia. }
  unfold inkBounds.
  apply (foldl_seq_invariant (λ A b, frameInv img (before img A 0) b)).
  - left. split; [|reflexivity]. intros y x Hyx. unfold before in Hyx. lia.
  - intros A b HA Hb.
    apply (frameInv_ext img (before img A (width img))).
    { intros y x. unfold before. lia. }
    apply (foldl_seq_invariant (λ B b, frameInv img (before img A B) b));
      [exact Hb|].
    clear b Hb. intros B b HB Hb.
    apply (frameInv_step img (before img A B) (before img A (S B)) A B b);
      [lia | lia | | exact Hb].
    intros y x. unfold before. lia.
Qed.

(** X22.  The shape features of [extractContourFeatures].  When the image
    has ink, let [x0] and [x1] be the leftmost and the rightmost column
    that hold ink and [y0] and [y1] the topmost and the bottommost row that
    hold ink: every ink pixel lies in the columns [x0 .. x1] and the rows
    [y0 .. y1], and each of these four holds an ink pixel.  With
    [cw = x1 - x0 + 1] and [ch = y1 - y0 + 1], the aspect ratio is
    [cw / ch], and the relative width [cw / width] and the relative height
    [ch / height] lie above 0 and at most at 1.  When the image has no ink,
    the bounds keep their initial values and the relative width and height
    are [(1 - width) / width] and [(1 - height) / height]. *)
Theorem extractContourFeatures_shape (img : ImageData) :
  let ink y x := isDark (data img) ((y * width img + x) * 4) = true in
  (hasInk img = true →
   ∃ x0 x1 y0 y1 : nat,
     (x0 ≤ x1 < width img)%nat ∧ (y0 ≤ y1 < height img)%nat ∧
     (∀ y x, (y < height img)%nat → (x < width img)%nat → ink y x →
        (x0 ≤ x ≤ x1)%nat ∧ (y0 ≤ y ≤ y1)%nat) ∧
     (∃ y, (y < height img)%nat ∧ ink y x0) ∧
     (∃ y, (y < height img)%nat ∧ ink y x1) ∧
     (∃ x, (x < width img)%nat ∧ ink y0 x) ∧
     (∃ x, (x < width img)%nat ∧ ink y1 x) ∧
     let cw := Z.of_nat (x1 - x0 + 1) in
     let ch := Z.of_nat (y1 - y0 + 1) in
     extractContourFeatures img !! 1%nat =
       Some (Fin (inject_Z cw / inject_Z ch)) ∧
     extractContourFeatures img !! 3%nat =
       Some (Fin (inject_Z cw / inject_Z (Z.of_nat (width img)))) ∧
     extractContourFeatures img !! 4%nat =
       Some (Fin (inject_Z ch / inject_Z (Z.of_nat (height img)))) ∧
     (0 < inject_Z cw / inject_Z (Z.of_nat (width img)))%Q ∧
     (inject_Z cw / inject_Z (Z.of_nat (width img)) <= 1)%Q ∧
     (0 < inject_Z ch / inject_Z (Z.of_nat (height img)))%Q ∧
     (inject_Z ch / inject_Z (Z.of_nat (height img)) <= 1)%Q) ∧
  (hasInk img = false →
   extractContourFeatures img !! 3%nat =
     Some (ndiv (ofZ (1 - Z.of_nat (width img))) (ofZ (Z.of_nat (width img)))) ∧
   extractContourFeatures img !! 4%nat =
     Some (ndiv (ofZ (1 - Z.of_nat (height img))) (ofZ (Z.of_nat (height img))))).
Proof.
  intros ink.
  pose proof (inkBounds_frame img) as Hinv. unfold extractContourFeatures.
  pose proof (hasInk_spec img) as Hmet.
  destruct (inkBounds img) as [[[mnx mxx] mny] mxy].
  destruct Hinv as [[Hno Hinit] | (Hall & H1 & H2 & H3 & H4)]; cbn [fst snd] in *.
  - split.
    + intros Hink. exfalso. apply Hmet in Hink as (y & x & Hy & Hx & Hd).
      rewrite (Hno y x) in Hd by (split; assumption). discriminate.
    + intros _. injection Hinit as -> -> -> ->. cbn [lookup list_lookup].
      replace (0 - Z.of_nat (width img) + 1) with (1 - Z.of_nat (width img)) by lia.
      replace (0 - Z.of_nat (height img) + 1) with (1 - Z.of_nat (height img)) by lia.
      split; reflexivity.
  - destruct H1 as (ya & x0 & [Hya Hx0] & Hda & E0).
    destruct H2 as (yb & x1 & [Hyb Hx1] & Hdb & E1).
    destruct H3 as (y0 & xc & [Hy0 Hxc] & Hdc & E2).
    destruct H4 as (y1 & xd & [Hy1 Hxd] & Hdd & E3).
    subst mnx mxx mny mxy. split.
    + intros _. exists x0, x1, y0, y1.
      pose proof (Hall ya x0 (conj Hya Hx0) Hda) as Ba.
      pose proof (Hall y0 xc (conj Hy0 Hxc) Hdc) as Bc.
      assert (Hw : 0 < Z.of_nat (width img)) by lia.
      assert (Hh : 0 < Z.of_nat (height img)) by lia.
      assert (Hwq : (0 < inject_Z (Z.of_nat (width img)))%Q)
        by (rewrite <- (Zlt_Qlt 0); exact Hw).
      assert (Hhq : (0 < inject_Z (Z.of_nat (height img)))%Q)
        by (rewrite <- (Zlt_Qlt 0); exact Hh).
      replace (Z.of_nat (x1 - x0 + 1)) with (Z.of_nat x1 - Z.of_nat x0 + 1) by lia.
      replace (Z.of_nat (y1 - y0 + 1)) with (Z.of_nat y1 - Z.of_nat y0 + 1) by lia.
      split_and!; try lia.
      * intros y x Hy Hx Hd. specialize (Hall y x (conj Hy Hx) Hd). lia.
      * exists ya. split; assumption.
      * exists yb. split; assumption.
      * exists xc. split; assumption.
      * exists xd. split; assumption.
      * cbn [lookup list_lookup]. rewrite bool_decide_eq_true_2 by lia.
        rewrite ndiv_counts by lia. reflexivity.
      * cbn [lookup list_lookup]. rewrite ndiv_counts by lia. reflexivity.
      * cbn [lookup list_lookup]. rewrite ndiv_counts by lia. reflexivity.
      * apply Qlt_shift_div_l; [exact Hwq|]. rewrite Qmult_0_l.
        rewrite <- (Zlt_Qlt 0). lia.
      * apply Qdiv_unit; lia.
      * apply Qlt_shift_div_l; [exact Hhq|]. rewrite Qmult_0_l.
        rewrite <- (Zlt_Qlt 0). lia.
      * apply Qdiv_unit; lia.
    + intros Hink. exfalso.
      assert (hasInk img = true); [|congruence].
      apply Hmet. exists ya, x0. split_and!; assumption.
Qed.

End FeatureExtractor.

(** ** KMeans (mlAlgorithms.ts) *)

(** How a call ends: with a value, or with an exception thrown. *)
Inductive outcome (A : Type) : Type :=
  | Returns (v : A)
  | Throws.
Arguments Returns {A} v.
Arguments Throws {A}.

Module KMeans.

Abbreviation point := (list num).

(** The object: [k] and [centroids]; [maxIterations] is the constant 100. *)
Record t := mk { k : nat; centroids : list point }.

Definition maxIterations : nat := 100.

(** [points[i]] of an array of points, for an index inside it. *)
Definition pointAt (ps : list point) (i : nat) : point := default [] (ps !! i).

Section WithHost.

(** [Math.sqrt], and the values of the successive calls of [Math.random],
    each in [[0, 1)], are the host's. *)
Variable Math_sqrt : Q → Q.
Variable Math_random : nat → Q.

(** [sum += (a[i] - b[i]) ** 2] over the indices of [a], then the root.  A
    [b] shorter than [a] reads [undefined] and the sum is [NaN]. *)
Definition euclideanDistance (a b : point) : num :=
  nsqrt Math_sqrt
    (foldl (λ sum i,
              let d := nsub (numAt a i) (numAt b i) in nadd sum (nmul d d))
           (Fin 0) (seq 0 (length a))).

(** The index of the first centroid at the least distance; 0 when no
    distance is below [Infinity]. *)
Definition findNearestCentroid (cs : list point) (p : point) : nat :=
  (foldl (λ st i,
            let dist := euclideanDistance p (pointAt cs i) in
            if nlt dist st.1 then (dist, i) else st)
         (PInf, 0%nat) (seq 0 (length cs))).2.

(** The coordinate-wise mean, over the dimensions of the first point. *)
Definition calculateCentroid (points : list point) : point :=
  let dimensions := length (pointAt points 0) in
  let sums :=
    foldl (λ centroid p,
             foldl (λ c i, alter (λ v, nadd v (numAt p i)) i c)
                   centroid (seq 0 dimensions))
          (replicate dimensions (Fin 0)) points in
  (λ v, ndiv v (ofZ (Z.of_nat (length points)))) <$> sums.

(** True unless some centroid moved by more than 0.001. *)
Definition checkConvergence (oldCentroids newCentroids : list point) : bool :=
  forallb (λ i, negb (ngt (euclideanDistance (pointAt oldCentroids i)
                                             (pointAt newCentroids i))
                          (Fin 0.001)))
          (seq 0 (length oldCentroids)).

(** The squared distance of every point to its nearest chosen centroid. *)
Definition seedDistances (data cs : list point) : list num :=
  (λ p, let minDist :=
          foldl (λ m c, nmin m (euclideanDistance p c)) PInf cs in
        nmul minDist minDist) <$> data.

(** [for (i ...) { random -= distances[i]; if (random <= 0) { ...; break } }]:
    the index chosen, if the loop reaches one. *)
Fixpoint seedPick (random : num) (distances : list num) (i : nat) : option nat :=
  match distances with
  | [] => None
  | d :: rest =>
      let random' := nsub random d in
      if nle random' (Fin 0) then Some i else seedPick random' rest (S i)
  end.

(** One turn of [while (centroids.length < this.k)], drawing the [j]-th
    random number. *)
Definition seedRound (data cs : list point) (j : nat) : list point :=
  let distances := seedDistances data cs in
  let sumDistances := foldl nadd (Fin 0) distances in
  let random := nmul (Fin (Math_random j)) sumDistances in
  match seedPick random distances 0 with
  | Some i => cs ++ [pointAt data i]
  | None => cs
  end.

(** The [while] loop of the seeding; [None] when [fuel] turns do not end
    it. *)
Fixpoint seedLoop (fuel : nat) (kk : nat) (data cs : list point) (j : nat)
    : option (list point) :=
  if bool_decide (length cs < kk)%nat then
    match fuel with
    | O => None
    | S fuel' => seedLoop fuel' kk data (seedRound data cs j) (S j)
    end
  else Some cs.

(** [initializeCentroids]: the first centroid is
    [data[Math.floor(Math.random() * n)]]. *)
Definition initializeCentroids (fuel : nat) (kk : nat) (data : list point)
    : option (list point) :=
  let n := Z.of_nat (length data) in
  let first := Z.to_nat (Qfloor (Math_random 0 * inject_Z n)) in
  seedLoop fuel kk data [pointAt data first] 1.

(** [clusters[clusterIndex].push(point)] for every point; [None] is the
    [TypeError] of a [clusterIndex] outside [clusters]. *)
Definition assignPoints (kk : nat) (cs data : list point)
    : option (list (list point)) :=
  foldl (λ clusters p,
           match clusters with
           | None => None
           | Some cl =>
               let clusterIndex := findNearestCentroid cs p in
               if bool_decide (clusterIndex < length cl)%nat
               then Some (alter (λ c, c ++ [p]) clusterIndex cl)
               else None
           end)
        (Some (replicate kk [])) data.

(** The new centroids: the mean of a cluster, the old centroid of an empty
    one. *)
Definition updateCentroids (kk : nat) (cs : list point)
    (clusters : list (list point)) : list point :=
  (λ i, match clusters !! i with
        | Some (p :: ps) => calculateCentroid (p :: ps)
        | _ => pointAt cs i
        end) <$> seq 0 kk.

(** [while (!converged && iterations < this.maxIterations)], entered with
    [converged = false] and [remaining = maxIterations - iterations].  The
    result is the centroids and the number of iterations run. *)
Fixpoint lloydLoop (remaining : nat) (kk : nat) (data cs : list point)
    (iterations : nat) : outcome (list point * nat) :=
  match remaining with
  | O => Returns (cs, iterations)
  | S remaining' =>
      match assignPoints kk cs data with
      | None => Throws
      | Some clusters =>
          let newCentroids := updateCentroids kk cs clusters in
          if checkConvergence cs newCentroids
          then Returns (newCentroids, S iterations)
          else lloydLoop remaining' kk data newCentroids (S iterations)
      end
  end.

(** [fit]: the value returned (or the exception) and the object afterwards;
    [None] when the seeding does not end within [fuel] turns. *)
Definition fit (fuel : nat) (km : t) (data : list point)
    : option (outcome (list point) * t) :=
  match data with
  | [] => Some (Returns [], km)
  | _ :: _ =>
      match initializeCentroids fuel (k km) data with
      | None => None
      | Some cs =>
          match lloydLoop maxIterations (k km) data cs 0 with
          | Throws => Some (Throws, {| k := k km; centroids := cs |})
          | Returns (cs', _) =>
              Some (Returns cs', {| k := k km; centroids := cs' |})
          end
      end
  end.

Definition predict (km : t) (p : point) : nat :=
  findNearestCentroid (centroids km) p.

Definition predictBatch (km : t) (data : list point) : list nat :=
  predict km <$> data.

End WithHost.

(** A crude root for examples: exact on the squares of rationals with
    square numerator and denominator. *)
Definition sqrtExample (q : Q) : Q :=
  Z.sqrt (Qnum q) # Pos.sqrt (Qden q).

Example fit_two_clusters :
  fit sqrtExample (λ _, 0.75%Q) 5 (mk 2 [])
      [[Fin 0]; [Fin 2]; [Fin 10]; [Fin 12]] =
  Some (Returns [[Fin (22 # 2)]; [Fin (2 # 2)]],
        mk 2 [[Fin (22 # 2)]; [Fin (2 # 2)]]).
Proof. vm_compute. reflexivity. Qed.


(** *** Seeding on vectors of different lengths *)

(** Two feature vectors of different arity, as [extractAllFeatures] yields
    for glyph crops of different sizes. *)
Definition raggedData : list point := [[Fin 0]; [Fin 0; Fin 1]].

Lemma Qfloor_unit (x : Q) : (0 <= x)%Q → (x < 1)%Q → Qfloor x = 0.
Proof.
  intros H0 H1.
  pose proof (Qfloor_le x) as Hle. pose proof (Qlt_floor x) as Hlt.
  assert (Ha : (inject_Z (Qfloor x) < inject_Z 1)%Q)
    by (eapply Qle_lt_trans; [exact Hle | exact H1]).
  assert (Hb : (inject_Z 0 < inject_Z (Qfloor x + 1))%Q)
    by (eapply Qle_lt_trans; [exact H0 | exact Hlt]).
  rewrite <- Zlt_Qlt in Ha, Hb. lia.
Qed.

(** With the shorter vector as only centroid, the distance of the longer
    one is [NaN], so is the sum, and no index is picked. *)
Lemma seedRound_ragged sq rnd j :
  seedRound sq rnd raggedData [[Fin 0]] j = [[Fin 0]].
Proof. vm_compute. reflexivity. Qed.

Lemma seedLoop_ragged sq rnd fuel j :
  seedLoop sq rnd fuel 2 raggedData [[Fin 0]] j = None.
Proof.
  revert j. induction fuel as [|fuel IH]; intros j; [reflexivity|].
  cbn [seedLoop]. rewrite bool_decide_eq_true_2 by (simpl; lia).
  rewrite seedRound_ragged. apply IH.
Qed.

(** C6 (the code at a failing input).  With [k = 2], the two vectors
    [[0]] and [[0, 1]] and a first random number below 1/2 (so the first
    centroid is [[0]]), no number of turns ends the seeding loop: [fit] does
    not return. *)
Theorem fit_diverges_on_ragged_data (Math_sqrt : Q → Q) (Math_random : nat → Q) :
  (0 <= Math_random 0%nat)%Q → (Math_random 0%nat < 1 # 2)%Q →
  ∀ fuel, fit Math_sqrt Math_random fuel (mk 2 []) raggedData = None.
Proof.
  intros H0 H1 fuel. unfold fit, raggedData at 1. fold raggedData.
  unfold initializeCentroids.
  replace (Qfloor (Math_random 0%nat * inject_Z (Z.of_nat (length raggedData))))
    with 0.
  - change (pointAt raggedData (Z.to_nat 0)) with [Fin 0].
    rewrite seedLoop_ragged. reflexivity.
  - symmetry.
    change (inject_Z (Z.of_nat (length raggedData))) with 2%Q.
    apply Qfloor_unit; lra.
Qed.

Lemma fit_diverges_on_ragged_data_witness :
  fit sqrtExample (λ _, 0%Q) 1000 (mk 2 []) raggedData = None.
Proof.
  apply (fit_diverges_on_ragged_data sqrtExample (λ _, 0%Q));
    [discriminate | reflexivity].
Defined.


(** *** The Lloyd loop ends *)

(** A finite non-negative number. *)
Definition nonnegFin (v : num) : Prop := ∃ q, (0 <= q)%Q ∧ v = Fin q.

(** A vector of [d] finite numbers. *)
Definition uniform (d : nat) (p : point) : Prop :=
  length p = d ∧ Forall (λ v, ∃ q, v = Fin q) p.

(** The value of a finite number. *)
Definition qval (v : num) : Q :=
  match v with
  | Fin q => q
  | _ => 0%Q
  end.

Lemma Qsquare_nonneg (z : Q) : (0 <= z * z)%Q.
Proof.
  destruct (Qlt_le_dec z 0).
  - assert (E : ((- z) * (- z) == z * z)%Q) by ring.
    rewrite <- E. apply Qmult_le_0_compat; lra.
  - apply Qmult_le_0_compat; lra.
Qed.

Lemma pointAt_lookup (ps : list point) (i : nat) (p : point) :
  ps !! i = Some p → pointAt ps i = p.
Proof. intros H. unfold pointAt. rewrite H. reflexivity. Qed.

Lemma pointAt_Forall (P : point → Prop) (ps : list point) (i : nat) :
  Forall P ps → (i < length ps)%nat → P (pointAt ps i).
Proof.
  intros Hall Hi. destruct (lookup_lt_is_Some_2 ps i Hi) as [p Hp].
  rewrite (pointAt_lookup ps i p Hp). apply (Forall_lookup_1 _ _ _ _ Hall Hp).
Qed.

Lemma numAt_uniform d (p : point) i :
  uniform d p → (i < d)%nat → ∃ q, numAt p i = Fin q.
Proof.
  intros [Hlen Hfin] Hi. unfold numAt.
  destruct (lookup_lt_is_Some_2 p i ltac:(lia)) as [v Hv].
  rewrite Hv. apply (Forall_lookup_1 _ _ _ _ Hfin Hv).
Qed.

Section Termination.

Variable Math_sqrt : Q → Q.

Lemma findNearestCentroid_bound (cs : list point) (p : point) :
  cs ≠ [] → (findNearestCentroid Math_sqrt cs p < length cs)%nat.
Proof.
  intros Hne. unfold findNearestCentroid.
  apply (foldl_seq_invariant (λ _ (st : num * nat), (st.2 < length cs)%nat)).
  - simpl. destruct cs; [contradiction | simpl; lia].
  - intros i st Hi Hst. destruct (nlt _ _); [exact Hi | exact Hst].
Qed.

Lemma assignPoints_some (kk : nat) (cs data : list point) :
  cs ≠ [] → length cs = kk →
  ∃ clusters, assignPoints Math_sqrt kk cs data = Some clusters ∧
              length clusters = kk.
Proof.
  intros Hne Hlen. unfold assignPoints.
  assert (H : ∀ (ps : list point) (cl : list (list point)),
            length cl = kk →
            ∃ clusters,
              foldl (λ clusters p,
                       match clusters with
                       | None => None
                       | Some cl =>
                           let clusterIndex := findNearestCentroid Math_sqrt cs p in
                           if bool_decide (clusterIndex < length cl)%nat
                           then Some (alter (λ c, c ++ [p]) clusterIndex cl)
                           else None
                       end) (Some cl) ps = Some clusters ∧
              length clusters = kk).
  { induction ps as [|p ps IH]; intros cl Hcl.
    - exists cl. split; [reflexivity | exact Hcl].
    - simpl. pose proof (findNearestCentroid_bound cs p Hne) as Hb.
      rewrite bool_decide_eq_true_2 by lia.
      apply IH. rewrite length_alter. exact Hcl. }
  apply H. apply length_replicate.
Qed.

Lemma updateCentroids_length (kk : nat) (cs : list point)
    (clusters : list (list point)) :
  length (updateCentroids kk cs clusters) = kk.
Proof. unfold updateCentroids. rewrite length_fmap. apply length_seq. Qed.

(** The Lloyd loop returns, after at most [remaining] more iterations. *)
Lemma lloydLoop_returns (kk : nat) (data : list point) :
  (1 ≤ kk)%nat →
  ∀ remaining cs iterations, length cs = kk →
    ∃ cs' n, lloydLoop Math_sqrt remaining kk data cs iterations
             = Returns (cs', n) ∧
             length cs' = kk ∧ (iterations ≤ n ≤ iterations + remaining)%nat.
Proof.
  intros Hk remaining.
  induction remaining as [|remaining IH]; intros cs iterations Hlen.
  - exists cs, iterations. split_and!; [reflexivity | exact Hlen | lia | lia].
  - cbn [lloydLoop].
    destruct (assignPoints_some kk cs data) as (clusters & -> & Hcl);
      [destruct cs; [simpl in Hlen; lia | discriminate] | exact Hlen |].
    destruct (checkConvergence _ _ _).
    + eexists _, _. split_and!; [reflexivity | apply updateCentroids_length | lia | lia].
    + destruct (IH (updateCentroids kk cs clusters) (S iterations)
                  (updateCentroids_length kk cs clusters))
        as (cs' & n & -> & Hlen' & Hn).
      exists cs', n. split_and!; [reflexivity | exact Hlen' | lia | lia].
Qed.

(** The loop stops at the first iteration after which no centroid has moved
    by more than 0.001; in particular when each has moved by less. *)
Lemma lloydLoop_stops (remaining kk : nat) (data cs : list point)
    (iterations : nat) (clusters : list (list point)) :
  assignPoints Math_sqrt kk cs data = Some clusters →
  checkConvergence Math_sqrt cs (updateCentroids kk cs clusters) = true →
  lloydLoop Math_sqrt (S remaining) kk data cs iterations =
  Returns (updateCentroids kk cs clusters, S iterations).
Proof. intros Ha Hc. cbn [lloydLoop]. rewrite Ha, Hc. reflexivity. Qed.

Lemma nlt_asym (a b : num) : nlt a b = true → nlt b a = false.
Proof.
  destruct a as [x| | |], b as [y| | |]; simpl; try discriminate; try reflexivity.
  destruct (Qlt_le_dec x y), (Qlt_le_dec y x); try discriminate; try reflexivity.
  exfalso. lra.
Qed.

Lemma checkConvergence_small_moves (oldCentroids newCentroids : list point) :
  (∀ i, (i < length oldCentroids)%nat →
     nlt (euclideanDistance Math_sqrt (pointAt oldCentroids i)
                            (pointAt newCentroids i)) (Fin 0.001) = true) →
  checkConvergence Math_sqrt oldCentroids newCentroids = true.
Proof.
  intros Hmove. unfold checkConvergence. apply forallb_forall.
  intros i Hi%in_seq. unfold ngt. rewrite nlt_asym; [reflexivity|].
  apply Hmove. lia.
Qed.

End Termination.


(** *** After the seeding *)

Lemma seedRound_length (Math_sqrt : Q → Q) (Math_random : nat → Q)
    (data cs : list point) (j : nat) :
  (length cs ≤ length (seedRound Math_sqrt Math_random data cs j)
   ≤ S (length cs))%nat.
Proof.
  unfold seedRound. cbv zeta. destruct (seedPick _ _ _).
  - rewrite length_app. simpl. lia.
  - lia.
Qed.

(** The seeding returns only with [k] centroids. *)
Lemma seedLoop_length (Math_sqrt : Q → Q) (Math_random : nat → Q)
    (kk : nat) (data : list point) :
  ∀ fuel cs j cs',
    (length cs ≤ kk)%nat →
    seedLoop Math_sqrt Math_random fuel kk data cs j = Some cs' →
    length cs' = kk.
Proof.
  intros fuel. induction fuel as [|fuel IH]; intros cs j cs' Hle; cbn [seedLoop];
    destruct (decide (length cs < kk)%nat) as [Hlt|Hge].
  - rewrite bool_decide_eq_true_2 by exact Hlt. discriminate.
  - rewrite bool_decide_eq_false_2 by exact Hge. intros [= <-]. lia.
  - rewrite bool_decide_eq_true_2 by exact Hlt. apply IH.
    pose proof (seedRound_length Math_sqrt Math_random data cs j). lia.
  - rewrite bool_decide_eq_false_2 by exact Hge. intros [= <-]. lia.
Qed.

(** X1.  Once the seeding has returned, [fit] returns: with [k >= 1] and a
    data set that is not empty, the seeding returns [k] centroids if it
    returns, the Lloyd loop that follows throws no exception and ends after
    at most 100 iterations, and [fit] returns [k] centroids, which it has
    stored in the object.  This holds whatever the values of the distances
    are. *)
Theorem fit_returns_after_seeding (Math_sqrt : Q → Q) (Math_random : nat → Q)
    (fuel : nat) (km : t) (data cs0 : list point) :
  (1 ≤ k km)%nat → data ≠ [] →
  initializeCentroids Math_sqrt Math_random fuel (k km) data = Some cs0 →
  length cs0 = k km ∧
  ∃ cs n,
    lloydLoop Math_sqrt maxIterations (k km) data cs0 0 = Returns (cs, n) ∧
    (n ≤ 100)%nat ∧ length cs = k km ∧
    fit Math_sqrt Math_random fuel km data =
    Some (Returns cs, {| k := k km; centroids := cs |}).
Proof.
  intros Hk Hdne Hinit.
  assert (Hlen0 : length cs0 = k km).
  { unfold initializeCentroids in Hinit. cbv zeta in Hinit.
    refine (seedLoop_length _ _ _ _ _ _ _ _ _ Hinit). simpl. lia. }
  split; [exact Hlen0|].
  destruct (lloydLoop_returns Math_sqrt (k km) data Hk maxIterations cs0 0%nat Hlen0)
    as (cs & n & Hloop & Hlen & Hn).
  exists cs, n. split_and!; try assumption.
  - unfold maxIterations in Hn. lia.
  - unfold fit. destruct data as [|p data']; [contradiction|].
    rewrite Hinit, Hloop. reflexivity.
Qed.

(** The theorem at four one-dimensional points and [k = 2], where the
    seeding returns the centroids 12 and 2. *)
Lemma fit_returns_after_seeding_witness :
  ∃ cs n,
    lloydLoop sqrtExample maxIterations 2
      [[Fin 0]; [Fin 2]; [Fin 10]; [Fin 12]] [[Fin 12]; [Fin 2]] 0
      = Returns (cs, n) ∧
    (n ≤ 100)%nat ∧ length cs = 2%nat ∧
    fit sqrtExample (λ _, 0.75%Q) 5 (mk 2 [])
      [[Fin 0]; [Fin 2]; [Fin 10]; [Fin 12]] =
    Some (Returns cs, {| k := 2; centroids := cs |}).
Proof.
  apply (fit_returns_after_seeding sqrtExample (λ _, 0.75%Q) 5 (mk 2 [])
           [[Fin 0]; [Fin 2]; [Fin 10]; [Fin 12]] [[Fin 12]; [Fin 2]]).
  - simpl. lia.
  - discriminate.
  - vm_compute. reflexivity.
Defined.


(** *** The nearest centroid *)





Section Nearest.

Variable Math_sqrt : Q → Q.
Variable cs : list point.
Variable p : point.




End Nearest.


(** *** One iteration of the Lloyd loop *)

(** The data points whose nearest centroid is [i], in the order of the
    data. *)
Definition cluster (Math_sqrt : Q → Q) (cs data : list point) (i : nat)
    : list point :=
  filter (λ p, findNearestCentroid Math_sqrt cs p = i) data.

Lemma cluster_snoc Math_sqrt cs data p i :
  cluster Math_sqrt cs (data ++ [p]) i =
  if decide (findNearestCentroid Math_sqrt cs p = i)
  then cluster Math_sqrt cs data i ++ [p]
  else cluster Math_sqrt cs data i.
Proof.
  unfold cluster. rewrite filter_app, filter_cons, filter_nil.
  destruct (decide _); [reflexivity | apply app_nil_r].
Qed.

Lemma assignPoints_clusters Math_sqrt (kk : nat) (cs data : list point) :
  (∀ p, p ∈ data → (findNearestCentroid Math_sqrt cs p < kk)%nat) →
  assignPoints Math_sqrt kk cs data =
  Some (cluster Math_sqrt cs data <$> seq 0 kk).
Proof.
  unfold assignPoints. induction data as [|p data IH] using rev_ind; intros Hb.
  - cbn [foldl]. f_equal. apply list_eq. intros i.
    rewrite list_lookup_fmap.
    destruct (decide (i < kk)%nat) as [Hi|Hi].
    + rewrite lookup_replicate_2, lookup_seq_lt by exact Hi. reflexivity.
    + rewrite (proj1 (lookup_replicate_None _ _ _)), lookup_seq_ge by lia. reflexivity.
  - rewrite foldl_app. cbn [foldl]. rewrite IH.
    2:{ intros q Hq. apply Hb, elem_of_app. left. exact Hq. }
    assert (Hp : (findNearestCentroid Math_sqrt cs p < kk)%nat).
    { apply Hb, elem_of_app. right. left. }
    cbv zeta. rewrite length_fmap, length_seq.
    rewrite bool_decide_eq_true_2 by exact Hp. f_equal.
    apply list_eq. intros i. rewrite list_lookup_fmap.
    destruct (decide (i = findNearestCentroid Math_sqrt cs p)) as [->|Hne].
    + rewrite list_lookup_alter_eq, list_lookup_fmap.
      rewrite lookup_seq_lt by exact Hp. cbn.
      rewrite cluster_snoc, decide_True by reflexivity. reflexivity.
    + rewrite list_lookup_alter_ne by congruence. rewrite list_lookup_fmap.
      destruct (seq 0 kk !! i) as [i'|] eqn:E; [|reflexivity].
      apply lookup_seq in E as [-> _]. cbn.
      rewrite cluster_snoc, decide_False by congruence. reflexivity.
Qed.

(** X13.  One iteration of the Lloyd loop, with as many centroids as
    clusters: cluster [i] receives exactly the data points whose nearest
    centroid is [i], in the order of the data, so that every point lands in
    one cluster; the new centroid [i] is the centroid of that cluster, and
    the old centroid [i] when the cluster is empty. *)
Theorem lloyd_iteration (Math_sqrt : Q → Q) (kk : nat) (cs data : list point) :
  (0 < kk)%nat → length cs = kk →
  assignPoints Math_sqrt kk cs data =
    Some (cluster Math_sqrt cs data <$> seq 0 kk) ∧
  (∀ p, p ∈ data →
     ∃ i, (i < kk)%nat ∧ p ∈ cluster Math_sqrt cs data i ∧
          ∀ j, p ∈ cluster Math_sqrt cs data j → j = i) ∧
  (∀ i, (i < kk)%nat →
     updateCentroids kk cs (cluster Math_sqrt cs data <$> seq 0 kk) !! i =
     Some (if decide (cluster Math_sqrt cs data i = []) then pointAt cs i
           else calculateCentroid (cluster Math_sqrt cs data i))).
Proof.
  intros Hk Hlen.
  assert (Hb : ∀ p, (findNearestCentroid Math_sqrt cs p < kk)%nat).
  { intros p. rewrite <- Hlen. apply findNearestCentroid_bound.
    destruct cs; [cbn in Hlen; lia | discriminate]. }
  split_and!.
  - apply assignPoints_clusters. intros p _. apply Hb.
  - intros p Hp. exists (findNearestCentroid Math_sqrt cs p).
    split_and!; [apply Hb | |].
    + apply list_elem_of_filter. split; [reflexivity | exact Hp].
    + intros j Hj%list_elem_of_filter. symmetry. exact (proj1 Hj).
  - intros i Hi. unfold updateCentroids.
    rewrite list_lookup_fmap, lookup_seq_lt by exact Hi. cbn.
    rewrite list_lookup_fmap, lookup_seq_lt by exact Hi. cbn.
    destruct (cluster Math_sqrt cs data i) as [|q qs].
    + rewrite decide_True by reflexivity. reflexivity.
    + rewrite decide_False by discriminate. reflexivity.
Qed.

Lemma lloyd_iteration_witness :
  assignPoints sqrtExample 2 [[Fin 10]; [Fin 0]]
    [[Fin 0]; [Fin 2]; [Fin 10]; [Fin 12]] =
  Some [[[Fin 10]; [Fin 12]]; [[Fin 0]; [Fin 2]]].
Proof.
  apply (proj1 (lloyd_iteration sqrtExample 2 [[Fin 10]; [Fin 0]]
                  [[Fin 0]; [Fin 2]; [Fin 10]; [Fin 12]]
                  ltac:(lia) eq_refl)).
Defined.

(** *** The centroid of a cluster *)






(** *** No clusters *)

Lemma assignPoints_none Math_sqrt (cs data : list point) :
  data ≠ [] → assignPoints Math_sqrt 0 cs data = None.
Proof.
  destruct data as [|p data]; [contradiction|]. intros _.
  unfold assignPoints. cbn [foldl replicate length]. cbv zeta.
  rewrite bool_decide_eq_false_2 by (cbn; lia).
  induction data as [|q data IH]; [reflexivity | exact IH].
Qed.

(** X15.  With [k = 0], [fit] on data that is not empty throws (the first
    point is pushed onto a cluster that does not exist), whatever the
    random numbers are; the object is left with the one seed centroid. *)
Theorem fit_throws_without_clusters (Math_sqrt : Q → Q) (Math_random : nat → Q)
    (fuel : nat) (km : t) (data : list point) :
  k km = 0%nat → data ≠ [] →
  ∃ seed, fit Math_sqrt Math_random fuel km data =
          Some (Throws, {| k := 0; centroids := [seed] |}).
Proof.
  intros Hk Hne. unfold fit. destruct data as [|p data]; [contradiction|].
  rewrite Hk. unfold initializeCentroids. cbv zeta.
  eexists. destruct fuel; cbn [seedLoop length]; rewrite bool_decide_eq_false_2 by lia;
    unfold maxIterations; cbn [lloydLoop];
    rewrite assignPoints_none by discriminate; reflexivity.
Qed.

Lemma fit_throws_without_clusters_witness :
  ∃ seed, fit sqrtExample (λ _, 0.75%Q) 0 (mk 0 []) [[Fin 1]; [Fin 2]] =
          Some (Throws, {| k := 0; centroids := [seed] |}).
Proof.
  apply (fit_throws_without_clusters sqrtExample (λ _, 0.75%Q) 0 (mk 0 [])
           [[Fin 1]; [Fin 2]]); [reflexivity | discriminate].
Defined.

End KMeans.

(** ** KNN (mlAlgorithms.ts) *)

Module KNN.

(** [FeatureVector]: [label] is optional. *)
Record FeatureVector := mkFeatureVector {
  features : list num;
  label : option string
}.

(** The object: [k] and the stored training data. *)
Record t := mk { k : nat; trainingData : list FeatureVector }.

(** An entry of [distances]. *)
Record Neighbor := mkNeighbor { neighborLabel : string; distance : num }.

(** The result of [predictWithConfidence]; [None] is [null]. *)
Record Prediction := mkPrediction {
  predictedLabel : option string;
  confidence : num
}.

(** [fit] stores the data. *)
Definition fit (knn : t) (data : list FeatureVector) : t :=
  {| k := k knn; trainingData := data |}.

Section WithHost.

(** [Math.sqrt] and [Array.prototype.sort] are the host's. *)
Variable Math_sqrt : Q → Q.
Variable Array_sort : ∀ A : Type, (A → A → num) → list A → list A.

Definition euclideanDistance (a b : list num) : num :=
  nsqrt Math_sqrt
    (foldl (λ sum i,
              let d := nsub (numAt a i) (numAt b i) in nadd sum (nmul d d))
           (Fin 0) (seq 0 (length a))).

(** The distance to every stored sample that has a label ([if
    (sample.label)]: present and not the empty string), sorted by distance,
    cut to the [k] nearest. *)
Definition kNearest (knn : t) (feats : list num) : list Neighbor :=
  let distances :=
    flat_map (λ sample,
                let dist := euclideanDistance feats (features sample) in
                match label sample with
                | Some l => if bool_decide (l = EmptyString) then []
                            else [mkNeighbor l dist]
                | None => []
                end)
             (trainingData knn) in
  let sorted := Array_sort Neighbor
                  (λ a b, nsub (distance a) (distance b)) distances in
  take (Nat.min (k knn) (length sorted)) sorted.

Definition predict (knn : t) (feats : list num) : option string :=
  match trainingData knn with
  | [] => None
  | _ :: _ =>
      let votes :=
        foldl (λ votes neighbor, upsert Z.succ 0 (neighborLabel neighbor) votes)
              [] (kNearest knn feats) in
      (foldl (λ best (entry : string * Z),
                if bool_decide (best.1 < entry.2)
                then (entry.2, Some entry.1) else best)
             (0, None) votes).2
  end.

Definition predictBatch (knn : t) (fs : list (list num)) : list (option string) :=
  predict knn <$> fs.

Definition predictWithConfidence (knn : t) (feats : list num) : Prediction :=
  match trainingData knn with
  | [] => {| predictedLabel := None; confidence := Fin 0 |}
  | _ :: _ =>
      let st :=
        foldl (λ (st : list (string * num) * num) neighbor,
                 let weight :=
                   ndiv (Fin 1) (nadd (distance neighbor) (Fin 0.001)) in
                 (upsert (λ current, nadd (orZero current) weight) (Fin 0)
                       (neighborLabel neighbor) st.1,
                  nadd st.2 weight))
              ([], Fin 0) (kNearest knn feats) in
      let votes := st.1 in
      let totalWeight := st.2 in
      let best :=
        foldl (λ (best : num * option string) (entry : string * num),
                 if ngt entry.2 best.1 then (entry.2, Some entry.1) else best)
              (Fin 0, None) votes in
      {| predictedLabel := best.2;
         confidence := if ngt totalWeight (Fin 0)
                       then ndiv best.1 totalWeight else Fin 0 |}
  end.

End WithHost.

(** A stable insertion sort, for examples. *)
Fixpoint insertSorted {A : Type} (cmp : A → A → num) (x : A) (l : list A)
    : list A :=
  match l with
  | [] => [x]
  | y :: rest =>
      if ngt (cmp y x) (Fin 0) then x :: y :: rest
      else y :: insertSorted cmp x rest
  end.

Definition sortExample (A : Type) (cmp : A → A → num) (l : list A) : list A :=
  foldl (λ acc x, insertSorted cmp x acc) [] l.

Example predict_nearest :
  predict KMeans.sqrtExample sortExample
    (mk 1 [mkFeatureVector [Fin 0] (Some "a"%string);
           mkFeatureVector [Fin 9] (Some "b"%string)])
    [Fin 8] = Some "b"%string.
Proof. vm_compute. reflexivity. Qed.


(** *** The neighbours and the confidence of a prediction *)

(** [if (sample.label)]: the sample has a label that is not empty. *)
Definition hasLabel (sample : FeatureVector) : bool :=
  match label sample with
  | Some l => negb (bool_decide (l = EmptyString))
  | None => false
  end.

(** The entry of [distances] of a sample that has a label. *)
Definition neighborOf (Math_sqrt : Q → Q) (feats : list num)
    (sample : FeatureVector) : Neighbor :=
  mkNeighbor (default EmptyString (label sample))
             (euclideanDistance Math_sqrt feats (features sample)).

Lemma distances_labelled (Math_sqrt : Q → Q) (feats : list num)
    (samples : list FeatureVector) :
  flat_map (λ sample,
              let dist := euclideanDistance Math_sqrt feats (features sample) in
              match label sample with
              | Some l => if bool_decide (l = EmptyString) then []
                          else [mkNeighbor l dist]
              | None => []
              end) samples =
  neighborOf Math_sqrt feats <$> filter (λ s, hasLabel s = true) samples.
Proof.
  induction samples as [|s samples IH]; [reflexivity|].
  match goal with
  | |- flat_map ?f (s :: samples) = _ =>
      change (flat_map f (s :: samples)) with (f s ++ flat_map f samples)
  end.
  rewrite IH, filter_cons. cbv beta zeta.
  destruct (label s) as [l|] eqn:El.
  - destruct (bool_decide_reflect (l = EmptyString)) as [Hl|Hl].
    + rewrite decide_False; [reflexivity|]. unfold hasLabel. rewrite El.
      rewrite bool_decide_eq_true_2 by exact Hl. discriminate.
    + rewrite decide_True.
      * rewrite fmap_cons. unfold neighborOf. rewrite El. reflexivity.
      * unfold hasLabel. rewrite El.
        rewrite bool_decide_eq_false_2 by exact Hl. reflexivity.
  - rewrite decide_False; [reflexivity|]. unfold hasLabel. rewrite El.
    discriminate.
Qed.

(** The weight of a neighbour: [1 / (distance + 0.001)]. *)
Definition weightOf (neighbor : Neighbor) : num :=
  ndiv (Fin 1) (nadd (distance neighbor) (Fin 0.001)).

Lemma weightOf_pos (neighbor : Neighbor) :
  KMeans.nonnegFin (distance neighbor) →
  ∃ w, weightOf neighbor = Fin w ∧ (0 < w)%Q.
Proof.
  intros (d & Hd & Hdist). unfold weightOf. rewrite Hdist. cbn.
  destruct (Qeq_bool (d + 0.001) 0) eqn:E.
  { apply Qeq_bool_iff in E. exfalso. lra. }
  eexists. split; [reflexivity|].
  apply Qlt_shift_div_l; lra.
Qed.

(** All votes are positive numbers. *)
Definition posVotes (votes : list (string * num)) : Prop :=
  Forall (λ entry : string * num, ∃ v, entry.2 = Fin v ∧ (0 < v)%Q) votes.

(** The sum of the votes. *)
Definition votesTotal (votes : list (string * num)) : Q :=
  foldr (λ (entry : string * num) s, (KMeans.qval entry.2 + s)%Q) 0%Q votes.

Lemma votesTotal_cons (l : string) (x : Q) votes :
  votesTotal ((l, Fin x) :: votes) = (x + votesTotal votes)%Q.
Proof. reflexivity. Qed.

Lemma votesTotal_nonneg votes : posVotes votes → (0 <= votesTotal votes)%Q.
Proof.
  induction 1 as [|[l v] votes (x & Hx & Hpos) _ IH]; [cbn; lra|].
  cbn in Hx. subst v. rewrite votesTotal_cons. lra.
Qed.

Lemma votesTotal_pos votes :
  posVotes votes → votes ≠ [] → (0 < votesTotal votes)%Q.
Proof.
  intros Hpos Hne. destruct Hpos as [|[l v] votes (x & Hx & Hx') Hrest];
    [contradiction|].
  cbn in Hx. subst v. rewrite votesTotal_cons.
  pose proof (votesTotal_nonneg votes Hrest). lra.
Qed.

Lemma upsert_votes (w : Q) (l : string) (votes : list (string * num)) :
  (0 < w)%Q → posVotes votes →
  posVotes (upsert (λ current, nadd (orZero current) (Fin w)) (Fin 0) l votes) ∧
  (votesTotal (upsert (λ current, nadd (orZero current) (Fin w)) (Fin 0) l votes)
   == votesTotal votes + w)%Q ∧
  upsert (λ current, nadd (orZero current) (Fin w)) (Fin 0) l votes ≠ [].
Proof.
  intros Hw. induction 1 as [|[l' v] votes (x & Hx & Hpos) Hrest IH].
  - cbn [upsert nadd orZero]. split_and!; [| |discriminate].
    + constructor; [|constructor]. exists (0 + w)%Q. split; [reflexivity | lra].
    + rewrite votesTotal_cons. cbn. lra.
  - cbn [upsert]. cbn in Hx. subst v. destruct (decide (l' = l)) as [->|Hne].
    + cbn [nadd orZero]. split_and!; [| |discriminate].
      * constructor; [|exact Hrest]. exists (x + w)%Q. split; [reflexivity | lra].
      * rewrite !votesTotal_cons. lra.
    + destruct IH as (IHpos & IHtot & _). split_and!; [| |discriminate].
      * constructor; [|exact IHpos]. exists x. split; [reflexivity | exact Hpos].
      * rewrite !votesTotal_cons, IHtot. lra.
Qed.

(** The weighted votes and their total over a list of neighbours. *)
Definition weighVotes (neighbors : list Neighbor) : list (string * num) * num :=
  foldl (λ (st : list (string * num) * num) neighbor,
           let weight :=
             ndiv (Fin 1) (nadd (distance neighbor) (Fin 0.001)) in
           (upsert (λ current, nadd (orZero current) weight) (Fin 0)
                   (neighborLabel neighbor) st.1,
            nadd st.2 weight))
        ([], Fin 0) neighbors.

Lemma weighVotes_spec (neighbors : list Neighbor) :
  Forall (λ n, KMeans.nonnegFin (distance n)) neighbors →
  posVotes (weighVotes neighbors).1 ∧
  (∃ T, (weighVotes neighbors).2 = Fin T ∧
        (votesTotal (weighVotes neighbors).1 == T)%Q) ∧
  ((weighVotes neighbors).1 = [] ↔ neighbors = []) ∧
  (weighVotes neighbors).1.*1 ⊆ neighborLabel <$> neighbors.
Proof.
  unfold weighVotes. induction neighbors as [|n neighbors IH] using rev_ind;
    intros Hall.
  - cbn. split_and!; [constructor | exists 0%Q; split; [reflexivity | lra] | tauto |].
    intros x Hx. exact Hx.
  - apply Forall_app in Hall as [Hall Hn]. rewrite Forall_singleton in Hn.
    destruct (IH Hall) as (Hpos & (T & HT & Htot) & _ & Hsub).
    rewrite foldl_app. cbn [foldl]. cbv zeta.
    destruct (foldl _ _ neighbors) as [votes total]. cbn [fst snd] in *.
    destruct (weightOf_pos n Hn) as (w & Hw & Hwpos). unfold weightOf in Hw.
    rewrite Hw. destruct (upsert_votes w (neighborLabel n) votes Hwpos Hpos)
      as (Hpos' & Htot' & Hne').
    split_and!.
    + exact Hpos'.
    + subst total. cbn. eexists. split; [reflexivity|]. rewrite Htot', Htot. lra.
    + split; [intros E; contradiction | intros E; destruct neighbors; discriminate].
    + rewrite upsert_keys, fmap_app. destruct (decide _).
      * intros x Hx. apply elem_of_app. left. apply Hsub, Hx.
      * intros x [Hx | Hx]%elem_of_app; apply elem_of_app;
          [left; apply Hsub, Hx | right; exact Hx].
Qed.

(** The entry with the greatest weight, from [(0, null)]. *)
Definition bestVote (votes : list (string * num)) : num * option string :=
  foldl (λ (best : num * option string) (entry : string * num),
           if ngt entry.2 best.1 then (entry.2, Some entry.1) else best)
        (Fin 0, None) votes.

Lemma bestVote_spec (votes : list (string * num)) :
  posVotes votes →
  ∃ M, (bestVote votes).1 = Fin M ∧ (M <= votesTotal votes)%Q ∧
       ((votes = [] ∧ (bestVote votes).2 = None ∧ M = 0%Q) ∨
        ((0 < M)%Q ∧ ∃ l, (bestVote votes).2 = Some l ∧ l ∈ votes.*1)).
Proof.
  unfold bestVote. induction votes as [|[l v] votes IH] using rev_ind;
    intros Hpos.
  - exists 0%Q. cbn. split_and!; [reflexivity | lra | left; auto].
  - apply Forall_app in Hpos as [Hpos Hv]. rewrite Forall_singleton in Hv.
    destruct Hv as (x & Hx & Hxpos). cbn in Hx. subst v.
    destruct (IH Hpos) as (M & HM & Hle & Hcase).
    rewrite foldl_app. cbn [foldl].
    destruct (foldl _ _ votes) as [m best]. cbn [fst snd] in *. subst m.
    assert (Htot : (votesTotal (votes ++ [(l, Fin x)]) == votesTotal votes + x)%Q).
    { clear. unfold votesTotal. rewrite foldr_app. cbn [foldr snd KMeans.qval].
      generalize (x + 0)%Q (Qplus_0_r x). intros y Hy.
      induction votes as [|e votes IH]; cbn [foldr]; [lra|].
      rewrite IH. lra. }
    pose proof (votesTotal_nonneg votes Hpos) as Hnn.
    unfold ngt. cbn [nlt]. destruct (Qlt_le_dec M x) as [Hlt|Hge]; cbn [fst snd].
    + exists x. split_and!; [reflexivity | rewrite Htot; lra |].
      right. split; [exact Hxpos|]. exists l. split; [reflexivity|].
      rewrite fmap_app. apply elem_of_app. right. left.
    + exists M. split_and!; [reflexivity | rewrite Htot; lra |].
      destruct Hcase as [(-> & _ & ->) | (HMpos & l' & Hl' & Hin)]; [exfalso; lra|].
      right. split; [exact HMpos|]. exists l'. split; [exact Hl'|].
      rewrite fmap_app. apply elem_of_app. left. exact Hin.
Qed.

Lemma euclideanDistance_nonneg (Math_sqrt : Q → Q) (d : nat) (a b : list num) :
  (∀ q, (0 <= q)%Q → (0 <= Math_sqrt q)%Q) →
  KMeans.uniform d a → KMeans.uniform d b →
  KMeans.nonnegFin (euclideanDistance Math_sqrt a b).
Proof.
  intros Hsqrt Ha Hb. unfold euclideanDistance.
  set (s := foldl _ _ _).
  assert (Hsum : ∃ q, (0 <= q)%Q ∧ s = Fin q).
  { subst s. apply (foldl_seq_invariant (λ _ s, ∃ q, (0 <= q)%Q ∧ s = Fin q)).
    - exists 0%Q. split; [lra | reflexivity].
    - intros i s Hi (q & Hq & ->).
      destruct (KMeans.numAt_uniform d a i Ha ltac:(destruct Ha; lia)) as [x ->].
      destruct (KMeans.numAt_uniform d b i Hb ltac:(destruct Ha; lia)) as [y ->].
      exists (q + (x + - y) * (x + - y))%Q. split; [|reflexivity].
      pose proof (KMeans.Qsquare_nonneg (x + - y)). lra. }
  destruct Hsum as (q & Hq & ->). cbn.
  destruct (Qlt_le_dec q 0) as [Hlt|_]; [exfalso; lra|].
  exists (Math_sqrt q). split; [apply Hsqrt, Hq | reflexivity].
Qed.

Section Neighbours.

Variable Math_sqrt : Q → Q.
Variable Array_sort : ∀ A : Type, (A → A → num) → list A → list A.

(** [Array.prototype.sort] rearranges the array. *)
Hypothesis Array_sort_perm :
  ∀ (A : Type) (cmp : A → A → num) (l : list A), Array_sort A cmp l ≡ₚ l.

Lemma kNearest_length (knn : t) (feats : list num) :
  length (kNearest Math_sqrt Array_sort knn feats) =
  Nat.min (k knn) (length (filter (λ s, hasLabel s = true) (trainingData knn))).
Proof.
  unfold kNearest. cbv zeta. rewrite distances_labelled.
  rewrite length_take, (Permutation_length (Array_sort_perm _ _ _)), length_fmap.
  lia.
Qed.

Lemma kNearest_stored (knn : t) (feats : list num) (n : Neighbor) :
  n ∈ kNearest Math_sqrt Array_sort knn feats →
  ∃ sample, sample ∈ trainingData knn ∧
            label sample = Some (neighborLabel n) ∧
            neighborLabel n ≠ EmptyString ∧
            distance n = euclideanDistance Math_sqrt feats (features sample).
Proof.
  unfold kNearest. cbv zeta. rewrite distances_labelled.
  intros Hn. apply subseteq_take in Hn. rewrite Array_sort_perm in Hn.
  apply list_elem_of_fmap in Hn as (sample & -> & Hs).
  apply list_elem_of_filter in Hs as [Hl Hs]. exists sample.
  unfold hasLabel in Hl. unfold neighborOf. cbn.
  destruct (label sample) as [l|]; [|discriminate]. cbn.
  split_and!; [exact Hs | reflexivity | | reflexivity].
  intros ->. rewrite bool_decide_eq_true_2 in Hl by reflexivity. discriminate.
Qed.

Hypothesis Math_sqrt_nonneg : ∀ q, (0 <= q)%Q → (0 <= Math_sqrt q)%Q.

(** X16.  For a query and stored samples that are finite vectors of one
    length, [predictWithConfidence] returns a confidence between 0 and 1.
    The label is [null] when [k] is 0 or no stored sample has a label;
    whenever the label is [null] the confidence is 0; and a label that is
    not [null] is the non-empty label of a stored sample. *)
Theorem predictWithConfidence_range (knn : t) (feats : list num) (d : nat) :
  KMeans.uniform d feats →
  Forall (λ s, KMeans.uniform d (features s)) (trainingData knn) →
  ∃ c, confidence (predictWithConfidence Math_sqrt Array_sort knn feats) = Fin c ∧
       (0 <= c)%Q ∧ (c <= 1)%Q ∧
       (k knn = 0%nat ∨ filter (λ s, hasLabel s = true) (trainingData knn) = [] →
        predictedLabel (predictWithConfidence Math_sqrt Array_sort knn feats) = None) ∧
       (predictedLabel (predictWithConfidence Math_sqrt Array_sort knn feats) = None →
        c = 0%Q) ∧
       (∀ l, predictedLabel (predictWithConfidence Math_sqrt Array_sort knn feats)
             = Some l →
             l ≠ EmptyString ∧
             ∃ sample, sample ∈ trainingData knn ∧ label sample = Some l).
Proof.
  intros Hfeats Hdata. unfold predictWithConfidence.
  destruct (trainingData knn) as [|s0 rest] eqn:Etd.
  { exists 0%Q. cbn. split_and!; [reflexivity | lra | lra | reflexivity | reflexivity |].
    intros l Hl. discriminate. }
  rewrite <- Etd in *. cbv zeta.
  fold (weighVotes (kNearest Math_sqrt Array_sort knn feats)).
  set (near := kNearest Math_sqrt Array_sort knn feats).
  fold (bestVote (weighVotes near).1).
  assert (Hnear : Forall (λ n, KMeans.nonnegFin (distance n)) near).
  { apply Forall_forall. intros n Hn.
    destruct (kNearest_stored knn feats n Hn) as (sample & Hs & _ & _ & ->).
    apply (euclideanDistance_nonneg Math_sqrt d); [exact Math_sqrt_nonneg | exact Hfeats |].
    rewrite Forall_forall in Hdata. apply Hdata, Hs. }
  destruct (weighVotes_spec near Hnear) as (Hpos & (T & HT & Htot) & Hnil & Hsub).
  destruct (bestVote_spec _ Hpos) as (M & HM & Hle & Hcase).
  assert (Hlen : near = [] ↔
            k knn = 0%nat ∨ filter (λ s, hasLabel s = true) (trainingData knn) = []).
  { pose proof (kNearest_length knn feats) as Hl. fold near in Hl.
    rewrite <- (length_zero_iff_nil near), Hl.
    rewrite <- (length_zero_iff_nil (filter _ _)). lia. }
  rewrite HT, HM. unfold ngt. cbn [nlt ndiv].
  destruct Hcase as [(Hv & -> & ->) | (HMpos & l0 & -> & Hin)].
  - assert (HT0 : (T == 0)%Q) by (rewrite <- Htot, Hv; reflexivity).
    destruct (Qlt_le_dec 0 T) as [Hlt|_]; [exfalso; lra|].
    exists 0%Q. cbn. split_and!; [reflexivity | lra | lra | reflexivity | reflexivity |].
    intros l Hl. discriminate.
  - assert (Hne : (weighVotes near).1 ≠ []).
    { intros E. rewrite E in Hin. apply elem_of_nil in Hin. exact Hin. }
    pose proof (votesTotal_pos _ Hpos Hne) as HTpos. rewrite Htot in HTpos.
    destruct (Qlt_le_dec 0 T) as [_|Hge]; [|exfalso; lra].
    destruct (Qeq_bool T 0) eqn:E.
    { apply Qeq_bool_iff in E. exfalso. lra. }
    exists (M / T)%Q. cbn. split_and!; [reflexivity | | | | discriminate |].
    + apply Qle_shift_div_l; lra.
    + apply Qle_shift_div_r; lra.
    + intros Hk. exfalso. apply Hne, Hnil, Hlen, Hk.
    + intros l [= <-].
      apply Hsub in Hin. apply list_elem_of_fmap in Hin as (n & -> & Hn).
      destruct (kNearest_stored knn feats n Hn) as (sample & Hs & Hl & Hne' & _).
      split; [exact Hne'|]. exists sample. split; assumption.
Qed.

End Neighbours.

Lemma insertSorted_rearranges {A : Type} (cmp : A → A → num) (x : A) (l : list A) :
  insertSorted cmp x l ≡ₚ x :: l.
Proof.
  induction l as [|y l IH]; [reflexivity|].
  cbn [insertSorted]. destruct (ngt _ _); [reflexivity|].
  rewrite IH. apply Permutation_swap.
Qed.

Lemma sortExample_rearranges (A : Type) (cmp : A → A → num) (l : list A) :
  sortExample A cmp l ≡ₚ l.
Proof.
  unfold sortExample. induction l as [|x l IH] using rev_ind; [reflexivity|].
  rewrite foldl_app. cbn [foldl]. rewrite insertSorted_rearranges, IH.
  rewrite Permutation_app_comm. reflexivity.
Qed.

Lemma sqrtExample_nonneg (q : Q) : (0 <= q)%Q → (0 <= KMeans.sqrtExample q)%Q.
Proof.
  intros _. unfold KMeans.sqrtExample, Qle. cbn.
  pose proof (Z.sqrt_nonneg (Qnum q)). lia.
Qed.

Lemma predictWithConfidence_range_witness :
  ∃ c, confidence (predictWithConfidence KMeans.sqrtExample sortExample
                     (mk 1 [mkFeatureVector [Fin 0] (Some "a"%string);
                            mkFeatureVector [Fin 9] (Some "b"%string)])
                     [Fin 8]) = Fin c ∧ (0 <= c)%Q ∧ (c <= 1)%Q.
Proof.
  destruct (predictWithConfidence_range KMeans.sqrtExample sortExample
              sortExample_rearranges sqrtExample_nonneg
              (mk 1 [mkFeatureVector [Fin 0] (Some "a"%string);
                     mkFeatureVector [Fin 9] (Some "b"%string)])
              [Fin 8] 1) as (c & Hc & H0 & H1 & _).
  - split; [reflexivity|]. repeat constructor. eexists; reflexivity.
  - repeat constructor; cbn; eexists; reflexivity.
  - exists c. split_and!; assumption.
Defined.

End KNN.

(** ** Empty input *)

(** C10.  Empty input ends each call at once with the empty result and no
    exception: [KMeans.fit] on an empty data set returns an empty centroid
    list (whatever the object, leaving it as it is), [KNN.predict] with no
    stored training data returns [null], and [KNN.predictWithConfidence]
    returns [{label: null, confidence: 0}]. *)
Theorem empty_input_is_a_no_op :
  (∀ (Math_sqrt : Q → Q) (Math_random : nat → Q) (fuel : nat) (km : KMeans.t),
     KMeans.fit Math_sqrt Math_random fuel km [] = Some (Returns [], km)) ∧
  (∀ (Math_sqrt : Q → Q)
     (Array_sort : ∀ A : Type, (A → A → num) → list A → list A)
     (k : nat) (feats : list num),
     KNN.predict Math_sqrt Array_sort (KNN.mk k []) feats = None ∧
     KNN.predictWithConfidence Math_sqrt Array_sort (KNN.mk k []) feats =
     {| KNN.predictedLabel := None; KNN.confidence := Fin 0 |}).
Proof.
  split.
  - intros. reflexivity.
  - intros. split; reflexivity.
Qed.

(** ** EnhancedOCREngine (enhancedOcrEngine.ts) *)

Module EnhancedOCREngine.

Record BBox := mkBBox {
  bbox_x : Q;
  bbox_y : Q;
  bbox_width : Q;
  bbox_height : Q
}.

Inductive Source := ocr | manual.

(** [EnhancedOCRResult extends CharacterItem]; [clusterId] is optional. *)
Record EnhancedOCRResult := mkResult {
  id : string;
  char : string;
  bbox : BBox;
  confidence : Q;
  imageData : string;
  source : Source;
  segmentationScore : Q;
  mlConfidence : Q;
  clusterId : option Z
}.

(** The [results] array is a store of result objects; a cluster, and the
    sorted copy of the context pass, hold references to them, which are
    positions in the store. *)
Abbreviation Store := (list EnhancedOCRResult).

(** *** clusterBasedCorrection *)

(** [clusters]: for every [result] with a [clusterId], in order,
    [cluster = clusters.get(id) || []; cluster.push(result);
    clusters.set(id, cluster)]. *)
Definition groupStep (results : Store) (clusters : list (Z * list nat))
    (i : nat) : list (Z * list nat) :=
  match results !! i with
  | Some result =>
      match clusterId result with
      | Some c => upsert (λ cluster, cluster ++ [i]) [] c clusters
      | None => clusters
      end
  | None => clusters
  end.

Definition groupByCluster (results : Store) : list (Z * list nat) :=
  foldl (groupStep results) [] (seq 0 (length results)).

(** [charCounts] of a cluster. *)
Definition countChars (s : Store) (cluster : list nat) : list (string * Z) :=
  foldl (λ charCounts i,
           match s !! i with
           | Some item => upsert Z.succ 0 (char item) charCounts
           | None => charCounts
           end)
        [] cluster.

(** [(maxCount, mostCommonChar)], from [(0, '')]. *)
Definition mostCommon (charCounts : list (string * Z)) : Z * string :=
  foldl (λ best (entry : string * Z),
           if bool_decide (best.1 < entry.2) then (entry.2, entry.1) else best)
        (0, EmptyString) charCounts.

(** The correction of one member. *)
Definition correctItem (mostCommonChar : string) (item : EnhancedOCRResult)
    : EnhancedOCRResult :=
  if bool_decide (char item ≠ mostCommonChar)
     && (if Qlt_le_dec (confidence item) 50 then true else false)
  then {| id := id item; char := mostCommonChar; bbox := bbox item;
          confidence := confidence item; imageData := imageData item;
          source := source item;
          segmentationScore := segmentationScore item;
          mlConfidence := Qmax (mlConfidence item) 0.6;
          clusterId := clusterId item |}
  else item.

(** Body of [for (const [_, cluster] of clusters)]. *)
Definition correctCluster (s : Store) (cluster : list nat) : Store :=
  if bool_decide (length cluster < 2)%nat then s
  else
    let best := mostCommon (countChars s cluster) in
    if Qlt_le_dec (inject_Z (Z.of_nat (length cluster)) / 2) (inject_Z best.1)
    then foldl (λ s' i, alter (correctItem best.2) i s') s cluster
    else s.

Definition clusterBasedCorrection (results : Store) : Store :=
  foldl (λ s (entry : Z * list nat), correctCluster s entry.2)
        results (groupByCluster results).

(** *** contextBasedCorrection *)

(** The comparator of the reading-order sort. *)
Definition readingOrder (a b : EnhancedOCRResult) : Q :=
  if Qlt_le_dec 20 (Qabs (bbox_y (bbox a) - bbox_y (bbox b)))
  then bbox_y (bbox a) - bbox_y (bbox b)
  else bbox_x (bbox a) - bbox_x (bbox b).

(** [curr.confidence = Math.max(0, curr.confidence - 20)]. *)
Definition penalize (item : EnhancedOCRResult) : EnhancedOCRResult :=
  {| id := id item; char := char item; bbox := bbox item;
     confidence := Qmax 0 (confidence item - 20);
     imageData := imageData item; source := source item;
     segmentationScore := segmentationScore item;
     mlConfidence := mlConfidence item;
     clusterId := clusterId item |}.

(** Body of [for (let i = 1; i < sorted.length; i++)] for the adjacent
    references [prev] and [curr]. *)
Definition contextStep (s : Store) (prev curr : nat) : Store :=
  match s !! prev, s !! curr with
  | Some p, Some c =>
      if bool_decide (char p = char c)
         && (if Qlt_le_dec (confidence p) 40 then true else false)
         && (if Qlt_le_dec (confidence c) 40 then true else false)
      then alter penalize curr s
      else s
  | _, _ => s
  end.

(** The loop over the adjacent pairs of [sorted]. *)
Fixpoint contextLoop (s : Store) (sorted : list nat) : Store :=
  match sorted with
  | prev :: ((curr :: _) as rest) => contextLoop (contextStep s prev curr) rest
  | _ => s
  end.

Section WithSort.

(** [Array.prototype.sort] is the host's.  The comparator is not a
    consistent order (the 20-pixel tolerance is not transitive), so the
    order of the result is the implementation's; it is a permutation of
    the array. *)
Variable Array_sort : ∀ A : Type, (A → A → Q) → list A → list A.

(** [sorted = [...results].sort(...)], as references. *)
Definition sortedRefs (results : Store) : list nat :=
  Array_sort nat
    (λ i j, match results !! i, results !! j with
            | Some a, Some b => readingOrder a b
            | _, _ => 0%Q
            end)
    (seq 0 (length results)).

Definition contextBasedCorrection (results : Store) : Store :=
  contextLoop results (sortedRefs results).

End WithSort.

(** A stable insertion sort, for examples. *)
Fixpoint insertSorted {A : Type} (cmp : A → A → Q) (x : A) (l : list A)
    : list A :=
  match l with
  | [] => [x]
  | y :: rest =>
      if Qlt_le_dec 0 (cmp y x) then x :: y :: rest
      else y :: insertSorted cmp x rest
  end.

Definition sortExample (A : Type) (cmp : A → A → Q) (l : list A) : list A :=
  foldl (λ acc x, insertSorted cmp x acc) [] l.

(** Two "A" and one "B" in one cluster, as in the specification. *)
Definition glyph (c : string) (x conf : Q) (cid : Z) : EnhancedOCRResult :=
  mkResult c c (mkBBox x 0 10 10) conf EmptyString ocr 0.8 0.3 (Some cid).

Example cluster_majority_relabels_low_confidence :
  char <$> clusterBasedCorrection
             [glyph "A" 0 30 0; glyph "A" 12 30 0; glyph "B" 24 45 0]
  = ["A"; "A"; "A"]%string.
Proof. vm_compute. reflexivity. Qed.

Example cluster_majority_keeps_confident :
  char <$> clusterBasedCorrection
             [glyph "A" 0 30 0; glyph "A" 12 30 0; glyph "B" 24 50 0]
  = ["A"; "A"; "B"]%string.
Proof. vm_compute. reflexivity. Qed.

Example context_penalizes_second :
  confidence <$> contextBasedCorrection sortExample
                   [glyph "A" 12 30 0; glyph "A" 0 10 0; glyph "B" 24 45 0]
  = [Qmax 0 (30 - 20); 10%Q; 45%Q].
Proof. vm_compute. reflexivity. Qed.


(** *** The context pass penalizes the second of an adjacent pair *)









Lemma insertSorted_perm {A : Type} (cmp : A → A → Q) (x : A) (l : list A) :
  Permutation (insertSorted cmp x l) (x :: l).
Proof.
  induction l as [|y l IH]; simpl; [reflexivity|].
  destruct (Qlt_le_dec 0 (cmp y x)); [reflexivity|].
  rewrite IH. apply perm_swap.
Qed.

Lemma sortExample_perm (A : Type) (cmp : A → A → Q) (l : list A) :
  Permutation (sortExample A cmp l) l.
Proof.
  unfold sortExample.
  assert (H : ∀ acc, Permutation (foldl (λ acc x, insertSorted cmp x acc) acc l)
                                 (l ++ acc)).
  { induction l as [|x l IH]; intros acc; simpl; [reflexivity|].
    rewrite IH, insertSorted_perm. symmetry. apply Permutation_middle. }
  rewrite H, app_nil_r. reflexivity.
Qed.

Section ContextPass.

Variable Array_sort : ∀ A : Type, (A → A → Q) → list A → list A.
Hypothesis Array_sort_perm :
  ∀ (A : Type) (cmp : A → A → Q) (l : list A), Permutation (Array_sort A cmp l) l.



End ContextPass.



(** *** The cluster pass replaces by a strict majority only *)

(** Occurrences of a character in a list of characters. *)
Definition count (ch : string) (L : list string) : nat :=
  length (filter (λ x, x = ch) L).

(** The character that occurs in strictly more than half of [L], if any. *)
Definition majorityChar (L : list string) : option string :=
  head (filter (λ ch, (length L < 2 * count ch L)%nat) L).

(** The members of cluster [c]. *)
Definition members (results : Store) (c : Z) : list EnhancedOCRResult :=
  filter (λ r, clusterId r = Some c) results.

(** What the pass makes of a result. *)
Definition expectedItem (results : Store) (r : EnhancedOCRResult)
    : EnhancedOCRResult :=
  match clusterId r with
  | Some c =>
      match majorityChar (char <$> members results c) with
      | Some ch => correctItem ch r
      | None => r
      end
  | None => r
  end.

Lemma count_snoc (ch x : string) (L : list string) :
  count ch (L ++ [x]) = (count ch L + if decide (x = ch) then 1 else 0)%nat.
Proof.
  unfold count. rewrite filter_app, length_app, filter_cons, filter_nil.
  destruct (decide (x = ch)); reflexivity.
Qed.

Lemma count_elem_of (ch : string) (L : list string) :
  count ch L ≠ 0%nat ↔ ch ∈ L.
Proof.
  unfold count. split.
  - intros Hc. destruct (filter (λ x, x = ch) L) as [|y l] eqn:E; [contradiction|].
    assert (Hy : y ∈ filter (λ x, x = ch) L) by (rewrite E; left).
    apply list_elem_of_filter in Hy as [-> Hy]. exact Hy.
  - intros Hin Hc. apply length_zero_iff_nil in Hc.
    assert (Hy : ch ∈ filter (λ x, x = ch) L)
      by (apply list_elem_of_filter; split; [reflexivity | exact Hin]).
    rewrite Hc in Hy. apply elem_of_nil in Hy. contradiction.
Qed.

Lemma count_two (x y : string) (L : list string) :
  x ≠ y → (count x L + count y L ≤ length L)%nat.
Proof.
  intros Hne. unfold count. induction L as [|z L IH]; [simpl; lia|].
  rewrite !filter_cons.
  destruct (decide (z = x)), (decide (z = y)); simpl length; try lia.
  congruence.
Qed.

(** [charCounts] as a function of the characters of the cluster. *)
Definition tally (L : list string) : list (string * Z) :=
  foldl (λ cc ch, upsert Z.succ 0 ch cc) [] L.

Lemma tally_spec (L : list string) :
  NoDup (tally L).*1 ∧
  ∀ ch, mapGet ch (tally L) =
        if decide (count ch L = 0%nat) then None
        else Some (Z.of_nat (count ch L)).
Proof.
  induction L as [|x L [IHnd IH]] using rev_ind.
  - split; [apply NoDup_nil_2 | intros ch; reflexivity].
  - unfold tally in *. rewrite foldl_app. cbn [foldl].
    split; [apply upsert_NoDup; exact IHnd|].
    intros ch. rewrite count_snoc. destruct (decide (x = ch)) as [->|Hne].
    + rewrite mapGet_upsert_eq, IH.
      rewrite (decide_False (P := (count ch L + 1 = 0)%nat)) by lia.
      destruct (decide (count ch L = 0%nat)) as [->|]; simpl; f_equal; lia.
    + rewrite mapGet_upsert_ne by congruence. rewrite IH, Nat.add_0_r. reflexivity.
Qed.

Lemma mostCommon_spec (cc : list (string * Z)) :
  (∀ k v, (k, v) ∈ cc → 0 < v) →
  (cc = [] ∧ mostCommon cc = (0, EmptyString)) ∨
  (((mostCommon cc).2, (mostCommon cc).1) ∈ cc ∧
   ∀ k v, (k, v) ∈ cc → v ≤ (mostCommon cc).1).
Proof.
  induction cc as [|[k0 v0] cc IH] using rev_ind; intros Hpos.
  - left. split; reflexivity.
  - right. unfold mostCommon in *. rewrite foldl_app. cbn [foldl fst snd].
    assert (Hpos' : ∀ k v, (k, v) ∈ cc → 0 < v).
    { intros k v Hin. apply (Hpos k v). apply elem_of_app. left. exact Hin. }
    assert (Hv0 : 0 < v0).
    { apply (Hpos k0 v0). apply elem_of_app. right. left. }
    destruct (IH Hpos') as [[-> Hbest] | [Hin Hmax]].
    + simpl. rewrite bool_decide_eq_true_2 by exact Hv0. simpl.
      split; [left|]. intros k v [= -> ->]%list_elem_of_singleton. lia.
    + destruct (foldl _ _ cc) as [m ch]. cbn [fst snd] in *.
      case_bool_decide as Hlt; cbn [fst snd].
      * split; [apply elem_of_app; right; left|].
        intros k v [Hk | [= -> ->]%list_elem_of_singleton]%elem_of_app; [|lia].
        specialize (Hmax k v Hk). lia.
      * split; [apply elem_of_app; left; exact Hin|].
        intros k v [Hk | [= -> ->]%list_elem_of_singleton]%elem_of_app; [|lia].
        apply (Hmax k v Hk).
Qed.

Lemma half_lt (len m : Z) :
  (inject_Z len / 2 < inject_Z m)%Q ↔ len < 2 * m.
Proof.
  rewrite Zlt_Qlt, inject_Z_mult. change (inject_Z 2) with 2%Q.
  set (a := inject_Z len). set (b := inject_Z m).
  assert (E : (a / 2 == a * (1 # 2))%Q) by reflexivity.
  rewrite E. split; intros H; lra.
Qed.

(** The test of the source agrees with the majority of the
    specification. *)
Lemma majority_decision (L : list string) :
  (if Qlt_le_dec (inject_Z (Z.of_nat (length L)) / 2)
                 (inject_Z (mostCommon (tally L)).1)
   then Some (mostCommon (tally L)).2 else None) = majorityChar L.
Proof.
  destruct (tally_spec L) as [Hnd Hget].
  assert (Hval : ∀ k v, (k, v) ∈ tally L →
            v = Z.of_nat (count k L) ∧ count k L ≠ 0%nat).
  { intros k v Hin. apply (mapGet_elem_of _ _ _ Hnd) in Hin.
    rewrite Hget in Hin. destruct (decide (count k L = 0%nat)); [discriminate|].
    split; [congruence | assumption]. }
  assert (Hin : ∀ k, k ∈ L → (k, Z.of_nat (count k L)) ∈ tally L).
  { intros k Hk. apply (mapGet_elem_of _ _ _ Hnd). rewrite Hget.
    apply count_elem_of in Hk. rewrite decide_False by exact Hk. reflexivity. }
  unfold majorityChar.
  destruct (mostCommon_spec (tally L)) as [[Hnil Hbest] | [Hmem Hmax]].
  { intros k v Hkv. destruct (Hval k v Hkv) as [-> ?]. lia. }
  - rewrite Hbest. cbn [fst snd].
    destruct L as [|x L].
    + destruct (Qlt_le_dec _ _) as [Hlt|_]; [|reflexivity].
      apply half_lt in Hlt. simpl in Hlt. lia.
    + exfalso. specialize (Hin x ltac:(left)). rewrite Hnil in Hin.
      apply elem_of_nil in Hin. exact Hin.
  - destruct (mostCommon (tally L)) as [m ch]. cbn [fst snd] in *.
    destruct (Hval ch m Hmem) as [-> Hch].
    destruct (Qlt_le_dec _ _) as [Hlt|Hge].
    + apply half_lt in Hlt.
      assert (Hall : Forall (λ x, x = ch)
                (filter (λ c, (length L < 2 * count c L)%nat) L)).
      { apply Forall_forall. intros x [Hx _]%list_elem_of_filter.
        destruct (decide (x = ch)) as [|Hne]; [assumption|].
        pose proof (count_two x ch L Hne). lia. }
      assert (Hne : ch ∈ filter (λ c, (length L < 2 * count c L)%nat) L).
      { apply list_elem_of_filter. split; [lia | apply count_elem_of; exact Hch]. }
      destruct (filter _ L) as [|y l]; [apply elem_of_nil in Hne; contradiction|].
      apply Forall_cons in Hall as [-> _]. reflexivity.
    + assert (Hnone : filter (λ c, (length L < 2 * count c L)%nat) L = []).
      { destruct (filter _ L) as [|x l] eqn:E; [reflexivity|]. exfalso.
        assert (Hx : x ∈ filter (λ c, (length L < 2 * count c L)%nat) L)
          by (rewrite E; left).
        apply list_elem_of_filter in Hx as [Hmaj Hx].
        specialize (Hmax x _ (Hin x Hx)).
        assert (Hlt : Z.of_nat (length L) < 2 * Z.of_nat (count ch L)) by lia.
        apply half_lt in Hlt. lra. }
      rewrite Hnone. reflexivity.
Qed.


(** Reference [i] of the store is a result of cluster [c]. *)
Definition inCluster (results : Store) (c : Z) (i : nat) : Prop :=
  results !! i ≫= clusterId = Some c.

Global Instance inCluster_dec results c i : Decision (inCluster results c i).
Proof. unfold inCluster. apply _. Defined.

(** The references of cluster [c] among the first [n] results. *)
Definition idxsOf (results : Store) (c : Z) (n : nat) : list nat :=
  filter (inCluster results c) (seq 0 n).

Lemma idxsOf_S results c n :
  idxsOf results c (S n) =
  idxsOf results c n ++ (if decide (inCluster results c n) then [n] else []).
Proof.
  unfold idxsOf. rewrite seq_S, filter_app, filter_cons, filter_nil. reflexivity.
Qed.

(** [clusters] after the first [n] results. *)
Lemma groupByCluster_inv (results : Store) (n : nat) :
  (n ≤ length results)%nat →
  NoDup (foldl (groupStep results) [] (seq 0 n)).*1 ∧
  ∀ c, mapGet c (foldl (groupStep results) [] (seq 0 n)) =
       match idxsOf results c n with
       | [] => None
       | l => Some l
       end.
Proof.
  intros Hn.
  apply (foldl_seq_invariant
           (λ n (cl : list (Z * list nat)),
              NoDup cl.*1 ∧
              ∀ c, mapGet c cl = match idxsOf results c n with
                                 | [] => None
                                 | l => Some l
                                 end)).
  - split; [apply NoDup_nil_2 | intros c; reflexivity].
  - intros i cl Hi [Hnd Hget]. unfold groupStep.
    destruct (lookup_lt_is_Some_2 results i ltac:(lia)) as [r Hr]. rewrite Hr.
    destruct (clusterId r) as [c0|] eqn:Hc0.
    + split; [apply upsert_NoDup; exact Hnd|].
      intros c. rewrite idxsOf_S. destruct (decide (c = c0)) as [->|Hne].
      * rewrite mapGet_upsert_eq, Hget.
        rewrite decide_True by (unfold inCluster; rewrite Hr; exact Hc0).
        destruct (idxsOf results c0 i) as [|a l]; reflexivity.
      * rewrite mapGet_upsert_ne by exact Hne. rewrite Hget.
        rewrite decide_False, app_nil_r; [reflexivity|].
        unfold inCluster. rewrite Hr. simpl. congruence.
    + split; [exact Hnd|]. intros c. rewrite idxsOf_S, Hget.
      rewrite decide_False, app_nil_r; [reflexivity|].
      unfold inCluster. rewrite Hr. simpl. congruence.
Qed.

Lemma omap_cons_unfold {A B : Type} (f : A → option B) (x : A) (l : list A) :
  omap f (x :: l) =
  match f x with Some y => y :: omap f l | None => omap f l end.
Proof. reflexivity. Qed.

(** The results behind the references of a cluster are its members. *)
Lemma omap_lookup_members (pre l : Store) (c : Z) :
  omap (λ i, (pre ++ l) !! i)
       (filter (inCluster (pre ++ l) c) (seq (length pre) (length l))) =
  filter (λ r, clusterId r = Some c) l.
Proof.
  revert pre. induction l as [|x l IH]; intros pre; [reflexivity|].
  cbn [length seq]. rewrite !filter_cons.
  assert (Hx : (pre ++ x :: l) !! length pre = Some x).
  { rewrite lookup_app_r by lia. rewrite Nat.sub_diag. reflexivity. }
  specialize (IH (pre ++ [x])). rewrite <- app_assoc in IH. cbn [app] in IH.
  rewrite length_app in IH. cbn [length] in IH.
  replace (length pre + 1)%nat with (S (length pre)) in IH by lia.
  destruct (decide (clusterId x = Some c)) as [Hc|Hc].
  - rewrite decide_True by (unfold inCluster; rewrite Hx; exact Hc).
    rewrite omap_cons_unfold, Hx. f_equal. exact IH.
  - rewrite decide_False by (unfold inCluster; rewrite Hx; exact Hc). exact IH.
Qed.

Lemma idxsOf_members (results : Store) (c : Z) :
  omap (λ i, results !! i) (idxsOf results c (length results)) =
  members results c.
Proof. apply (omap_lookup_members [] results c). Qed.

Lemma omap_lookup_ext (s s' : Store) (idxs : list nat) :
  (∀ i, i ∈ idxs → s !! i = s' !! i) →
  omap (λ i, s !! i) idxs = omap (λ i, s' !! i) idxs.
Proof.
  induction idxs as [|i idxs IH]; intros Hext; [reflexivity|].
  rewrite !omap_cons_unfold, (Hext i) by left.
  rewrite IH; [reflexivity|]. intros j Hj. apply Hext. right. exact Hj.
Qed.

Lemma countChars_tally (s : Store) (idxs : list nat) :
  countChars s idxs = tally (char <$> omap (λ i, s !! i) idxs).
Proof.
  unfold countChars, tally. generalize ([] : list (string * Z)).
  induction idxs as [|i idxs IH]; intros acc; [reflexivity|].
  cbn [foldl]. rewrite omap_cons_unfold. destruct (s !! i) as [item|]; [|apply IH].
  rewrite fmap_cons. cbn [foldl]. apply IH.
Qed.

Lemma majorityChar_singleton (r : EnhancedOCRResult) :
  majorityChar (char <$> [r]) = Some (char r).
Proof.
  unfold majorityChar, count. rewrite !fmap_cons, !fmap_nil.
  rewrite filter_cons, filter_nil.
  destruct (decide _) as [_|Hn]; [reflexivity|]. exfalso. apply Hn.
  rewrite filter_cons, decide_True by reflexivity. simpl. lia.
Qed.

Lemma correctItem_same (r : EnhancedOCRResult) : correctItem (char r) r = r.
Proof.
  unfold correctItem. rewrite bool_decide_eq_false_2 by tauto. reflexivity.
Qed.

(** What the source does for one cluster whose references are distinct and
    present in the store. *)
Lemma correctCluster_lookup (s : Store) (idxs : list nat) (j : nat) :
  NoDup idxs → (∀ i, i ∈ idxs → is_Some (s !! i)) →
  correctCluster s idxs !! j =
  if decide (j ∈ idxs)
  then (λ r, match majorityChar (char <$> omap (λ i, s !! i) idxs) with
             | Some ch => correctItem ch r
             | None => r
             end) <$> s !! j
  else s !! j.
Proof.
  intros Hnd Hsome. set (L := char <$> omap (λ i, s !! i) idxs).
  assert (HL : length L = length idxs).
  { unfold L. rewrite length_fmap. clear Hnd.
    induction idxs as [|i idxs IH]; [reflexivity|].
    rewrite omap_cons_unfold. destruct (Hsome i ltac:(left)) as [r ->].
    cbn [length]. rewrite IH; [reflexivity|].
    intros k Hk. apply Hsome. right. exact Hk. }
  unfold correctCluster. case_bool_decide as Hshort.
  - destruct (decide (j ∈ idxs)) as [Hj|]; [|reflexivity].
    destruct idxs as [|i [|i' idxs]]; [apply elem_of_nil in Hj; contradiction | |simpl in Hshort; lia].
    apply list_elem_of_singleton in Hj. subst j.
    destruct (Hsome i ltac:(left)) as [r Hr].
    unfold L. rewrite omap_cons_unfold, Hr.
    change (omap (λ i0, s !! i0) []) with ([] : list EnhancedOCRResult).
    rewrite majorityChar_singleton. cbn [fmap option_fmap option_map].
    rewrite correctItem_same. reflexivity.
  - rewrite countChars_tally. fold L.
    pose proof (majority_decision L) as Hdec. rewrite HL in Hdec.
    destruct (Qlt_le_dec _ _) as [Hlt|Hge]; rewrite <- Hdec.
    + apply foldl_alter_lookup. exact Hnd.
    + destruct (decide (j ∈ idxs)); [|reflexivity].
      destruct (s !! j); reflexivity.
Qed.

Lemma correctCluster_length (s : Store) (idxs : list nat) :
  length (correctCluster s idxs) = length s.
Proof.
  unfold correctCluster. destruct (bool_decide _); [reflexivity|].
  destruct (Qlt_le_dec _ _); [apply foldl_alter_length | reflexivity].
Qed.


(** The store after the clusters [done] have been corrected. *)
Definition correctedUpTo (results : Store) (done : list (Z * list nat))
    (s : Store) : Prop :=
  length s = length results ∧
  ∀ i r, results !! i = Some r →
    s !! i = Some (match clusterId r with
                   | Some c => if decide (c ∈ done.*1)
                               then expectedItem results r else r
                   | None => r
                   end).

Lemma correctCluster_step (results : Store) (done rest : list (Z * list nat))
    (c : Z) (idxs : list nat) (s : Store) :
  groupByCluster results = done ++ (c, idxs) :: rest →
  correctedUpTo results done s →
  correctedUpTo results (done ++ [(c, idxs)]) (correctCluster s idxs).
Proof.
  intros Hcl [Hlen Hs].
  destruct (groupByCluster_inv results (length results) ltac:(lia)) as [Hnd Hget].
  fold (groupByCluster results) in Hnd, Hget. rewrite Hcl in Hnd, Hget.
  assert (Hidxs : idxs = idxsOf results c (length results)).
  { assert (Hm : mapGet c (done ++ (c, idxs) :: rest) = Some idxs).
    { apply (mapGet_elem_of _ _ _ Hnd). apply elem_of_app. right. left. }
    rewrite Hget in Hm. destruct (idxsOf results c (length results));
      [discriminate | congruence]. }
  assert (Hfresh : c ∉ done.*1).
  { rewrite fmap_app, fmap_cons in Hnd. apply NoDup_app in Hnd as (_ & Hdis & _).
    intros Hin. apply (Hdis c Hin). left. }
  assert (Hndi : NoDup idxs).
  { rewrite Hidxs. apply NoDup_filter, NoDup_seq. }
  assert (Hmem : ∀ i, i ∈ idxs ↔ inCluster results c i).
  { intros i. rewrite Hidxs. unfold idxsOf. rewrite list_elem_of_filter, elem_of_seq.
    split; [tauto|]. intros Hi. split; [exact Hi|]. unfold inCluster in Hi.
    destruct (results !! i) eqn:E; [|discriminate].
    apply lookup_lt_Some in E. lia. }
  assert (Hsame : ∀ i, i ∈ idxs → s !! i = results !! i).
  { intros i Hi. apply Hmem in Hi. unfold inCluster in Hi.
    destruct (results !! i) as [r|] eqn:Hr; [|discriminate]. simpl in Hi.
    rewrite (Hs i r Hr), Hi. rewrite decide_False by exact Hfresh. reflexivity. }
  assert (Hsome : ∀ i, i ∈ idxs → is_Some (s !! i)).
  { intros i Hi. rewrite (Hsame i Hi). apply Hmem in Hi. unfold inCluster in Hi.
    destruct (results !! i); [eexists; reflexivity | discriminate]. }
  assert (HL : omap (λ i, s !! i) idxs = members results c).
  { rewrite (omap_lookup_ext s results idxs Hsame), Hidxs. apply idxsOf_members. }
  split; [rewrite correctCluster_length; exact Hlen|].
  intros i r Hr. rewrite (correctCluster_lookup s idxs i Hndi Hsome), HL.
  destruct (decide (i ∈ idxs)) as [Hi|Hi].
  - rewrite (Hsame i Hi), Hr. cbn [fmap option_fmap option_map].
    apply Hmem in Hi. unfold inCluster in Hi. rewrite Hr in Hi. simpl in Hi.
    rewrite Hi. rewrite decide_True
      by (rewrite fmap_app; apply elem_of_app; right; left).
    unfold expectedItem. rewrite Hi. reflexivity.
  - rewrite (Hs i r Hr). destruct (clusterId r) as [c'|] eqn:Hc'; [|reflexivity].
    assert (Hne : c' ≠ c).
    { intros ->. apply Hi. apply Hmem. unfold inCluster. rewrite Hr. exact Hc'. }
    destruct (decide (c' ∈ done.*1)) as [Hin|Hin].
    + rewrite decide_True; [reflexivity|]. rewrite fmap_app. apply elem_of_app.
      left. exact Hin.
    + rewrite decide_False; [reflexivity|]. rewrite fmap_app.
      intros [?|Hx]%elem_of_app; [contradiction|].
      apply list_elem_of_singleton in Hx. simpl in Hx. congruence.
Qed.

Lemma correctClusters_fold (results : Store) (rest done : list (Z * list nat))
    (s : Store) :
  groupByCluster results = done ++ rest →
  correctedUpTo results done s →
  correctedUpTo results (groupByCluster results)
    (foldl (λ s (entry : Z * list nat), correctCluster s entry.2) s rest).
Proof.
  revert done s. induction rest as [|[c idxs] rest IH]; intros done s Hcl Hinv.
  - rewrite app_nil_r in Hcl. rewrite Hcl. exact Hinv.
  - cbn [foldl snd]. apply (IH (done ++ [(c, idxs)])).
    + rewrite <- app_assoc. exact Hcl.
    + eapply correctCluster_step; [exact Hcl | exact Hinv].
Qed.

(** The pass maps every result to [expectedItem]. *)
Lemma clusterBasedCorrection_expected (results : Store) :
  clusterBasedCorrection results = expectedItem results <$> results.
Proof.
  destruct (correctClusters_fold results (groupByCluster results) [] results
              eq_refl) as [Hlen Hs].
  { split; [reflexivity|]. intros i r Hr. rewrite Hr.
    destruct (clusterId r) as [c|]; [|reflexivity].
    rewrite decide_False; [reflexivity | apply not_elem_of_nil]. }
  fold (clusterBasedCorrection results) in Hlen, Hs.
  apply list_eq. intros i. rewrite list_lookup_fmap.
  destruct (results !! i) as [r|] eqn:Hr.
  - rewrite (Hs i r Hr). cbn [fmap option_fmap option_map]. f_equal.
    destruct (clusterId r) as [c|] eqn:Hc; [|unfold expectedItem; rewrite Hc; reflexivity].
    rewrite decide_True; [reflexivity|].
    apply mapGet_keys.
    destruct (groupByCluster_inv results (length results) ltac:(lia)) as [_ Hget].
    fold (groupByCluster results) in Hget. rewrite Hget.
    assert (Hin : i ∈ idxsOf results c (length results)).
    { unfold idxsOf. apply list_elem_of_filter. split.
      - unfold inCluster. rewrite Hr. exact Hc.
      - apply elem_of_seq. apply lookup_lt_Some in Hr. lia. }
    destruct (idxsOf results c (length results));
      [apply elem_of_nil in Hin; contradiction | eexists; reflexivity].
  - simpl. apply lookup_ge_None. rewrite Hlen. apply lookup_ge_None. exact Hr.
Qed.


Lemma majorityChar_Some (L : list string) (ch : string) :
  majorityChar L = Some ch ↔ (length L < 2 * count ch L)%nat.
Proof.
  unfold majorityChar. split.
  - intros Hh. destruct (filter _ L) as [|x l] eqn:E; [discriminate|].
    injection Hh as ->.
    assert (Hx : ch ∈ filter (λ c, (length L < 2 * count c L)%nat) L)
      by (rewrite E; left).
    apply list_elem_of_filter in Hx as [Hx _]. exact Hx.
  - intros Hmaj.
    assert (Hin : ch ∈ filter (λ c, (length L < 2 * count c L)%nat) L).
    { apply list_elem_of_filter. split; [exact Hmaj|].
      apply count_elem_of. lia. }
    destruct (filter _ L) as [|x l] eqn:E; [apply elem_of_nil in Hin; contradiction|].
    assert (Hx : x ∈ filter (λ c, (length L < 2 * count c L)%nat) L)
      by (rewrite E; left).
    apply list_elem_of_filter in Hx as [Hx _]. simpl. f_equal.
    destruct (decide (x = ch)) as [|Hne]; [assumption|].
    pose proof (count_two x ch L Hne). lia.
Qed.

Lemma majority_most_common (L : list string) (ch ch' : string) :
  (length L < 2 * count ch L)%nat → (count ch' L ≤ count ch L)%nat.
Proof.
  intros Hmaj. destruct (decide (ch' = ch)) as [->|Hne]; [lia|].
  pose proof (count_two ch' ch L Hne). lia.
Qed.

Lemma correctItem_cases (ch : string) (r : EnhancedOCRResult) :
  (correctItem ch r = r ∧ (char r = ch ∨ (50 <= confidence r)%Q)) ∨
  (char r ≠ ch ∧ (confidence r < 50)%Q ∧
   correctItem ch r =
   {| id := id r; char := ch; bbox := bbox r; confidence := confidence r;
      imageData := imageData r; source := source r;
      segmentationScore := segmentationScore r;
      mlConfidence := Qmax (mlConfidence r) 0.6;
      clusterId := clusterId r |}).
Proof.
  unfold correctItem. case_bool_decide as Hch.
  - destruct (Qlt_le_dec (confidence r) 50) as [Hlt|Hge]; cbn [andb].
    + right. split_and!; [exact Hch | exact Hlt | reflexivity].
    + left. split; [reflexivity | right; exact Hge].
  - left. split; [reflexivity|]. left.
    destruct (decide (char r = ch)); [assumption | contradiction].
Qed.

(** C1.  For every result list, the cluster pass keeps the length and the
    order of the list, and for every result [r], with [r'] the result at
    the same place afterwards: no field but [char] and [mlConfidence] is
    changed; if the character is unchanged the whole result is unchanged;
    if the character changed then [r] has a cluster, the new character
    occurs in strictly more than half of the members of that cluster (and
    is the most common one), the OCR confidence of [r] is below 50 and the
    new [mlConfidence] is at least 0.6.  Conversely a member whose
    character differs from a strict-majority character of its cluster and
    whose confidence is below 50 gets that character and
    [mlConfidence = max(mlConfidence, 0.6)]. *)
Theorem clusterBasedCorrection_majority (results : Store) :
  length (clusterBasedCorrection results) = length results ∧
  ∀ i r, results !! i = Some r →
    ∃ r', clusterBasedCorrection results !! i = Some r' ∧
      (id r' = id r ∧ bbox r' = bbox r ∧ confidence r' = confidence r ∧
       imageData r' = imageData r ∧ source r' = source r ∧
       segmentationScore r' = segmentationScore r ∧
       clusterId r' = clusterId r) ∧
      (char r' = char r → r' = r) ∧
      (char r' ≠ char r →
       ∃ c, clusterId r = Some c ∧
         (length (char <$> members results c)
          < 2 * count (char r') (char <$> members results c))%nat ∧
         (∀ ch, (count ch (char <$> members results c)
                 ≤ count (char r') (char <$> members results c))%nat) ∧
         (confidence r < 50)%Q ∧ (0.6 <= mlConfidence r')%Q) ∧
      (∀ c ch, clusterId r = Some c →
         (length (char <$> members results c)
          < 2 * count ch (char <$> members results c))%nat →
         char r ≠ ch → (confidence r < 50)%Q →
         char r' = ch ∧ mlConfidence r' = Qmax (mlConfidence r) 0.6).
Proof.
  rewrite clusterBasedCorrection_expected. split; [apply length_fmap|].
  intros i r Hr. exists (expectedItem results r).
  rewrite list_lookup_fmap, Hr. split; [reflexivity|].
  unfold expectedItem. destruct (clusterId r) as [c|] eqn:Hc.
  2:{ split_and!; try reflexivity; try exact Hc;
        try (intros Hne; contradiction).
      intros c ch Hcc; discriminate. }
  destruct (majorityChar (char <$> members results c)) as [ch|] eqn:Hmaj.
  2:{ split_and!; try reflexivity; try exact Hc;
        try (intros Hne; contradiction).
      intros c' ch' [= <-] Hm. apply majorityChar_Some in Hm. congruence. }
  apply majorityChar_Some in Hmaj.
  destruct (correctItem_cases ch r) as [[-> Hwhy] | (Hne & Hlow & ->)];
    cbn [id char bbox confidence imageData source segmentationScore
         mlConfidence clusterId].
  - split_and!; try reflexivity; try exact Hc;
      try (intros Hne; contradiction).
    intros c' ch' [= <-] Hm Hne' Hlow'.
    assert (ch' = ch) as ->.
    { apply majorityChar_Some in Hm, Hmaj. congruence. }
    destruct Hwhy as [?|Hge]; [contradiction | lra].
  - split_and!; try reflexivity; try exact Hc.
    + intros Heq. congruence.
    + intros _. exists c. split_and!; [reflexivity | exact Hmaj | | exact Hlow |].
      * intros ch'. apply majority_most_common. exact Hmaj.
      * apply Q.le_max_r.
    + intros c' ch' [= <-] Hm _ _.
      apply majorityChar_Some in Hm, Hmaj. split; [congruence | reflexivity].
Qed.


(** The theorem at the example of the specification with all three glyphs
    in one cluster: "B", of confidence 45, is relabelled "A". *)
Lemma clusterBasedCorrection_majority_witness :
  ∃ r', clusterBasedCorrection
          [glyph "A" 0 30 0; glyph "A" 12 30 0; glyph "B" 24 45 0] !! 2%nat
        = Some r' ∧
        char r' = "A"%string ∧ mlConfidence r' = Qmax 0.3 0.6.
Proof.
  destruct (clusterBasedCorrection_majority
              [glyph "A" 0 30 0; glyph "A" 12 30 0; glyph "B" 24 45 0])
    as [_ H].
  destruct (H 2%nat (glyph "B" 24 45 0) eq_refl) as (r' & Hr' & _ & _ & _ & Hconv).
  exists r'. split; [exact Hr'|].
  apply (Hconv 0 "A"%string); [reflexivity | vm_compute; lia | discriminate | reflexivity].
Defined.

(** *** importTrainingData *)

Record TrainingSample := mkTrainingSample {
  features : list num;
  label : string
}.

(** The part of the engine the import touches, and the console. *)
Record Engine := mkEngine {
  trainingData : list TrainingSample;
  console : list string
}.

Section TrainingImport.

(** [JSON.parse] is the host's: the value parsed, or [None] for the
    [SyntaxError] it throws. *)
Variable JSON_parse : string → option (list TrainingSample).

(** [try { this.trainingData = JSON.parse(data) } catch (e) {
    console.error(...) }]: how the call ends, and the engine afterwards. *)
Definition importTrainingData (data : string) (e : Engine)
    : outcome unit * Engine :=
  match JSON_parse data with
  | Some parsed =>
      (Returns tt, {| trainingData := parsed; console := console e |})
  | None =>
      (Returns tt,
       {| trainingData := trainingData e;
          console := console e ++ ["Failed to import training data:"%string] |})
  end.

(** C3 (amended).  When the string does not parse, the stored training
    samples are afterwards what they were before; the failure is written to
    the console and the call returns normally, as a successful import
    does: nothing tells the caller. *)
Theorem importTrainingData_failure (data : string) (e : Engine) :
  JSON_parse data = None →
  trainingData (importTrainingData data e).2 = trainingData e ∧
  (importTrainingData data e).1 = Returns tt ∧
  console (importTrainingData data e).2 =
  console e ++ ["Failed to import training data:"%string] ∧
  ∀ data' parsed, JSON_parse data' = Some parsed →
    (importTrainingData data' e).1 = (importTrainingData data e).1.
Proof.
  intros Hfail. unfold importTrainingData. rewrite Hfail.
  split_and!; try reflexivity.
  intros data' parsed ->. reflexivity.
Qed.

End TrainingImport.

(** A parser for examples: it accepts the empty array only. *)
Definition parseExample (data : string) : option (list TrainingSample) :=
  if bool_decide (data = "[]"%string) then Some [] else None.

Definition engineExample : Engine :=
  mkEngine [mkTrainingSample [Fin 1] "A"] [].

(** The claim that the failure is reported to the caller fails: on the
    unparsable ["{"] the call ends as a normal return, not with an
    exception, although the parse failed. *)
Lemma importTrainingData_swallows_failure :
  parseExample "{" = None ∧
  (importTrainingData parseExample "{" engineExample).1 ≠ Throws ∧
  (importTrainingData parseExample "{" engineExample).1 =
  (importTrainingData parseExample "[]" engineExample).1.
Proof. split_and!; [reflexivity | discriminate | reflexivity]. Qed.

Lemma importTrainingData_failure_witness :
  trainingData (importTrainingData parseExample "{" engineExample).2 =
  trainingData engineExample.
Proof.
  apply (importTrainingData_failure parseExample "{" engineExample).
  reflexivity.
Defined.


(** *** postProcess *)

(** The blended confidence:
    [Math.round(confidence * 0.4 + segmentationScore * 100 * 0.3 +
                mlConfidence * 100 * 0.3)]. *)
Definition blend (r : EnhancedOCRResult) : EnhancedOCRResult :=
  {| id := id r; char := char r; bbox := bbox r;
     confidence :=
       inject_Z (CharSegmentation.Math_round
                   (confidence r * 0.4 + segmentationScore r * 100 * 0.3
                    + mlConfidence r * 100 * 0.3));
     imageData := imageData r; source := source r;
     segmentationScore := segmentationScore r;
     mlConfidence := mlConfidence r;
     clusterId := clusterId r |}.

Section PostProcess.

Variable Array_sort : ∀ A : Type, (A → A → Q) → list A → list A.

(** [postProcess]; [useKMeans] is [this.options.useKMeans]. *)
Definition postProcess (useKMeans : bool) (results : Store) : Store :=
  let clustered :=
    if useKMeans then clusterBasedCorrection results else results in
  blend <$> contextBasedCorrection Array_sort clustered.

End PostProcess.

(** What a pass may do to a result: everything but the character, the
    confidence and the ML confidence stays; the confidence stays between 0
    and its old value (or the old value and 0), and the ML confidence stays
    or is raised to 0.6. *)
Definition corrected (r0 r : EnhancedOCRResult) : Prop :=
  id r = id r0 ∧ bbox r = bbox r0 ∧ imageData r = imageData r0 ∧
  source r = source r0 ∧ segmentationScore r = segmentationScore r0 ∧
  clusterId r = clusterId r0 ∧
  (Qmin 0 (confidence r0) <= confidence r)%Q ∧
  (confidence r <= Qmax 0 (confidence r0))%Q ∧
  (mlConfidence r = mlConfidence r0 ∨
   mlConfidence r = Qmax (mlConfidence r0) 0.6).

Lemma corrected_refl (r : EnhancedOCRResult) : corrected r r.
Proof.
  unfold corrected. split_and!; try reflexivity.
  - apply Q.le_min_r.
  - apply Q.le_max_r.
  - left. reflexivity.
Qed.

Lemma corrected_penalize (r0 r : EnhancedOCRResult) :
  corrected r0 r → corrected r0 (penalize r).
Proof.
  intros (Hid & Hb & Him & Hs & Hseg & Hc & Hlo & Hhi & Hml).
  unfold corrected, penalize. cbn.
  split_and!; try assumption.
  - apply Q.max_case_strong; [intros x y E; rewrite E; tauto | |].
    + intros _. apply Q.le_min_l.
    + intros Hle. eapply Qle_trans; [apply Q.le_min_l | exact Hle].
  - apply Q.max_case_strong; [intros x y E; rewrite E; tauto | |].
    + intros _. apply Q.le_max_l.
    + intros Hle. eapply Qle_trans; [|exact Hhi]. lra.
Qed.

Lemma corrected_correctItem (ch : string) (r : EnhancedOCRResult) :
  corrected r (correctItem ch r).
Proof.
  unfold correctItem. destruct (_ && _); [|apply corrected_refl].
  unfold corrected. cbn. split_and!; try reflexivity.
  - apply Q.le_min_r.
  - apply Q.le_max_r.
  - right. reflexivity.
Qed.

Lemma corrected_expectedItem (results : Store) (r : EnhancedOCRResult) :
  corrected r (expectedItem results r).
Proof.
  unfold expectedItem. destruct (clusterId r); [|apply corrected_refl].
  destruct (majorityChar _); [apply corrected_correctItem | apply corrected_refl].
Qed.

Lemma contextStep_corrected (s0 s : Store) (prev curr : nat) :
  Forall2 corrected s0 s → Forall2 corrected s0 (contextStep s prev curr).
Proof.
  intros H. unfold contextStep.
  destruct (s !! prev), (s !! curr); try exact H.
  destruct (_ && _); [|exact H].
  apply Forall2_lookup. intros i. rewrite Forall2_lookup in H. specialize (H i).
  destruct (decide (i = curr)) as [->|Hne].
  - rewrite list_lookup_alter_eq. destruct H as [r0 r Hr|]; constructor.
    apply corrected_penalize, Hr.
  - rewrite list_lookup_alter_ne by congruence. exact H.
Qed.

Lemma contextLoop_corrected (s0 : Store) (sorted : list nat) :
  ∀ s, Forall2 corrected s0 s → Forall2 corrected s0 (contextLoop s sorted).
Proof.
  induction sorted as [|prev rest IH]; intros s H; [exact H|].
  destruct rest as [|curr rest']; [exact H|].
  cbn [contextLoop]. apply IH, contextStep_corrected, H.
Qed.

Lemma Qmax_idem_r (a b : Q) : Qmax (Qmax a b) b = Qmax a b.
Proof.
  unfold Qmax, GenericMinMax.gmax. destruct (a ?= b)%Q eqn:E.
  - rewrite E. reflexivity.
  - assert (Eb : (b ?= b)%Q = Eq) by (apply Qeq_alt; reflexivity).
    rewrite Eb. reflexivity.
  - rewrite E. reflexivity.
Qed.

(** The final confidence of a result whose scores are in range. *)
Lemma blend_range (c seg ml : Q) :
  (0 <= c)%Q → (c <= 100)%Q → (0 <= seg)%Q → (seg <= 1)%Q →
  (0 <= ml)%Q → (ml <= 1)%Q →
  0 ≤ CharSegmentation.Math_round (c * 0.4 + seg * 100 * 0.3 + ml * 100 * 0.3)
    ≤ 100.
Proof.
  intros Hc0 Hc1 Hs0 Hs1 Hm0 Hm1. unfold CharSegmentation.Math_round.
  set (x := (c * 0.4 + seg * 100 * 0.3 + ml * 100 * 0.3 + 0.5)%Q).
  assert (H0 : (0 <= x)%Q) by (unfold x; lra).
  assert (H1 : (x <= 100.5)%Q) by (unfold x; lra).
  split.
  - apply Qfloor_resp_le in H0. exact H0.
  - apply Qfloor_resp_le in H1. exact H1.
Qed.

(** X23.  [postProcess] keeps the number and the order of the results and,
    of each result, the id, the box, the image, the source, the
    segmentation score and the cluster; the ML confidence stays or is
    raised to 0.6; the final confidence is an integer; and when the
    confidence was between 0 and 100 and both scores between 0 and 1, the
    final confidence is between 0 and 100. *)
Theorem postProcess_results
    (Array_sort : ∀ A : Type, (A → A → Q) → list A → list A)
    (useKMeans : bool) (results : Store) :
  Forall2 (λ r0 r,
             id r = id r0 ∧ bbox r = bbox r0 ∧ imageData r = imageData r0 ∧
             source r = source r0 ∧
             segmentationScore r = segmentationScore r0 ∧
             clusterId r = clusterId r0 ∧
             (mlConfidence r = mlConfidence r0 ∨
              mlConfidence r = Qmax (mlConfidence r0) 0.6) ∧
             (∃ n : Z, confidence r = inject_Z n ∧
                ((0 <= confidence r0)%Q → (confidence r0 <= 100)%Q →
                 (0 <= segmentationScore r0)%Q → (segmentationScore r0 <= 1)%Q →
                 (0 <= mlConfidence r0)%Q → (mlConfidence r0 <= 1)%Q →
                 0 ≤ n ≤ 100)))
          results (postProcess Array_sort useKMeans results).
Proof.
  unfold postProcess. cbv zeta.
  set (clustered := if useKMeans then clusterBasedCorrection results else results).
  assert (H1 : Forall2 corrected results clustered).
  { unfold clustered. destruct useKMeans.
    - rewrite clusterBasedCorrection_expected.
      apply Forall2_fmap_r, Forall_Forall2_diag, Forall_forall.
      intros r _. apply corrected_expectedItem.
    - apply Forall_Forall2_diag, Forall_forall. intros r _. apply corrected_refl. }
  assert (H2 : Forall2 corrected clustered
                 (contextBasedCorrection Array_sort clustered)).
  { unfold contextBasedCorrection. apply contextLoop_corrected.
    apply Forall_Forall2_diag, Forall_forall. intros r _. apply corrected_refl. }
  apply Forall2_fmap_r.
  generalize dependent (contextBasedCorrection Array_sort clustered).
  generalize dependent clustered. clear.
  intros clustered H1. induction H1 as [|r0 r1 results clustered Hr1 _ IH];
    intros final H2; inversion H2 as [|? r2 ? final' Hr2 H2']; subst;
    constructor; [|apply IH; assumption].
  destruct Hr1 as (Hid1 & Hb1 & Him1 & Hs1 & Hseg1 & Hc1 & Hlo1 & Hhi1 & Hml1).
  destruct Hr2 as (Hid2 & Hb2 & Him2 & Hs2 & Hseg2 & Hc2 & Hlo2 & Hhi2 & Hml2).
  cbn. split_and!; try congruence.
  - destruct Hml1 as [E1|E1], Hml2 as [E2|E2]; rewrite E2, E1.
    + left. reflexivity.
    + right. reflexivity.
    + right. reflexivity.
    + right. apply Qmax_idem_r.
  - eexists. split; [reflexivity|].
    intros Hc0 Hc100 Hseg0 Hseg01 Hml0 Hml01.
    assert (Hconf1 : (0 <= confidence r1)%Q ∧ (confidence r1 <= 100)%Q).
    { split.
      - eapply Qle_trans; [|exact Hlo1]. apply Q.min_glb; lra.
      - eapply Qle_trans; [exact Hhi1|]. apply Q.max_lub; lra. }
    assert (Hconf2 : (0 <= confidence r2)%Q ∧ (confidence r2 <= 100)%Q).
    { destruct Hconf1. split.
      - eapply Qle_trans; [|exact Hlo2]. apply Q.min_glb; lra.
      - eapply Qle_trans; [exact Hhi2|]. apply Q.max_lub; lra. }
    assert (Hm1 : (0 <= mlConfidence r1)%Q ∧ (mlConfidence r1 <= 1)%Q).
    { destruct Hml1 as [->| ->]; [split; assumption|]. split.
      - eapply Qle_trans; [exact Hml0 | apply Q.le_max_l].
      - apply Q.max_lub; lra. }
    assert (Hm2 : (0 <= mlConfidence r2)%Q ∧ (mlConfidence r2 <= 1)%Q).
    { destruct Hm1. destruct Hml2 as [->| ->]; [split; assumption|]. split.
      - eapply Qle_trans; [eassumption | apply Q.le_max_l].
      - apply Q.max_lub; lra. }
    rewrite Hseg2, Hseg1. apply blend_range; tauto.
Qed.

(** *** The training samples *)

Section Training.

Variable Math_sqrt : Q → Q.
Variable Math_atan2 : num → num → num.

(** [addTrainingSample]: the feature vector of the image is stored with the
    label. *)
Definition addTrainingSample (img : ImageData) (lbl : string) (e : Engine)
    : Engine :=
  {| trainingData :=
       trainingData e ++
       [mkTrainingSample
          (FeatureExtractor.extractAllFeatures Math_sqrt Math_atan2 img) lbl];
     console := console e |}.

Definition addTrainingSamples (samples : list (ImageData * string))
    (e : Engine) : Engine :=
  foldl (λ e' sample, addTrainingSample sample.1 sample.2 e') e samples.

End Training.

Definition clearTrainingData (e : Engine) : Engine :=
  {| trainingData := []; console := console e |}.

Definition getTrainingDataCount (e : Engine) : nat := length (trainingData e).

(** X24.  [addTrainingSamples] appends one sample for every image, in
    order, behind the samples already stored, so the count grows by the
    number of images; sample [i] holds the label given and a feature vector
    whose length is fixed by the size of its image and by whether it has
    ink (images of different sizes give stored vectors of different
    lengths); [clearTrainingData] brings the count back to 0. *)
Theorem addTrainingSamples_appends (Math_sqrt : Q → Q)
    (Math_atan2 : num → num → num) (samples : list (ImageData * string))
    (e : Engine) :
  let e' := addTrainingSamples Math_sqrt Math_atan2 samples e in
  take (length (trainingData e)) (trainingData e') = trainingData e ∧
  getTrainingDataCount e' = (getTrainingDataCount e + length samples)%nat ∧
  (∀ i img lbl, samples !! i = Some (img, lbl) →
     ∃ sample, trainingData e' !! (length (trainingData e) + i)%nat = Some sample ∧
       label sample = lbl ∧
       length (features sample) =
       (9 * FeatureExtractor.ceilDiv (width img) 8
          * FeatureExtractor.ceilDiv (height img) 8
        + (if FeatureExtractor.hasInk img then height img + width img else 0)
        + 5)%nat) ∧
  getTrainingDataCount (clearTrainingData e') = 0%nat.
Proof.
  cbv zeta.
  assert (H : trainingData (addTrainingSamples Math_sqrt Math_atan2 samples e) =
              trainingData e ++
              ((λ s : ImageData * string,
                  mkTrainingSample
                    (FeatureExtractor.extractAllFeatures Math_sqrt Math_atan2 s.1)
                    s.2) <$> samples)).
  { unfold addTrainingSamples. revert e.
    induction samples as [|s samples IH]; intros e.
    - cbn. rewrite app_nil_r. reflexivity.
    - cbn [foldl]. rewrite IH. cbn [addTrainingSample trainingData].
      rewrite <- app_assoc. reflexivity. }
  unfold getTrainingDataCount. rewrite H. split_and!.
  - rewrite take_app_length. reflexivity.
  - rewrite length_app, length_fmap. reflexivity.
  - intros i img lbl Hi. eexists. split.
    + rewrite lookup_app_r by lia.
      replace (length (trainingData e) + i - length (trainingData e))%nat
        with i by lia.
      rewrite list_lookup_fmap, Hi. reflexivity.
    + cbn [label features]. split; [reflexivity|].
      apply FeatureExtractor.extractAllFeatures_length.
  - reflexivity.
Qed.

End EnhancedOCREngine.

(** ** The vote of [KNN.predict] *)

Module KNNVoting.

(** [votes] is the tally of the labels of the nearest neighbours. *)
Lemma votes_tally (neighbors : list KNN.Neighbor) :
  foldl (λ votes neighbor, upsert Z.succ 0 (KNN.neighborLabel neighbor) votes)
        [] neighbors =
  EnhancedOCREngine.tally (KNN.neighborLabel <$> neighbors).
Proof.
  unfold EnhancedOCREngine.tally. generalize ([] : list (string * Z)).
  induction neighbors as [|n neighbors IH]; intros acc; [reflexivity|].
  cbn [foldl fmap list_fmap]. apply IH.
Qed.

(** The loop over [votes], from [(0, null)]. *)
Definition bestCount (votes : list (string * Z)) : Z * option string :=
  foldl (λ best (entry : string * Z),
           if bool_decide (best.1 < entry.2)
           then (entry.2, Some entry.1) else best)
        (0, None) votes.

Lemma bestCount_mostCommon (votes : list (string * Z)) :
  (∀ k v, (k, v) ∈ votes → 0 < v) →
  bestCount votes =
  ((EnhancedOCREngine.mostCommon votes).1,
   if decide (votes = []) then None
   else Some (EnhancedOCREngine.mostCommon votes).2).
Proof.
  unfold bestCount, EnhancedOCREngine.mostCommon.
  induction votes as [|[k v] votes IH] using rev_ind; intros Hpos;
    [reflexivity|].
  rewrite !foldl_app. cbn [foldl]. rewrite IH.
  2:{ intros k' v' Hin. apply (Hpos k' v'), elem_of_app. left. exact Hin. }
  assert (Hv : 0 < v) by (apply (Hpos k v), elem_of_app; right; left).
  destruct (foldl _ (0, EmptyString) votes) as [m ch] eqn:E. cbn [fst snd].
  destruct (decide (votes ++ [(k, v)] = [])) as [Hnil|_].
  { destruct votes; discriminate. }
  case_bool_decide as Hlt; cbn [fst snd]; [reflexivity|].
  destruct (decide (votes = [])) as [->|_]; [|reflexivity].
  cbn in E. injection E as <- <-. lia.
Qed.

Section Vote.

Variable Math_sqrt : Q → Q.
Variable Array_sort : ∀ A : Type, (A → A → num) → list A → list A.
Hypothesis Array_sort_perm :
  ∀ (A : Type) (cmp : A → A → num) (l : list A), Array_sort A cmp l ≡ₚ l.

(** X17.  [predict] selects the first [k] entries of the host-sorted list
    of the stored samples that have a label (all of them when there are
    fewer), a rearrangement of those samples; when the sorted list is in
    non-decreasing order of distance, as a sort leaves it, no sample left
    out is nearer to the query than a selected one, so the selected are
    [k] nearest.  [predict] returns a label with the most votes among the
    selected: no label occurs more often among them, and the label is that
    of a stored sample.  It returns [null] exactly when [k] is 0 or no
    stored sample has a label. *)
Theorem predict_majority (knn : KNN.t) (feats : list num) :
  let labelled :=
    KNN.neighborOf Math_sqrt feats
      <$> filter (λ s, KNN.hasLabel s = true) (KNN.trainingData knn) in
  let sorted :=
    Array_sort KNN.Neighbor
      (λ a b, nsub (KNN.distance a) (KNN.distance b)) labelled in
  let selected := KNN.kNearest Math_sqrt Array_sort knn feats in
  let near := KNN.neighborLabel <$> selected in
  selected = take (KNN.k knn) sorted ∧
  sorted ≡ₚ labelled ∧
  ((∀ i j a b, (i < j)%nat → sorted !! i = Some a → sorted !! j = Some b →
      nle (KNN.distance a) (KNN.distance b) = true) →
   ∀ n m, n ∈ selected → m ∈ drop (KNN.k knn) sorted →
     nle (KNN.distance n) (KNN.distance m) = true) ∧
  (KNN.predict Math_sqrt Array_sort knn feats = None ↔
   KNN.k knn = 0%nat ∨
   filter (λ s, KNN.hasLabel s = true) (KNN.trainingData knn) = []) ∧
  (∀ l, KNN.predict Math_sqrt Array_sort knn feats = Some l →
     l ∈ near ∧
     (∀ l', (EnhancedOCREngine.count l' near ≤ EnhancedOCREngine.count l near)%nat) ∧
     ∃ sample, sample ∈ KNN.trainingData knn ∧ KNN.label sample = Some l).
Proof.
  cbv zeta.
  set (labelled := KNN.neighborOf Math_sqrt feats
                     <$> filter (λ s, KNN.hasLabel s = true) (KNN.trainingData knn)).
  set (sorted := Array_sort KNN.Neighbor
                   (λ a b, nsub (KNN.distance a) (KNN.distance b)) labelled).
  assert (Hsel : KNN.kNearest Math_sqrt Array_sort knn feats =
                 take (KNN.k knn) sorted).
  { unfold KNN.kNearest. cbv zeta. rewrite KNN.distances_labelled.
    fold labelled. fold sorted.
    destruct (decide (KNN.k knn ≤ length sorted)%nat) as [Hle|Hgt].
    - rewrite Nat.min_l by exact Hle. reflexivity.
    - rewrite Nat.min_r by lia. rewrite !take_ge by lia. reflexivity. }
  split; [exact Hsel|]. split; [apply Array_sort_perm|]. split.
  { intros Hord n m Hn Hm. rewrite Hsel in Hn.
    apply list_elem_of_lookup in Hn as [i Hi].
    apply lookup_take_Some in Hi as [Hi Hik].
    apply list_elem_of_lookup in Hm as [j Hj]. rewrite lookup_drop in Hj.
    apply (Hord i (KNN.k knn + j)%nat n m); [lia | exact Hi | exact Hj]. }
  clear Hsel. clearbody sorted. clear sorted labelled.
  unfold KNN.predict.
  destruct (KNN.trainingData knn) as [|s0 rest] eqn:Etd.
  { split; [split; [intros _; right; reflexivity | reflexivity]|].
    intros l Hl. discriminate. }
  rewrite <- Etd in *. cbv zeta. rewrite votes_tally.
  set (near := KNN.kNearest Math_sqrt Array_sort knn feats).
  set (L := KNN.neighborLabel <$> near).
  fold (bestCount (EnhancedOCREngine.tally L)).
  destruct (EnhancedOCREngine.tally_spec L) as [Hnd Hget].
  assert (Hval : ∀ k v, (k, v) ∈ EnhancedOCREngine.tally L →
            v = Z.of_nat (EnhancedOCREngine.count k L) ∧
            EnhancedOCREngine.count k L ≠ 0%nat).
  { intros k v Hin. apply (mapGet_elem_of _ _ _ Hnd) in Hin.
    rewrite Hget in Hin.
    destruct (decide (EnhancedOCREngine.count k L = 0%nat)); [discriminate|].
    split; [congruence | assumption]. }
  assert (Hin : ∀ k, k ∈ L →
            (k, Z.of_nat (EnhancedOCREngine.count k L)) ∈ EnhancedOCREngine.tally L).
  { intros k Hk. apply (mapGet_elem_of _ _ _ Hnd). rewrite Hget.
    apply EnhancedOCREngine.count_elem_of in Hk.
    rewrite decide_False by exact Hk. reflexivity. }
  assert (Hpos : ∀ k v, (k, v) ∈ EnhancedOCREngine.tally L → 0 < v).
  { intros k v Hkv. destruct (Hval k v Hkv) as [-> ?]. lia. }
  assert (Hlen : L = [] ↔
            KNN.k knn = 0%nat ∨
            filter (λ s, KNN.hasLabel s = true) (KNN.trainingData knn) = []).
  { pose proof (KNN.kNearest_length Math_sqrt Array_sort Array_sort_perm knn feats)
      as Hl. fold near in Hl.
    rewrite <- (length_zero_iff_nil L). unfold L. rewrite length_fmap, Hl.
    rewrite <- (length_zero_iff_nil (filter _ _)). lia. }
  assert (Hnil : EnhancedOCREngine.tally L = [] ↔ L = []).
  { split.
    - intros E. destruct L as [|x L']; [reflexivity|]. exfalso.
      specialize (Hin x ltac:(left)). rewrite E in Hin.
      apply elem_of_nil in Hin. exact Hin.
    - intros ->. reflexivity. }
  rewrite (bestCount_mostCommon _ Hpos). cbn [snd].
  destruct (decide (EnhancedOCREngine.tally L = [])) as [E|E].
  - split; [split; [intros _; apply Hlen, Hnil, E | reflexivity]|].
    intros l Hl. discriminate.
  - split.
    { split; [discriminate|]. intros Hk. exfalso. apply E, Hnil, Hlen, Hk. }
    intros l [= <-].
    destruct (EnhancedOCREngine.mostCommon_spec _ Hpos) as [[Hn _] | [Hmem Hmax]];
      [contradiction|].
    destruct (EnhancedOCREngine.mostCommon (EnhancedOCREngine.tally L)) as [m ch].
    cbn [fst snd] in *.
    destruct (Hval ch m Hmem) as [-> Hch].
    assert (HchL : ch ∈ L) by (apply EnhancedOCREngine.count_elem_of; exact Hch).
    split_and!.
    + exact HchL.
    + intros l'. destruct (decide (EnhancedOCREngine.count l' L = 0%nat)) as [->|Hc];
        [lia|].
      apply EnhancedOCREngine.count_elem_of in Hc.
      specialize (Hmax _ _ (Hin l' Hc)). lia.
    + unfold L in HchL. apply list_elem_of_fmap in HchL as (n & -> & Hn).
      destruct (KNN.kNearest_stored Math_sqrt Array_sort Array_sort_perm knn feats
                  n Hn) as (sample & Hs & Hl & _).
      exists sample. split; assumption.
Qed.

End Vote.

(** Three stored samples, at 0 with label "a" and at 9 and 7 with label
    "b", and [k = 2]. *)
Definition threeSamples : KNN.t :=
  KNN.mk 2 [KNN.mkFeatureVector [Fin 0] (Some "a"%string);
            KNN.mkFeatureVector [Fin 9] (Some "b"%string);
            KNN.mkFeatureVector [Fin 7] (Some "b"%string)].

(** The theorem at the query 8 with the insertion sort: the two samples at
    distance 1 are selected and the sample at distance 8 is left out, no
    selected sample is farther than it, and the answer "b" has the two
    votes. *)
Lemma predict_majority_witness :
  let selected := KNN.kNearest KMeans.sqrtExample KNN.sortExample
                    threeSamples [Fin 8] in
  KNN.predict KMeans.sqrtExample KNN.sortExample threeSamples [Fin 8]
    = Some "b"%string ∧
  (EnhancedOCREngine.count "a"%string (KNN.neighborLabel <$> selected)
   ≤ EnhancedOCREngine.count "b"%string (KNN.neighborLabel <$> selected))%nat ∧
  (∀ n, n ∈ selected →
     nle (KNN.distance n)
         (KNN.euclideanDistance KMeans.sqrtExample [Fin 8] [Fin 0]) = true).
Proof.
  destruct (predict_majority KMeans.sqrtExample KNN.sortExample
              KNN.sortExample_rearranges threeSamples [Fin 8])
    as (_ & _ & Hnearest & _ & Hmaj).
  assert (Hp : KNN.predict KMeans.sqrtExample KNN.sortExample threeSamples [Fin 8]
               = Some "b"%string) by (vm_compute; reflexivity).
  destruct (Hmaj _ Hp) as (_ & Hmax & _).
  split_and!; [exact Hp | apply Hmax |].
  intros n Hn.
  apply (Hnearest
           ltac:(intros [|[|[|i]]] [|[|[|j]]] a b Hij Hi Hj;
                 try lia; try discriminate;
                 vm_compute in Hi, Hj;
                 injection Hi as <-; injection Hj as <-; vm_compute; reflexivity)
           n (KNN.mkNeighbor "a"%string
                (KNN.euclideanDistance KMeans.sqrtExample [Fin 8] [Fin 0]))
           Hn).
  vm_compute. left.
Defined.

End KNNVoting.

(** ** DecisionTree (mlAlgorithms.ts) *)

Module DecisionTree.

(** [TreeNode]: a leaf carries its label, an internal node its test and
    its two subtrees. *)
Inductive TreeNode :=
| Leaf (label : string)
| Internal (featureIndex : nat) (threshold : num) (left right : TreeNode).

(** The object: [tree], [null] before the first [fit]. *)
Record t := mk { tree : option TreeNode }.

(** [sample.label] when it is truthy: present and not the empty string. *)
Definition truthyLabel (sample : KNN.FeatureVector) : option string :=
  match KNN.label sample with
  | Some l => if bool_decide (l = EmptyString) then None else Some l
  | None => None
  end.

(** [new Set(data.map(d => d.label).filter(Boolean))], its elements in
    insertion order. *)
Definition labelSet (data : list KNN.FeatureVector) : list string :=
  foldl (λ s l, if bool_decide (l ∈ s) then s else s ++ [l])
        [] (omap truthyLabel data).

(** [labels.size === 1 ? Array.from(labels)[0]]: the label, when the set
    has exactly one. *)
Definition singleLabel (data : list KNN.FeatureVector) : option string :=
  match labelSet data with
  | [l] => Some l
  | _ => None
  end.

(** The [labelCounts] map of [calculateEntropy] and [getMajorityLabel]. *)
Definition labelCounts (data : list KNN.FeatureVector) : list (string * Z) :=
  foldl (λ counts sample,
           match truthyLabel sample with
           | Some l => upsert Z.succ 0 l counts
           | None => counts
           end)
        [] data.

(** [getMajorityLabel]: the first label with the greatest count, [''] when
    no sample has a label. *)
Definition getMajorityLabel (data : list KNN.FeatureVector) : string :=
  (foldl (λ best (entry : string * Z),
            if bool_decide (best.1 < entry.2) then (entry.2, entry.1) else best)
         (0, EmptyString) (labelCounts data)).2.

(** [sample.features[featureIndex] <= threshold]; false for a missing
    feature. *)
Definition goesLeft (featureIndex : nat) (threshold : num)
    (feats : list num) : bool :=
  nle (numAt feats featureIndex) threshold.

Section WithHost.

(** [Math.log2] on the positive rationals and [Array.prototype.sort] are
    the host's. *)
Variable Math_log2 : Q → Q.
Variable Array_sort : ∀ A : Type, (A → A → num) → list A → list A.

(** [calculateEntropy].  Every count is at least 1 and at most
    [data.length], so every [p] is a positive rational. *)
Definition calculateEntropy (data : list KNN.FeatureVector) : Q :=
  let total := inject_Z (Z.of_nat (length data)) in
  foldl (λ entropy (entry : string * Z),
           let p := (inject_Z entry.2 / total)%Q in
           (entropy - p * Math_log2 p)%Q)
        0%Q (labelCounts data).

(** A value of the sorted column; [undefined] is [NaN] in arithmetic. *)
Definition valueAt (values : list (option num)) (i : nat) : num :=
  default NaN (mjoin (values !! i)).

(** Body of the inner loop of [findBestSplit]; the state is
    [(bestGain, bestFeature, bestThreshold)]. *)
Definition splitStep (data : list KNN.FeatureVector) (parentEntropy : Q)
    (featureIndex : nat) (values : list (option num))
    (best : num * nat * num) (i : nat) : num * nat * num :=
  let threshold :=
    ndiv (nadd (valueAt values i) (valueAt values (i + 1))) (Fin 2) in
  let leftData :=
    filter (λ d, nle (numAt (KNN.features d) featureIndex) threshold = true)
           data in
  let rightData :=
    filter (λ d, ngt (numAt (KNN.features d) featureIndex) threshold = true)
           data in
  if bool_decide (leftData = []) || bool_decide (rightData = []) then best
  else
    let leftEntropy := calculateEntropy leftData in
    let rightEntropy := calculateEntropy rightData in
    let n := inject_Z (Z.of_nat (length data)) in
    let leftWeight := (inject_Z (Z.of_nat (length leftData)) / n)%Q in
    let rightWeight := (inject_Z (Z.of_nat (length rightData)) / n)%Q in
    let gain :=
      (parentEntropy - (leftWeight * leftEntropy + rightWeight * rightEntropy))%Q in
    if ngt (Fin gain) best.1.1 then (Fin gain, featureIndex, threshold)
    else best.

(** Body of the outer loop: the column of the feature, sorted. *)
Definition splitFeature (data : list KNN.FeatureVector) (parentEntropy : Q)
    (best : num * nat * num) (featureIndex : nat) : num * nat * num :=
  let values :=
    Array_sort (option num)
      (λ a b, nsub (default NaN a) (default NaN b))
      ((λ d, KNN.features d !! featureIndex) <$> data) in
  foldl (splitStep data parentEntropy featureIndex values) best
        (seq 0 (length values - 1)).

(** [findBestSplit] on data whose first sample is [first]. *)
Definition findBestSplit (first : KNN.FeatureVector)
    (data : list KNN.FeatureVector) : nat * num :=
  let numFeatures := length (KNN.features first) in
  let parentEntropy := calculateEntropy data in
  let best := foldl (splitFeature data parentEntropy) (NInf, 0%nat, Fin 0)
                    (seq 0 numFeatures) in
  (best.1.2, best.2).

(** The node below [data] once a split is chosen: a leaf with the majority
    label when one side is empty, an internal node otherwise; [build]
    builds the two subtrees. *)
Definition splitNode (build : list KNN.FeatureVector → TreeNode)
    (first : KNN.FeatureVector) (data : list KNN.FeatureVector) : TreeNode :=
  let split := findBestSplit first data in
  let leftData :=
    filter (λ s, goesLeft split.1 split.2 (KNN.features s) = true) data in
  let rightData :=
    filter (λ s, goesLeft split.1 split.2 (KNN.features s) ≠ true) data in
  if bool_decide (leftData = []) || bool_decide (rightData = [])
  then Leaf (getMajorityLabel data)
  else Internal split.1 split.2 (build leftData) (build rightData).

(** [buildTree(data, depth)] with [levels = 5 - depth] levels left below
    the node: the recursion of the source is on [depth], which grows from 0
    to the cap 5.  Data of at least 5 samples has a first sample. *)
Fixpoint buildTreeFrom (levels : nat) (data : list KNN.FeatureVector)
    : TreeNode :=
  match singleLabel data with
  | Some l => Leaf l
  | None =>
      match levels, data with
      | S levels', first :: _ =>
          if bool_decide (length data < 5)%nat
          then Leaf (getMajorityLabel data)
          else splitNode (buildTreeFrom levels') first data
      | _, _ => Leaf (getMajorityLabel data)
      end
  end.

Definition buildTree (data : list KNN.FeatureVector) (depth : nat) : TreeNode :=
  buildTreeFrom (5 - depth) data.

(** [fit]: nothing happens on empty data. *)
Definition fit (dt : t) (data : list KNN.FeatureVector) : t :=
  match data with
  | [] => dt
  | _ :: _ => {| tree := Some (buildTree data 0) |}
  end.

End WithHost.

(** [traverseTree]; a leaf with the empty label yields [null]. *)
Fixpoint traverseTree (feats : list num) (node : TreeNode) : option string :=
  match node with
  | Leaf l => if bool_decide (l = EmptyString) then None else Some l
  | Internal featureIndex threshold leftNode rightNode =>
      if goesLeft featureIndex threshold feats
      then traverseTree feats leftNode
      else traverseTree feats rightNode
  end.

Definition predict (dt : t) (feats : list num) : option string :=
  match tree dt with
  | None => None
  | Some node => traverseTree feats node
  end.

(** A base-2 logarithm for examples: exact on the powers of 2 the examples
    meet. *)
Definition log2Example (q : Q) : Q :=
  inject_Z (Z.log2 (Qnum q)) - inject_Z (Z.log2 (Zpos (Qden q))).

Definition sampleOf (x : Z) (l : string) : KNN.FeatureVector :=
  KNN.mkFeatureVector [ofZ x] (Some l).

Example fit_splits_two_classes :
  fit log2Example KNN.sortExample (mk None)
      [sampleOf 1 "a"; sampleOf 2 "a"; sampleOf 3 "a";
       sampleOf 7 "b"; sampleOf 8 "b"; sampleOf 9 "b"] =
  mk (Some (Internal 0 (Fin (10 # 2)) (Leaf "a") (Leaf "b"))).
Proof. vm_compute. reflexivity. Qed.

(** *** Properties of the tree *)

(** The number of tests on the longest path to a leaf. *)
Fixpoint height (node : TreeNode) : nat :=
  match node with
  | Leaf _ => 0
  | Internal _ _ leftNode rightNode =>
      S (Nat.max (height leftNode) (height rightNode))
  end.

(** The labels at the leaves. *)
Fixpoint leafLabels (node : TreeNode) : list string :=
  match node with
  | Leaf l => [l]
  | Internal _ _ leftNode rightNode => leafLabels leftNode ++ leafLabels rightNode
  end.

(** The non-empty labels of the samples. *)
Definition labelsOf (data : list KNN.FeatureVector) : list string :=
  omap truthyLabel data.

Lemma labelSet_spec (L : list string) :
  let s := foldl (λ s l, if bool_decide (l ∈ s) then s else s ++ [l]) [] L in
  NoDup s ∧ ∀ l, l ∈ s ↔ l ∈ L.
Proof.
  cbv zeta. induction L as [|x L [IHnd IH]] using rev_ind.
  - split; [constructor | reflexivity].
  - rewrite foldl_app. cbn [foldl].
    destruct (bool_decide_reflect (x ∈ foldl
                (λ s l, if bool_decide (l ∈ s) then s else s ++ [l]) [] L))
      as [Hin|Hnin].
    + split; [exact IHnd|]. intros l. rewrite IH, elem_of_app.
      split; [tauto|]. intros [?|Hl%list_elem_of_singleton]; [assumption|].
      subst l. apply IH, Hin.
    + split.
      * apply NoDup_app. split_and!; [exact IHnd | | apply NoDup_singleton].
        intros y Hy Hy'%list_elem_of_singleton. subst y. contradiction.
      * intros l. rewrite !elem_of_app, IH. reflexivity.
Qed.

Lemma labelSet_labels (data : list KNN.FeatureVector) :
  NoDup (labelSet data) ∧ ∀ l, l ∈ labelSet data ↔ l ∈ labelsOf data.
Proof. exact (labelSet_spec (labelsOf data)). Qed.

Lemma labelsOf_elem (data : list KNN.FeatureVector) (l : string) :
  l ∈ labelsOf data ↔
  l ≠ EmptyString ∧ ∃ sample, sample ∈ data ∧ KNN.label sample = Some l.
Proof.
  unfold labelsOf. rewrite list_elem_of_omap. unfold truthyLabel. split.
  - intros (sample & Hs & Hl). destruct (KNN.label sample) as [l'|] eqn:E;
      [|discriminate].
    destruct (bool_decide_reflect (l' = EmptyString)); [discriminate|].
    injection Hl as ->. split; [assumption|]. exists sample. auto.
  - intros (Hne & sample & Hs & Hl). exists sample. split; [exact Hs|].
    rewrite Hl, bool_decide_eq_false_2 by exact Hne. reflexivity.
Qed.

(** The counts are the tally of the non-empty labels. *)
Lemma labelCounts_tally (data : list KNN.FeatureVector) :
  labelCounts data = EnhancedOCREngine.tally (labelsOf data).
Proof.
  unfold labelCounts, EnhancedOCREngine.tally, labelsOf.
  generalize ([] : list (string * Z)).
  induction data as [|sample data IH]; intros acc; [reflexivity|].
  cbn [foldl]. rewrite EnhancedOCREngine.omap_cons_unfold.
  destruct (truthyLabel sample); cbn [foldl]; apply IH.
Qed.

(** The majority label is the empty string when no sample has a label, and
    otherwise a label that no other label outnumbers. *)
Lemma getMajorityLabel_spec (data : list KNN.FeatureVector) :
  (labelsOf data = [] ∧ getMajorityLabel data = EmptyString) ∨
  (getMajorityLabel data ∈ labelsOf data ∧
   ∀ l, (EnhancedOCREngine.count l (labelsOf data) ≤
         EnhancedOCREngine.count (getMajorityLabel data) (labelsOf data))%nat).
Proof.
  unfold getMajorityLabel. rewrite labelCounts_tally.
  set (L := labelsOf data).
  fold (EnhancedOCREngine.mostCommon (EnhancedOCREngine.tally L)).
  destruct (EnhancedOCREngine.tally_spec L) as [Hnd Hget].
  assert (Hval : ∀ k v, (k, v) ∈ EnhancedOCREngine.tally L →
            v = Z.of_nat (EnhancedOCREngine.count k L) ∧
            EnhancedOCREngine.count k L ≠ 0%nat).
  { intros k v Hin. apply (mapGet_elem_of _ _ _ Hnd) in Hin.
    rewrite Hget in Hin.
    destruct (decide (EnhancedOCREngine.count k L = 0%nat)); [discriminate|].
    split; [congruence | assumption]. }
  assert (Hin : ∀ k, k ∈ L →
            (k, Z.of_nat (EnhancedOCREngine.count k L)) ∈ EnhancedOCREngine.tally L).
  { intros k Hk. apply (mapGet_elem_of _ _ _ Hnd). rewrite Hget.
    apply EnhancedOCREngine.count_elem_of in Hk.
    rewrite decide_False by exact Hk. reflexivity. }
  destruct (EnhancedOCREngine.mostCommon_spec (EnhancedOCREngine.tally L))
    as [[Hnil Hbest] | [Hmem Hmax]].
  { intros k v Hkv. destruct (Hval k v Hkv) as [-> ?]. lia. }
  - left. rewrite Hbest. split; [|reflexivity].
    destruct L as [|x L']; [reflexivity|]. exfalso.
    specialize (Hin x ltac:(left)). rewrite Hnil in Hin.
    apply elem_of_nil in Hin. exact Hin.
  - right. destruct (EnhancedOCREngine.mostCommon _) as [m ch].
    cbn [fst snd] in *. destruct (Hval ch m Hmem) as [-> Hch]. split.
    + apply EnhancedOCREngine.count_elem_of. exact Hch.
    + intros l. destruct (decide (EnhancedOCREngine.count l L = 0%nat)) as [->|Hc];
        [lia|].
      apply EnhancedOCREngine.count_elem_of in Hc.
      specialize (Hmax _ _ (Hin l Hc)). lia.
Qed.

Section Built.

Variable Math_log2 : Q → Q.
Variable Array_sort : ∀ A : Type, (A → A → num) → list A → list A.

(** The three shapes of a node. *)
Lemma buildTreeFrom_cases (levels : nat) (data : list KNN.FeatureVector) :
  (∃ l, singleLabel data = Some l ∧
        buildTreeFrom Math_log2 Array_sort levels data = Leaf l) ∨
  (singleLabel data = None ∧
   buildTreeFrom Math_log2 Array_sort levels data = Leaf (getMajorityLabel data)) ∨
  (singleLabel data = None ∧ (5 ≤ length data)%nat ∧
   ∃ levels' featureIndex threshold,
     levels = S levels' ∧
     buildTreeFrom Math_log2 Array_sort levels data =
     Internal featureIndex threshold
       (buildTreeFrom Math_log2 Array_sort levels'
          (filter (λ s, goesLeft featureIndex threshold (KNN.features s) = true)
                  data))
       (buildTreeFrom Math_log2 Array_sort levels'
          (filter (λ s, goesLeft featureIndex threshold (KNN.features s) ≠ true)
                  data))).
Proof.
  destruct levels as [|levels']; cbn [buildTreeFrom];
    destruct (singleLabel data) as [l|] eqn:E.
  - left. exists l. split; reflexivity.
  - right. left. split; reflexivity.
  - left. exists l. split; reflexivity.
  - destruct data as [|first rest] eqn:Edata; [right; left; split; reflexivity|].
    rewrite <- Edata.
    destruct (bool_decide_reflect (length data < 5)%nat) as [Hlt|Hge];
      [right; left; split; reflexivity|].
    unfold splitNode.
    generalize (findBestSplit Math_log2 Array_sort first data). intros split.
    cbv zeta. destruct (_ || _); [right; left; split; reflexivity|].
    right. right. split; [reflexivity|]. split; [lia|].
    exists levels', split.1, split.2. split; reflexivity.
Qed.

(** X18.  The tree [fit] builds is at most 5 tests deep, whatever the data,
    the logarithm and the sort are: [buildTree] returns, and
    no prediction takes more than 5 comparisons. *)
Theorem buildTree_height (data : list KNN.FeatureVector) (depth : nat) :
  (height (buildTree Math_log2 Array_sort data depth) ≤ 5 - depth)%nat.
Proof.
  unfold buildTree. generalize (5 - depth)%nat. intros levels. revert data.
  induction levels as [|levels IH]; intros data.
  - destruct (buildTreeFrom_cases 0 data)
      as [(l & _ & ->) | [(_ & ->) | (_ & _ & levels' & fi & th & Hl & _)]];
      [cbn [height]; lia | cbn [height]; lia | discriminate].
  - destruct (buildTreeFrom_cases (S levels) data)
      as [(l & _ & ->) | [(_ & ->) | (_ & _ & levels' & fi & th & Hl & ->)]];
      [cbn [height]; lia | cbn [height]; lia |].
    injection Hl as <-. cbn [height].
    pose proof (IH (filter (λ s, goesLeft fi th (KNN.features s) = true) data)).
    pose proof (IH (filter (λ s, goesLeft fi th (KNN.features s) ≠ true) data)).
    lia.
Qed.

Lemma singleLabel_labels (data : list KNN.FeatureVector) (l : string) :
  singleLabel data = Some l →
  l ∈ labelsOf data ∧ ∀ l', l' ∈ labelsOf data → l' = l.
Proof.
  unfold singleLabel. destruct (labelSet_labels data) as [_ Hset].
  destruct (labelSet data) as [|l0 [|l1 ls]]; try discriminate.
  intros [= <-]. split.
  - apply Hset. left.
  - intros l' Hl'. apply Hset in Hl'. apply list_elem_of_singleton in Hl'.
    exact Hl'.
Qed.

(** Every leaf of a tree built from [data] carries the empty string or the
    label of a sample of [data]. *)
Lemma buildTreeFrom_labels (levels : nat) (data : list KNN.FeatureVector) :
  Forall (λ l, l = EmptyString ∨ l ∈ labelsOf data)
         (leafLabels (buildTreeFrom Math_log2 Array_sort levels data)).
Proof.
  revert data. induction levels as [levels IH] using lt_wf_ind. intros data.
  destruct (buildTreeFrom_cases levels data)
    as [(l & Hl & ->) | [(_ & ->) | (_ & _ & levels' & fi & th & -> & ->)]];
    cbn [leafLabels].
  - constructor; [|constructor]. right. apply (singleLabel_labels data l Hl).
  - constructor; [|constructor].
    destruct (getMajorityLabel_spec data) as [[_ ->] | [Hin _]];
      [left; reflexivity | right; exact Hin].
  - assert (Hsub : ∀ (P : KNN.FeatureVector → Prop) `{∀ x, Decision (P x)},
              Forall (λ l, l = EmptyString ∨ l ∈ labelsOf data)
                (leafLabels (buildTreeFrom Math_log2 Array_sort levels'
                               (filter P data)))).
    { intros P HP. eapply Forall_impl; [apply (IH levels'); lia|].
      cbv beta. intros l [->|Hl]; [left; reflexivity|]. right.
      apply labelsOf_elem in Hl as (Hne & sample & Hs & Hl).
      apply labelsOf_elem. split; [exact Hne|]. exists sample.
      apply list_elem_of_filter in Hs as [_ Hs]. auto. }
    apply Forall_app. split; apply Hsub.
Qed.

Lemma traverseTree_leaf (feats : list num) (node : TreeNode) (l : string) :
  traverseTree feats node = Some l →
  l ≠ EmptyString ∧ l ∈ leafLabels node.
Proof.
  induction node as [l0 | fi th lt IHl rt IHr]; cbn [traverseTree leafLabels].
  - destruct (bool_decide_reflect (l0 = EmptyString)); [discriminate|].
    intros [= <-]. split; [assumption | left].
  - destruct (goesLeft fi th feats); intros H.
    + destruct (IHl H). split; [assumption | apply elem_of_app; left; assumption].
    + destruct (IHr H). split; [assumption | apply elem_of_app; right; assumption].
Qed.

(** X19.  A fitted tree predicts only labels it was given: whatever
    [predict] returns after [fit] on data that is not empty is [null] or the
    non-empty label of a training sample. *)
Theorem predict_training_label (dt : t) (data : list KNN.FeatureVector)
    (feats : list num) (l : string) :
  data ≠ [] →
  predict (fit Math_log2 Array_sort dt data) feats = Some l →
  l ≠ EmptyString ∧
  ∃ sample, sample ∈ data ∧ KNN.label sample = Some l.
Proof.
  intros Hne. unfold fit, predict, buildTree.
  generalize (5 - 0)%nat. intros levels.
  destruct data as [|s0 rest] eqn:Edata; [contradiction|]. rewrite <- Edata.
  cbn [tree]. intros Hl. apply traverseTree_leaf in Hl as [Hl Hin].
  split; [exact Hl|].
  pose proof (buildTreeFrom_labels levels data) as Hall.
  rewrite Forall_forall in Hall. specialize (Hall l Hin).
  destruct Hall as [?|Hlab]; [contradiction|].
  apply labelsOf_elem in Hlab as (_ & sample & Hs & Hsl). exists sample. auto.
Qed.

(** What a single leaf answers. *)
Definition leafAnswer (data : list KNN.FeatureVector) (answer : option string)
    : Prop :=
  match answer with
  | None => labelsOf data = []
  | Some l =>
      l ∈ labelsOf data ∧
      ∀ l', (EnhancedOCREngine.count l' (labelsOf data) ≤
             EnhancedOCREngine.count l (labelsOf data))%nat
  end.

(** X20.  On fewer than 5 samples, or on samples whose non-empty labels
    are all the same, [predict] returns the same answer for every input:
    the common label when there is exactly one, and otherwise a label that
    no other label outnumbers in the data ([null] when no sample has a
    label). *)
Theorem predict_constant (dt : t) (data : list KNN.FeatureVector) :
  data ≠ [] →
  (length data < 5)%nat ∨ (∃ l, ∀ l', l' ∈ labelsOf data → l' = l) →
  ∃ answer,
    (∀ feats, predict (fit Math_log2 Array_sort dt data) feats = answer) ∧
    leafAnswer data answer.
Proof.
  intros Hne Hcase. unfold fit, predict, buildTree.
  generalize (5 - 0)%nat. intros levels.
  destruct data as [|s0 rest] eqn:Edata; [contradiction|]. rewrite <- Edata in *.
  cbn [tree].
  assert (Hmajority : ∃ answer,
            (∀ feats, traverseTree feats (Leaf (getMajorityLabel data)) = answer) ∧
            leafAnswer data answer).
  { cbn [traverseTree].
    destruct (getMajorityLabel_spec data) as [[Hnil ->] | [Hin Hmax]].
    - exists None. split; [reflexivity | exact Hnil].
    - exists (Some (getMajorityLabel data)). split; [|split; assumption].
      intros _. rewrite bool_decide_eq_false_2; [reflexivity|].
      apply labelsOf_elem in Hin as [H _]. exact H. }
  destruct (buildTreeFrom_cases levels data)
    as [(l & Hl & ->) | [(_ & ->) | (Hnone & Hlen & _)]].
  - destruct (singleLabel_labels data l Hl) as [Hin Hall].
    exists (Some l). cbn [traverseTree]. split.
    + intros _. rewrite bool_decide_eq_false_2; [reflexivity|].
      apply labelsOf_elem in Hin as [H _]. exact H.
    + split; [exact Hin|]. intros l'.
      destruct (decide (EnhancedOCREngine.count l' (labelsOf data) = 0%nat))
        as [->|Hc]; [lia|].
      apply EnhancedOCREngine.count_elem_of in Hc. rewrite (Hall l' Hc). lia.
  - exact Hmajority.
  - destruct Hcase as [Hlt | (l & Hall)]; [lia|].
    (* all labels equal, yet no single label: there is no label at all *)
    assert (Hnil : labelsOf data = []).
    { destruct (labelSet_labels data) as [Hnd Hset].
      unfold singleLabel in Hnone.
      destruct (labelSet data) as [|l0 [|l1 ls]] eqn:E; [|discriminate|].
      - destruct (labelsOf data) as [|x L]; [reflexivity|]. exfalso.
        assert (Hx : x ∈ ([] : list string)) by (apply Hset; left).
        apply elem_of_nil in Hx. exact Hx.
      - exfalso. assert (H0 : l0 ∈ labelsOf data) by (apply Hset; left).
        assert (H1 : l1 ∈ labelsOf data) by (apply Hset; right; left).
        rewrite (Hall l0 H0), (Hall l1 H1) in Hnd.
        apply NoDup_cons in Hnd as [Hnd _]. apply Hnd. left. }
    exists None. split; [|exact Hnil]. intros feats.
    destruct (traverseTree feats _) as [l'|] eqn:Et; [|reflexivity].
    apply traverseTree_leaf in Et as [Hl' Hin].
    pose proof (buildTreeFrom_labels levels data) as Hlabels.
    rewrite Forall_forall in Hlabels. destruct (Hlabels _ Hin) as [?|Hlab];
      [contradiction|].
    rewrite Hnil in Hlab. apply elem_of_nil in Hlab. contradiction.
Qed.

End Built.

(** [fit] on empty data changes nothing: a tree fitted before stays in
    place and keeps answering, and a fresh object keeps answering [null]. *)
Lemma fit_empty_keeps_tree (Math_log2 : Q → Q)
    (Array_sort : ∀ A : Type, (A → A → num) → list A → list A)
    (dt : t) (feats : list num) :
  fit Math_log2 Array_sort dt [] = dt ∧
  predict (fit Math_log2 Array_sort dt []) feats = predict dt feats ∧
  predict (fit Math_log2 Array_sort (mk None) []) feats = None.
Proof. split_and!; reflexivity. Qed.

Lemma predict_training_label_witness :
  "b"%string ≠ EmptyString ∧
  ∃ sample,
    sample ∈ [sampleOf 1 "a"; sampleOf 2 "a"; sampleOf 3 "a";
              sampleOf 7 "b"; sampleOf 8 "b"; sampleOf 9 "b"] ∧
    KNN.label sample = Some "b"%string.
Proof.
  apply (predict_training_label log2Example KNN.sortExample (mk None)
           [sampleOf 1 "a"; sampleOf 2 "a"; sampleOf 3 "a";
            sampleOf 7 "b"; sampleOf 8 "b"; sampleOf 9 "b"] [Fin 8]);
    [discriminate | vm_compute; reflexivity].
Defined.

Lemma predict_constant_witness :
  ∃ answer,
    (∀ feats, predict (fit log2Example KNN.sortExample (mk None)
                         [sampleOf 1 "a"; sampleOf 2 "b"; sampleOf 3 "b"])
                      feats = answer) ∧
    leafAnswer [sampleOf 1 "a"; sampleOf 2 "b"; sampleOf 3 "b"] answer.
Proof.
  apply (predict_constant log2Example KNN.sortExample (mk None)
           [sampleOf 1 "a"; sampleOf 2 "b"; sampleOf 3 "b"]);
    [discriminate | left; cbn [length]; lia].
Defined.

End DecisionTree.

(** ** ClipboardManager: matching pasted text to character boxes *)

Module ClipboardManager.

(** A JS string is its sequence of UTF-16 code units. *)
Abbreviation text := (list N).

(** [CharacterItem]. *)
Record CharacterItem := mkCharacterItem {
  id : text;
  char : text;
  bbox : EnhancedOCREngine.BBox;
  confidence : Q;
  imageData : text;
  source : EnhancedOCREngine.Source
}.

Record ClipboardMatchResult := mkMatch {
  matchChar : CharacterItem;
  matchedText : text;
  matchConfidence : Q
}.

(** The code units that [String.prototype.trim] strips and the class [\s]
    matches: white space and line terminators. *)
Definition isWhiteSpace (c : N) : bool :=
  (bool_decide (9 ≤ c ≤ 13) || bool_decide (c = 32) || bool_decide (c = 160)
   || bool_decide (c = 5760) || bool_decide (8192 ≤ c ≤ 8202)
   || bool_decide (c = 8232) || bool_decide (c = 8233)
   || bool_decide (c = 8239) || bool_decide (c = 8287)
   || bool_decide (c = 12288) || bool_decide (c = 65279))%N.

(** [text.trim()]. *)
Fixpoint trimStart (t : text) : text :=
  match t with
  | c :: rest => if isWhiteSpace c then trimStart rest else t
  | [] => []
  end.

Definition trim (t : text) : text := reverse (trimStart (reverse (trimStart t))).

(** [text.trim().replace(/\s+/g, '')]: every run of white space is
    deleted. *)
Definition cleanText (t : text) : text :=
  filter (λ c, isWhiteSpace c = false) (trim t).

(** [characters.find(c => c.id === selectedId)]. *)
Fixpoint findById (selectedId : text) (characters : list CharacterItem)
    : option CharacterItem :=
  match characters with
  | c :: rest => if bool_decide (id c = selectedId) then Some c
                 else findById selectedId rest
  | [] => None
  end.

(** The comparators of the two sorts. *)
Definition readingOrder (a b : CharacterItem) : Q :=
  let yDiff := (EnhancedOCREngine.bbox_y (bbox a) - EnhancedOCREngine.bbox_y (bbox b))%Q in
  if Qlt_le_dec 20 (Qabs yDiff) then yDiff
  else (EnhancedOCREngine.bbox_x (bbox a) - EnhancedOCREngine.bbox_x (bbox b))%Q.

Definition verticalOrder (a b : CharacterItem) : Q :=
  let xDiff := (EnhancedOCREngine.bbox_x (bbox b) - EnhancedOCREngine.bbox_x (bbox a))%Q in
  if Qlt_le_dec 20 (Qabs xDiff) then xDiff
  else (EnhancedOCREngine.bbox_y (bbox a) - EnhancedOCREngine.bbox_y (bbox b))%Q.

Section WithSort.

(** [Array.prototype.sort] is the host's. *)
Variable Array_sort : ∀ A : Type, (A → A → Q) → list A → list A.

Definition sortByReadingOrder (characters : list CharacterItem)
    : list CharacterItem :=
  Array_sort CharacterItem readingOrder characters.

Definition sortByVerticalOrder (characters : list CharacterItem)
    : list CharacterItem :=
  Array_sort CharacterItem verticalOrder characters.

(** The loop [for (let i = 0; i < matchCount; i++)]: box [i] of the sorted
    boxes gets code unit [i] of the text. *)
Definition matchInOrder (cleanedText : text) (sortedChars : list CharacterItem)
    : list ClipboardMatchResult :=
  let matchCount := Nat.min (length cleanedText) (length sortedChars) in
  omap (λ i, match sortedChars !! i, cleanedText !! i with
             | Some c, Some u => Some (mkMatch c [u] 1)
             | _, _ => None
             end)
       (seq 0 matchCount).

(** The selected box, when [selectedId] is given (not [null], [undefined]
    or the empty string) and names a box. *)
Definition selectedBox (characters : list CharacterItem)
    (selectedId : option text) : option CharacterItem :=
  match selectedId with
  | Some (u :: sid) => findById (u :: sid) characters
  | _ => None
  end.

Definition smartMatch (t : text) (characters : list CharacterItem)
    (selectedId : option text) : list ClipboardMatchResult :=
  let cleanedText := cleanText t in
  if bool_decide (length cleanedText = 0%nat)
     || bool_decide (length characters = 0%nat)
  then []
  else
    match selectedBox characters selectedId with
    | Some selectedChar => [mkMatch selectedChar cleanedText 1]
    | None => matchInOrder cleanedText (sortByReadingOrder characters)
    end.

Definition smartMatchWithDirection (t : text) (characters : list CharacterItem)
    (isVertical : bool) (selectedId : option text)
    : list ClipboardMatchResult :=
  let cleanedText := cleanText t in
  if bool_decide (length cleanedText = 0%nat)
     || bool_decide (length characters = 0%nat)
  then []
  else
    match selectedBox characters selectedId with
    | Some selectedChar => [mkMatch selectedChar cleanedText 1]
    | None =>
        matchInOrder cleanedText
          (if isVertical then sortByVerticalOrder characters
           else sortByReadingOrder characters)
    end.

End WithSort.

(** *** What is matched *)

Lemma trimStart_filter (t : text) :
  filter (λ c, isWhiteSpace c = false) (trimStart t) =
  filter (λ c, isWhiteSpace c = false) t.
Proof.
  induction t as [|c t IH]; [reflexivity|].
  cbn [trimStart]. destruct (isWhiteSpace c) eqn:E; [|reflexivity].
  rewrite IH, filter_cons, decide_False; [reflexivity|]. rewrite E. discriminate.
Qed.

(** Cleaning is deleting the white space. *)
Lemma cleanText_filter (t : text) :
  cleanText t = filter (λ c, isWhiteSpace c = false) t.
Proof.
  unfold cleanText, trim.
  rewrite filter_reverse, trimStart_filter, filter_reverse,
    trimStart_filter, reverse_involutive. reflexivity.
Qed.

Lemma matchInOrder_spec (cleanedText : text) (sortedChars : list CharacterItem) :
  let n := Nat.min (length cleanedText) (length sortedChars) in
  matchChar <$> matchInOrder cleanedText sortedChars = take n sortedChars ∧
  mjoin (matchedText <$> matchInOrder cleanedText sortedChars) = take n cleanedText ∧
  Forall (λ m, length (matchedText m) = 1%nat ∧ matchConfidence m = 1%Q)
         (matchInOrder cleanedText sortedChars).
Proof.
  cbv zeta. unfold matchInOrder. cbv zeta.
  assert (H : ∀ n, (n ≤ Nat.min (length cleanedText) (length sortedChars))%nat →
    let ms := omap (λ i, match sortedChars !! i, cleanedText !! i with
                         | Some c, Some u => Some (mkMatch c [u] 1)
                         | _, _ => None
                         end) (seq 0 n) in
    matchChar <$> ms = take n sortedChars ∧
    mjoin (matchedText <$> ms) = take n cleanedText ∧
    Forall (λ m, length (matchedText m) = 1%nat ∧ matchConfidence m = 1%Q) ms).
  { induction n as [|n IH]; intros Hn; cbv zeta.
    - split_and!; [reflexivity | reflexivity | constructor].
    - destruct (IH ltac:(lia)) as (Hc & Ht & Hall). cbv zeta in Hc, Ht, Hall.
      rewrite seq_S, omap_app. cbn [plus omap list_omap].
      destruct (lookup_lt_is_Some_2 sortedChars n ltac:(lia)) as [c Ec].
      destruct (lookup_lt_is_Some_2 cleanedText n ltac:(lia)) as [u Eu].
      rewrite Ec, Eu.
      rewrite !fmap_app, Hc. cbn [fmap list_fmap matchChar matchedText].
      split_and!.
      + rewrite (take_S_r _ _ _ Ec). reflexivity.
      + rewrite join_app, Ht. cbn. rewrite (take_S_r _ _ _ Eu). reflexivity.
      + apply Forall_app. split; [exact Hall|].
        constructor; [|constructor]. split; reflexivity. }
  apply H. lia.
Qed.

Section Matched.

Variable Array_sort : ∀ A : Type, (A → A → Q) → list A → list A.
Hypothesis Array_sort_perm :
  ∀ (A : Type) (cmp : A → A → Q) (l : list A), Array_sort A cmp l ≡ₚ l.

(** X25.  [smartMatch] without a selected box returns [min(n, boxes)]
    matches, where [n] counts the code units of the text that are not white
    space (so none when the text is all white space or there is no box); the
    matched texts are single code units that spell, in order, the first of
    those code units; every match has confidence 1; and the boxes matched
    are a selection of the boxes given, no box being used more often than
    it was given.  [smartMatchWithDirection] with [isVertical = false]
    returns the same. *)
Theorem smartMatch_in_order (t : text) (characters : list CharacterItem)
    (selectedId : option text) :
  selectedBox characters selectedId = None →
  let cleaned := filter (λ c, isWhiteSpace c = false) t in
  let ms := smartMatch Array_sort t characters selectedId in
  length ms = Nat.min (length cleaned) (length characters) ∧
  mjoin (matchedText <$> ms) = take (length ms) cleaned ∧
  Forall (λ m, length (matchedText m) = 1%nat ∧ matchConfidence m = 1%Q) ms ∧
  matchChar <$> ms ⊆+ characters ∧
  smartMatchWithDirection Array_sort t characters false selectedId = ms.
Proof.
  intros Hsel. cbv zeta. unfold smartMatch, smartMatchWithDirection. cbv zeta.
  rewrite Hsel, cleanText_filter.
  set (cleaned := filter (λ c, isWhiteSpace c = false) t).
  destruct (bool_decide_reflect (length cleaned = 0%nat)) as [E|E].
  { cbn [orb length]. rewrite E.
    split_and!; first [reflexivity | constructor | apply submseteq_nil_l]. }
  destruct (bool_decide_reflect (length characters = 0%nat)) as [E'|E'].
  { cbn [orb length]. rewrite E'.
    split_and!;
      first [reflexivity | lia | constructor | apply submseteq_nil_l]. }
  cbn [orb].
  destruct (matchInOrder_spec cleaned (sortByReadingOrder Array_sort characters))
    as (Hc & Ht & Hall).
  cbv zeta in Hc, Ht.
  assert (Hlen : length (sortByReadingOrder Array_sort characters) =
                 length characters).
  { unfold sortByReadingOrder. apply Permutation_length, Array_sort_perm. }
  rewrite Hlen in Hc, Ht.
  assert (Hn : length (matchInOrder cleaned
                         (sortByReadingOrder Array_sort characters)) =
               Nat.min (length cleaned) (length characters)).
  { rewrite <- (length_fmap matchChar), Hc, length_take. lia. }
  split_and!.
  - exact Hn.
  - rewrite Hn. exact Ht.
  - exact Hall.
  - rewrite Hc. etransitivity; [apply submseteq_take|].
    unfold sortByReadingOrder. rewrite Array_sort_perm. reflexivity.
  - reflexivity.
Qed.

End Matched.

(** X26.  When a box is selected ([selectedId] names a box and is not
    empty) and the text has a character that is not white space, both
    [smartMatch] and [smartMatchWithDirection] return a single match: the
    first box with that id, with the whole text without its white space,
    whatever the sort and the direction are. *)
Theorem smartMatch_selected
    (Array_sort : ∀ A : Type, (A → A → Q) → list A → list A)
    (t : text) (characters : list CharacterItem) (selectedId : text)
    (isVertical : bool) :
  selectedId ≠ [] → filter (λ c, isWhiteSpace c = false) t ≠ [] →
  Exists (λ c, id c = selectedId) characters →
  ∃ before box after,
    characters = before ++ box :: after ∧
    id box = selectedId ∧ Forall (λ c, id c ≠ selectedId) before ∧
    smartMatch Array_sort t characters (Some selectedId) =
      [mkMatch box (filter (λ c, isWhiteSpace c = false) t) 1] ∧
    smartMatchWithDirection Array_sort t characters isVertical (Some selectedId) =
      [mkMatch box (filter (λ c, isWhiteSpace c = false) t) 1].
Proof.
  intros Hid Ht Hex.
  assert (Hfind : ∃ before box after,
            characters = before ++ box :: after ∧ id box = selectedId ∧
            Forall (λ c, id c ≠ selectedId) before ∧
            findById selectedId characters = Some box).
  { induction characters as [|c characters IH].
    - apply Exists_nil in Hex. contradiction.
    - cbn [findById]. destruct (bool_decide_reflect (id c = selectedId)) as [E|E].
      + exists [], c, characters. split_and!; [reflexivity | exact E | constructor | reflexivity].
      + apply Exists_cons in Hex as [?|Hex]; [contradiction|].
        destruct (IH Hex) as (before & box & after & -> & Hb & Hall & Hf).
        exists (c :: before), box, after.
        split_and!; [reflexivity | exact Hb | constructor; assumption | exact Hf]. }
  destruct Hfind as (before & box & after & Hchars & Hbox & Hall & Hfind).
  exists before, box, after. split_and!; try assumption.
  - unfold smartMatch. cbv zeta. rewrite cleanText_filter.
    rewrite !bool_decide_eq_false_2.
    + cbn [orb]. unfold selectedBox. destruct selectedId; [contradiction|].
      rewrite Hfind. reflexivity.
    + rewrite Hchars, length_app. cbn. lia.
    + intros E. apply length_zero_iff_nil in E. contradiction.
  - unfold smartMatchWithDirection. cbv zeta. rewrite cleanText_filter.
    rewrite !bool_decide_eq_false_2.
    + cbn [orb]. unfold selectedBox. destruct selectedId; [contradiction|].
      rewrite Hfind. reflexivity.
    + rewrite Hchars, length_app. cbn. lia.
    + intros E. apply length_zero_iff_nil in E. contradiction.
Qed.

Definition boxAt (name : N) (x y : Q) : CharacterItem :=
  mkCharacterItem [name] [] (EnhancedOCREngine.mkBBox x y 10 10) 90 []
                  EnhancedOCREngine.ocr.

Lemma smartMatch_in_order_witness :
  let cleaned := filter (λ c, isWhiteSpace c = false) [32; 65; 10; 66; 67]%N in
  let ms := smartMatch EnhancedOCREngine.sortExample [32; 65; 10; 66; 67]%N
              [boxAt 1 30 0; boxAt 2 0 0] None in
  length ms = Nat.min (length cleaned) 2 ∧
  mjoin (matchedText <$> ms) = take (length ms) cleaned.
Proof.
  destruct (smartMatch_in_order EnhancedOCREngine.sortExample
              EnhancedOCREngine.sortExample_perm
              [32; 65; 10; 66; 67]%N [boxAt 1 30 0; boxAt 2 0 0] None eq_refl)
    as (Hlen & Htext & _).
  split; [exact Hlen | exact Htext].
Defined.

Lemma smartMatch_selected_witness :
  ∃ before box after,
    [boxAt 1 30 0; boxAt 2 0 0] = before ++ box :: after ∧
    id box = [2%N] ∧ Forall (λ c, id c ≠ [2%N]) before ∧
    smartMatch EnhancedOCREngine.sortExample [65; 32; 66]%N
      [boxAt 1 30 0; boxAt 2 0 0] (Some [2%N]) =
      [mkMatch box (filter (λ c, isWhiteSpace c = false) [65; 32; 66]%N) 1] ∧
    smartMatchWithDirection EnhancedOCREngine.sortExample [65; 32; 66]%N
      [boxAt 1 30 0; boxAt 2 0 0] true (Some [2%N]) =
      [mkMatch box (filter (λ c, isWhiteSpace c = false) [65; 32; 66]%N) 1].
Proof.
  apply (smartMatch_selected EnhancedOCREngine.sortExample [65; 32; 66]%N
           [boxAt 1 30 0; boxAt 2 0 0] [2%N] true).
  - discriminate.
  - vm_compute. discriminate.
  - apply Exists_cons. right. apply Exists_cons. left. reflexivity.
Defined.

End ClipboardManager.
